(** * go-chord: the stage pipeline, the driver and the two triggers

    A shallow embedding of [chord.go] (NewStage, RunFlow), of the ticker
    trigger (NewTicker, Ticker.Stage) and of the HTTP trigger (NewHttp,
    Handler.ServeHTTP, HttpContext.Done, Http.Stage).

    Goroutines are modelled as small program-counter machines driven by a
    schedule: a list of inputs, each of which lets one goroutine or the
    environment (the timer, a cancellation, a consumer, an incoming request)
    take one step.  A statement quantified over all schedules therefore
    speaks about every interleaving. *)

From Stdlib Require Import ZArith Lia.
From stdpp Require Import base list strings.

Open Scope nat_scope.

(** ** Values shared by all packages *)

(** A [context.Context] is identified by a number; whether it has been
    cancelled is part of the state of the machine that runs the goroutines. *)
Definition Context := nat.

(** A Go [error] value, by its message. *)
Definition error := string.

(** An unbuffered channel is identified by the number [make] gave it. *)
Definition chan := nat.

Fixpoint mem (x : nat) (l : list nat) : bool :=
  match l with
  | [] => false
  | y :: l' => if Nat.eqb x y then true else mem x l'
  end.

(** ** Package conduit *)

Module conduit.

(** Modelled from the spec: [conduit.Result], the Outcome of sections 3 and
    4.1; the package go-conduit is not part of the sources.  Exactly one of
    payload and error is populated, and the execution context is carried
    along. *)
Inductive Result (T : Type) : Type :=
| Ok (ctx : Context) (v : T)
| Err (ctx : Context) (e : error).
Arguments Ok {T} ctx v.
Arguments Err {T} ctx e.

Section Pipeline.
(** The state the user's functions (transforms and terminal handlers) read
    and write. *)
Context {W : Type}.

Definition M (A : Type) : Type := W -> A * W.

Definition ret {A} (a : A) : M A := fun w => (a, w).

Definition bind {A B} (m : M A) (k : A -> M B) : M B :=
  fun w => let (a, w') := m w in k a w'.

(** Modelled from the spec: the Cancellable Sequence Channel of section 4.1,
    as the list of its deliveries up to closure.  The channel is unbuffered,
    so the work that produces the n-th Outcome is done when the consumer
    takes it: a delivery is a computation. *)
Definition Chan (T : Type) : Type := list (M (Result T)).

(** Modelled from the spec: [conduit.Stage], a factory whose invocation starts
    a production run and yields its channel (section 3). *)
Definition Stage (T : Type) : Type := M (Chan T).

Definition Transform (In Out : Type) : Type :=
  Context -> In -> M (Out * option error).

(** Modelled from the spec: what the worker of section 4.2 does with the one
    Outcome it has read. *)
Definition relay {In Out} (fn : Transform In Out) (r : Result In)
  : M (Result Out) :=
  match r with
  | Err ctx e => ret (Err ctx e)
  | Ok ctx v =>
      bind (fn ctx v) (fun res =>
        match snd res with
        | Some e => ret (Err ctx e)
        | None => ret (Ok ctx (fst res))
        end)
  end.

(** Modelled from the spec: the worker loop of section 4.2: read one Outcome
    from upstream, relay it, repeat; close when upstream is closed. *)
Fixpoint worker {In Out} (fn : Transform In Out) (up : Chan In) : Chan Out :=
  match up with
  | [] => []
  | recv :: up' => bind recv (relay fn) :: worker fn up'
  end.

(** Modelled from the spec: [conduit.NewProducerConsumer] (section 4.2): the
    new Stage instantiates the upstream run and starts the worker. *)
Definition NewProducerConsumer {In Out} (s : Stage In) (fn : Transform In Out)
  : Stage Out :=
  bind s (fun up => ret (worker fn up)).

(** Modelled from the spec: the terminal dispatch of section 4.4; the error
    that OnSuccess may return is not fed back. *)
Definition dispatch {Out} (onSuccess : Context -> Out -> M (option error))
    (onError : Context -> error -> M unit) (r : Result Out) : M unit :=
  match r with
  | Ok ctx v => bind (onSuccess ctx v) (fun _ => ret tt)
  | Err ctx e => onError ctx e
  end.

(** Modelled from the spec: the driver loop of section 4.4, on the caller's
    thread, until the channel is closed. *)
Fixpoint drain {Out} (onSuccess : Context -> Out -> M (option error))
    (onError : Context -> error -> M unit) (ch : Chan Out) : M unit :=
  match ch with
  | [] => ret tt
  | recv :: ch' =>
      bind (bind recv (dispatch onSuccess onError))
           (fun _ => drain onSuccess onError ch')
  end.

(** Modelled from the spec: [conduit.NewConsumer] (section 4.4). *)
Definition NewConsumer {Out} (s : Stage Out)
    (onSuccess : Context -> Out -> M (option error))
    (onError : Context -> error -> M unit) : M unit :=
  bind s (drain onSuccess onError).

End Pipeline.

End conduit.

(** ** Package chord (chord.go) *)

Module chord.
Import conduit.

Definition Stage {W : Type} (T : Type) : Type := @conduit.Stage W T.

Record Flow {W : Type} (In Out : Type) : Type := {
  OnSuccess : Context -> Out -> @M W (option error);
  OnError : Context -> error -> @M W unit;
  Pipeline : @Stage W In -> @Stage W Out
}.
Arguments OnSuccess {W In Out} _ _ _.
Arguments OnError {W In Out} _ _ _.
Arguments Pipeline {W In Out} _ _.
Arguments Build_Flow {W In Out} _ _ _.

Definition NewStage {W In Out} (p : @Stage W In) (fn : @Transform W In Out)
  : @Stage W Out :=
  NewProducerConsumer p fn.

Definition RunFlow {W In Out} (s : @Stage W In) (f : @Flow W In Out)
  : @M W unit :=
  NewConsumer (Pipeline f s) (OnSuccess f) (OnError f).

(** What the driver does with one delivery of the final channel: take the
    Outcome and hand it to the matching terminal handler. *)
Definition handle {W In Out} (f : @Flow W In Out) (w : W)
    (recv : @M W (Result Out)) : W :=
  snd (bind recv (dispatch (OnSuccess f) (OnError f)) w).

(** A linear chain of transforms, composed by repeated NewStage. *)
Inductive Chain {W : Type} : Type -> Type -> Type :=
| Last {A} : Chain A A
| Then {A B C} (fn : @Transform W A B) (rest : Chain B C) : Chain A C.

Fixpoint build {W A C} (c : @Chain W A C) : @Stage W A -> @Stage W C :=
  match c in Chain A C return Stage A -> Stage C with
  | Last => fun s => s
  | Then fn rest => fun s => build rest (NewStage s fn)
  end.

(** The channel at the end of a chain, from the channel at its start. *)
Fixpoint through {W A C} (c : @Chain W A C) : @Chan W A -> @Chan W C :=
  match c in Chain A C return Chan A -> Chan C with
  | Last => fun ch => ch
  | Then fn rest => fun ch => through rest (worker fn ch)
  end.

End chord.

(** ** What a run of the goroutine machines shows *)

Inductive event (T : Type) : Type :=
| ECancel (ctx : Context)
    (* the cancellation signal of ctx fires *)
| EStart (i : nat) (ch : chan)
    (* the Stage factory made ch and started production run i *)
| EEmit (i : nat) (r : conduit.Result T)
    (* run i handed r to the consumer of its output channel *)
| ECloseOut (i : nat)
    (* run i closed its output channel *)
| ERelease (i : nat)
    (* run i released the trigger's resource: t.Stop(), ht.Close() *)
| EPanic (i : nat)
    (* a deferred close of run i found its channel closed already *)
| EUnblock (h : nat)
    (* HTTP handler h received on its done channel *).
Arguments ECancel {T} ctx.
Arguments EStart {T} i ch.
Arguments EEmit {T} i r.
Arguments ECloseOut {T} i.
Arguments ERelease {T} i.
Arguments EPanic {T} i.
Arguments EUnblock {T} h.

Definition is_emit {T} (i : nat) (e : event T) : bool :=
  match e with EEmit j _ => Nat.eqb i j | _ => false end.

Definition is_close {T} (i : nat) (e : event T) : bool :=
  match e with ECloseOut j => Nat.eqb i j | _ => false end.

Definition is_release {T} (i : nat) (e : event T) : bool :=
  match e with ERelease j => Nat.eqb i j | _ => false end.

Definition is_panic {T} (e : event T) : bool :=
  match e with EPanic _ => true | _ => false end.

Definition is_start {T} (e : event T) : bool :=
  match e with EStart _ _ => true | _ => false end.

(** How many events of a trace satisfy p. *)
Fixpoint count {A} (p : A -> bool) (tr : list A) : nat :=
  match tr with
  | [] => 0
  | e :: tr' => (if p e then 1 else 0) + count p tr'
  end.

(** Every event that satisfies b comes after one that satisfies a; [seen]
    says whether an a has been passed already. *)
Fixpoint precedes {A} (a b : A -> bool) (seen : bool) (tr : list A) : bool :=
  match tr with
  | [] => true
  | e :: tr' =>
      (if b e then seen else true) && precedes a b (seen || a e) tr'
  end.

(** The Outcomes run i put on its channel, in order. *)
Fixpoint emitted {T} (i : nat) (tr : list (event T))
  : list (conduit.Result T) :=
  match tr with
  | [] => []
  | EEmit j r :: tr' =>
      if Nat.eqb i j then r :: emitted i tr' else emitted i tr'
  | _ :: tr' => emitted i tr'
  end.

(** The Stage whose single production run shows the given Outcomes. *)
Definition stage_of {W T} (rs : list (conduit.Result T)) : @chord.Stage W T :=
  conduit.ret (map conduit.ret rs).

(** ** Package time, as far as the ticker trigger uses it *)

Module time.

Definition Duration := Z.
Definition Time := Z.

Definition Second : Duration := 1000000000%Z.

(** A [*time.Ticker]: its period, its channel C (which holds at most one
    tick) and whether Stop was called. *)
Record Ticker : Type := {
  period : Duration;
  C : option Time;
  stopped : bool
}.

(** [time.NewTicker] panics when d is not positive. *)
Definition NewTicker (d : Duration) : option Ticker :=
  if (d <=? 0)%Z then None
  else Some {| period := d; C := None; stopped := false |}.

(** [Stop] turns the ticker off; it does not close the channel.  A tick
    already in C is kept, as the runtimes before Go 1.23 do; later runtimes
    discard it, which only takes behaviours away. *)
Definition Stop (t : Ticker) : Ticker :=
  {| period := period t; C := C t; stopped := true |}.

(** The period has elapsed: the tick is put on C unless the ticker is
    stopped or the previous tick has not been taken. *)
Definition fire (now : Time) (t : Ticker) : Ticker :=
  if stopped t then t
  else match C t with
       | Some _ => t
       | None => {| period := period t; C := Some now; stopped := false |}
       end.

(** [<-t.C], when a tick is there. *)
Definition take (t : Ticker) : option (Time * Ticker) :=
  match C t with
  | Some v => Some (v, {| period := period t; C := None; stopped := stopped t |})
  | None => None
  end.

End time.

(** ** The ticker trigger *)

Module Ticker.
Import conduit.

(** [type Ticker struct { *time.Ticker }] *)
Record Ticker : Type := { embedded : time.Ticker }.

(** [NewTicker(d)]: the argument of [time.NewTicker] is [time.Second]. *)
Definition NewTicker (d : time.Duration) : option Ticker :=
  match time.NewTicker time.Second with
  | Some t => Some {| embedded := t |}
  | None => None
  end.

(** Where the goroutine started by the Stage factory stands. *)
Inductive pc : Type :=
| Select                 (* at the select of the loop *)
| RecvTick               (* default branch, waiting in <-t.C *)
| Send (v : time.Time)   (* default branch, waiting in ch <- conduit.Ok(ctx, v) *)
| DeferClose             (* returned: the deferred close(ch) is next *)
| DeferStop              (* the deferred t.Stop() is next *)
| Exited.

(** One production run: the context captured by Stage(ctx), the channel the
    factory made, the goroutine's position and whether it is panicking. *)
Record run : Type := {
  ctx : Context;
  out : chan;
  at_pc : pc;
  panicking : bool
}.

Definition goto (p : pc) (r : run) : run :=
  {| ctx := ctx r; out := out r; at_pc := p; panicking := panicking r |}.

Definition panic (r : run) : run :=
  {| ctx := ctx r; out := out r; at_pc := at_pc r; panicking := true |}.

(** The program around one Ticker value: the ticker all its runs share, the
    clock, the channels made and closed so far, the cancelled contexts, the
    runs, and whether an unrecovered panic has ended the process. *)
Record state : Type := {
  timer : time.Ticker;
  now : time.Time;
  next_chan : chan;
  closed : list chan;
  cancelled : list Context;
  runs : list run;
  crashed : bool
}.

(** The program when NewTicker has returned t. *)
Definition boot (t : Ticker) : state :=
  {| timer := embedded t; now := 0%Z; next_chan := 0; closed := [];
     cancelled := []; runs := []; crashed := false |}.

Definition with_run (i : nat) (r : run) (s : state) : state :=
  {| timer := timer s; now := now s; next_chan := next_chan s;
     closed := closed s; cancelled := cancelled s;
     runs := <[i := r]> (runs s); crashed := crashed s |}.

Definition with_timer (t : time.Ticker) (s : state) : state :=
  {| timer := t; now := now s; next_chan := next_chan s;
     closed := closed s; cancelled := cancelled s;
     runs := runs s; crashed := crashed s |}.

Definition with_closed (c : chan) (s : state) : state :=
  {| timer := timer s; now := now s; next_chan := next_chan s;
     closed := c :: closed s; cancelled := cancelled s;
     runs := runs s; crashed := crashed s |}.

Definition with_crashed (b : bool) (s : state) : state :=
  {| timer := timer s; now := now s; next_chan := next_chan s;
     closed := closed s; cancelled := cancelled s;
     runs := runs s; crashed := b |}.

(** [t.Stage(ctx)()], lines 19 to 38: make the channel, start the goroutine,
    return the channel.  The new run is the last of the list. *)
Definition Stage (c : Context) (s : state) : state * list (event time.Time) :=
  ({| timer := timer s; now := now s; next_chan := S (next_chan s);
      closed := closed s; cancelled := cancelled s;
      runs := runs s ++ [{| ctx := c; out := next_chan s; at_pc := Select;
                            panicking := false |}];
      crashed := crashed s |},
   [EStart (length (runs s)) (next_chan s)]).

(** One step of the goroutine of run i, lines 23 to 35.  A step that cannot
    be taken yet (a receive with nothing to receive, a send nobody takes)
    leaves the state as it is.  Deferred calls run last in, first out:
    close(ch), then t.Stop(); a close of a closed channel panics, and a
    goroutine that ends panicking ends the process. *)
Definition work (i : nat) (r : run) (s : state)
  : state * list (event time.Time) :=
  match at_pc r with
  | Select =>
      if mem (ctx r) (cancelled s)
      then (with_run i (goto DeferClose r) s, [])
      else (with_run i (goto RecvTick r) s, [])
  | RecvTick =>
      match time.take (timer s) with
      | Some (v, t') => (with_timer t' (with_run i (goto (Send v) r) s), [])
      | None => (s, [])
      end
  | Send _ => (s, [])
  | DeferClose =>
      if mem (out r) (closed s)
      then (with_run i (panic (goto DeferStop r)) s, [EPanic i])
      else (with_closed (out r) (with_run i (goto DeferStop r) s),
            [ECloseOut i])
  | DeferStop =>
      (with_crashed (panicking r)
         (with_timer (time.Stop (timer s)) (with_run i (goto Exited r) s)),
       [ERelease i])
  | Exited => (s, [])
  end.

(** The consumer of run i's channel receives: the pending send completes and
    the goroutine is back at the select. *)
Definition take (i : nat) (r : run) (s : state)
  : state * list (event time.Time) :=
  match at_pc r with
  | Send v => (with_run i (goto Select r) s, [EEmit i (Ok (ctx r) v)])
  | _ => (s, [])
  end.

Inductive input : Type :=
| Cancel (c : Context)   (* the cancellation signal of c fires *)
| Fire                   (* the ticker's period elapses *)
| Invoke (c : Context)   (* t.Stage(c)() *)
| Work (i : nat)         (* the goroutine of run i moves *)
| Take (i : nat)         (* the consumer of run i's channel receives *).

(** What an input does to a program that is alive. *)
Definition move (inp : input) (s : state) : state * list (event time.Time) :=
  match inp with
  | Cancel c =>
      ({| timer := timer s; now := now s; next_chan := next_chan s;
          closed := closed s; cancelled := c :: cancelled s;
          runs := runs s; crashed := crashed s |}, [ECancel c])
  | Fire =>
      let now' := (now s + time.period (timer s))%Z in
      ({| timer := time.fire now' (timer s); now := now';
          next_chan := next_chan s; closed := closed s;
          cancelled := cancelled s; runs := runs s;
          crashed := crashed s |}, [])
  | Invoke c => Stage c s
  | Work i =>
      match runs s !! i with
      | Some r => work i r s
      | None => (s, [])
      end
  | Take i =>
      match runs s !! i with
      | Some r => take i r s
      | None => (s, [])
      end
  end.

(** Nothing moves once an unrecovered panic has ended the process. *)
Definition step (inp : input) (s : state) : state * list (event time.Time) :=
  if crashed s then (s, []) else move inp s.

Fixpoint exec (sched : list input) (s : state)
  : state * list (event time.Time) :=
  match sched with
  | [] => (s, [])
  | inp :: rest =>
      let (s1, e1) := step inp s in
      let (s2, e2) := exec rest s1 in
      (s2, e1 ++ e2)
  end.

End Ticker.

(** ** Package net/http, as far as the HTTP trigger uses it *)

Module http.

(** What an [http.Handler] interface value holds. *)
Inductive Handler : Type :=
| Mux (m : nat)        (* a *http.ServeMux, by its address *)
| Trigger (ch : chan)  (* a trigger.Handler{ch} *)
| Other (id : nat)     (* any other implementation *).

(** A ServeMux, by the patterns registered on it. *)
Definition ServeMux : Type := list (string * Handler).

(** The [Handler] field of an [http.Server] (nil when unset). *)
Record Server : Type := { Server_Handler : option Handler }.

(** The ServeMux objects allocated so far, by address, and the number of the
    next channel. *)
Record heap : Type := {
  muxes : list ServeMux;
  next_chan : chan
}.

End http.

(** ** The HTTP trigger *)

Module Http.
Import conduit.

(** [type HttpContext struct]; the zero value has a nil done channel. *)
Record HttpContext : Type := {
  Writer : nat;
  Request : nat;
  done : option chan
}.

Definition zero : HttpContext :=
  {| Writer := 0; Request := 0; done := None |}.

(** [type Http struct { *http.Server; ch chan HttpContext }] *)
Record Http : Type := { Http_ch : chan }.

Section Registration.
(** Whether the Handle method of the ServeMux accepts the pattern on a mux with the
    given registrations; it panics otherwise (invalid pattern, or a conflict
    with a registered one). *)
Variable accepts : http.ServeMux -> string -> bool.

Definition Handle (mux : http.ServeMux) (pattern : string) (h : http.Handler)
  : option http.ServeMux :=
  if accepts mux pattern then Some (mux ++ [(pattern, h)]) else None.

(** [NewHttp(s, pattern)]; the server is passed by pointer, so the updated
    server is part of the result.  [None] is a panic. *)
Definition NewHttp (s : http.Server) (pattern : string) (hp : http.heap)
  : option (Http * http.Server * http.heap) :=
  let ch := http.next_chan hp in
  let h := http.Trigger ch in
  let '(mux, ms) :=
    match http.Server_Handler s with
    | Some (http.Mux existingMux) => (existingMux, http.muxes hp)
    | _ => (length (http.muxes hp), http.muxes hp ++ [ [] ])
    end in
  match ms !! mux with
  | None => None
  | Some registered =>
      match Handle registered pattern h with
      | None => None
      | Some registered' =>
          Some ({| Http_ch := ch |},
                {| http.Server_Handler := Some (http.Mux mux) |},
                {| http.muxes := <[mux := registered']> ms;
                   http.next_chan := S ch |})
      end
  end.

End Registration.

(** Where a goroutine that runs [Handler.ServeHTTP] stands; its done channel
    is made and its close deferred when the goroutine starts. *)
Inductive hpc : Type :=
| HSend      (* waiting in h.ch <- HttpContext{...} *)
| HWait      (* waiting in <-ch *)
| HDefer     (* returning: the deferred close(ch) is next *)
| HReturned
| HPanicked  (* the send found h.ch closed; net/http recovers the panic *).

Record handler : Type := {
  h_req : nat;
  h_done : chan;
  h_at : hpc
}.

Definition hgoto (p : hpc) (h : handler) : handler :=
  {| h_req := h_req h; h_done := h_done h; h_at := p |}.

(** Where the goroutine started by the Stage factory stands. *)
Inductive pc : Type :=
| Select                 (* at the select of the loop *)
| RecvReq                (* default branch, waiting in <-ht.ch *)
| Send (x : HttpContext) (* default branch, waiting in ch <- conduit.Ok(ctx, x) *)
| DeferCloseReq          (* returned: the deferred close(ht.ch) is next *)
| DeferCloseOut          (* the deferred close(ch) is next *)
| DeferServerClose       (* the deferred ht.Close() is next *)
| Exited.

Record run : Type := {
  ctx : Context;
  out : chan;
  at_pc : pc;
  panicking : bool
}.

Definition goto (p : pc) (r : run) : run :=
  {| ctx := ctx r; out := out r; at_pc := p; panicking := panicking r |}.

Definition panic (r : run) : run :=
  {| ctx := ctx r; out := out r; at_pc := at_pc r; panicking := true |}.

(** The program around one Http value: its request channel ht.ch, whether
    its server was closed, the channels made and closed so far, the cancelled
    contexts, the production runs, the handler goroutines, and whether an
    unrecovered panic has ended the process. *)
Record state : Type := {
  req_ch : chan;
  srv_closed : bool;
  next_chan : chan;
  closed : list chan;
  cancelled : list Context;
  runs : list run;
  handlers : list handler;
  crashed : bool
}.

(** The program when NewHttp has returned ht. *)
Definition boot (ht : Http) : state :=
  {| req_ch := Http_ch ht; srv_closed := false; next_chan := S (Http_ch ht);
     closed := []; cancelled := []; runs := []; handlers := [];
     crashed := false |}.

Definition with_run (i : nat) (r : run) (s : state) : state :=
  {| req_ch := req_ch s; srv_closed := srv_closed s;
     next_chan := next_chan s; closed := closed s; cancelled := cancelled s;
     runs := <[i := r]> (runs s); handlers := handlers s;
     crashed := crashed s |}.

Definition with_handler (h : nat) (hd : handler) (s : state) : state :=
  {| req_ch := req_ch s; srv_closed := srv_closed s;
     next_chan := next_chan s; closed := closed s; cancelled := cancelled s;
     runs := runs s; handlers := <[h := hd]> (handlers s);
     crashed := crashed s |}.

Definition with_closed (c : chan) (s : state) : state :=
  {| req_ch := req_ch s; srv_closed := srv_closed s;
     next_chan := next_chan s; closed := c :: closed s;
     cancelled := cancelled s; runs := runs s; handlers := handlers s;
     crashed := crashed s |}.

Definition with_crashed (b : bool) (s : state) : state :=
  {| req_ch := req_ch s; srv_closed := srv_closed s;
     next_chan := next_chan s; closed := closed s; cancelled := cancelled s;
     runs := runs s; handlers := handlers s; crashed := b |}.

Definition with_srv_closed (s : state) : state :=
  {| req_ch := req_ch s; srv_closed := true;
     next_chan := next_chan s; closed := closed s; cancelled := cancelled s;
     runs := runs s; handlers := handlers s; crashed := crashed s |}.

(** [ht.Stage(ctx)()]: make the channel, start the goroutine, return the
    channel.  The new run is the last of the list. *)
Definition Stage (c : Context) (s : state)
  : state * list (event HttpContext) :=
  ({| req_ch := req_ch s; srv_closed := srv_closed s;
      next_chan := S (next_chan s); closed := closed s;
      cancelled := cancelled s;
      runs := runs s ++ [{| ctx := c; out := next_chan s; at_pc := Select;
                            panicking := false |}];
      handlers := handlers s; crashed := crashed s |},
   [EStart (length (runs s)) (next_chan s)]).

(** The server calls [Handler.ServeHTTP] for request r on a goroutine of its
    own, unless it was closed: [ch := make(chan struct{})], and
    [defer close(ch)]. *)
Definition ServeHTTP (r : nat) (s : state)
  : state * list (event HttpContext) :=
  if srv_closed s then (s, [])
  else
    ({| req_ch := req_ch s; srv_closed := srv_closed s;
        next_chan := S (next_chan s); closed := closed s;
        cancelled := cancelled s; runs := runs s;
        handlers := handlers s ++ [{| h_req := r; h_done := next_chan s;
                                      h_at := HSend |}];
        crashed := crashed s |}, []).

(** One step of the goroutine of run i, the go statement of Http.Stage.
    Deferred calls run last in, first out: close(ht.ch), close(ch), then
    ht.Close(); a close of a closed channel panics, the remaining deferred
    calls still run, and a goroutine that ends panicking ends the process.
    A receive from the closed ht.ch yields the zero HttpContext. *)
Definition work (i : nat) (r : run) (s : state)
  : state * list (event HttpContext) :=
  match at_pc r with
  | Select =>
      if mem (ctx r) (cancelled s)
      then (with_run i (goto DeferCloseReq r) s, [])
      else (with_run i (goto RecvReq r) s, [])
  | RecvReq =>
      if mem (req_ch s) (closed s)
      then (with_run i (goto (Send zero) r) s, [])
      else (s, [])
  | Send _ => (s, [])
  | DeferCloseReq =>
      if mem (req_ch s) (closed s)
      then (with_run i (panic (goto DeferCloseOut r)) s, [EPanic i])
      else (with_closed (req_ch s) (with_run i (goto DeferCloseOut r) s), [])
  | DeferCloseOut =>
      if mem (out r) (closed s)
      then (with_run i (panic (goto DeferServerClose r)) s, [EPanic i])
      else (with_closed (out r) (with_run i (goto DeferServerClose r) s),
            [ECloseOut i])
  | DeferServerClose =>
      (with_crashed (panicking r)
         (with_srv_closed (with_run i (goto Exited r) s)),
       [ERelease i])
  | Exited => (s, [])
  end.

(** The consumer of run i's channel receives. *)
Definition take (i : nat) (r : run) (s : state)
  : state * list (event HttpContext) :=
  match at_pc r with
  | Send x => (with_run i (goto Select r) s, [EEmit i (Ok (ctx r) x)])
  | _ => (s, [])
  end.

(** The send of handler h on ht.ch meets the receive of run i. *)
Definition handoff (h i : nat) (s : state)
  : state * list (event HttpContext) :=
  match handlers s !! h, runs s !! i with
  | Some hd, Some r =>
      match h_at hd, at_pc r with
      | HSend, RecvReq =>
          if mem (req_ch s) (closed s) then (s, [])
          else
            (with_handler h (hgoto HWait hd)
               (with_run i
                  (goto (Send {| Writer := h_req hd; Request := h_req hd;
                                 done := Some (h_done hd) |}) r) s),
             [])
      | _, _ => (s, [])
      end
  | _, _ => (s, [])
  end.

(** One step of handler goroutine h on its own. *)
Definition serve (h : nat) (hd : handler) (s : state)
  : state * list (event HttpContext) :=
  match h_at hd with
  | HSend =>
      if mem (req_ch s) (closed s)
      then (with_closed (h_done hd) (with_handler h (hgoto HPanicked hd) s),
            [])
      else (s, [])
  | HWait =>
      if mem (h_done hd) (closed s)
      then (with_handler h (hgoto HDefer hd) s, [])
      else (s, [])
  | HDefer =>
      if mem (h_done hd) (closed s)
      then (with_handler h (hgoto HPanicked hd) s, [])
      else (with_closed (h_done hd) (with_handler h (hgoto HReturned hd) s),
            [])
  | HReturned => (s, [])
  | HPanicked => (s, [])
  end.

(** The first handler that waits in a receive on channel d. *)
Fixpoint waiting_on (d : chan) (hs : list handler) : option nat :=
  match hs with
  | [] => None
  | hd :: hs' =>
      match h_at hd with
      | HWait => if Nat.eqb (h_done hd) d then Some 0
                 else option_map S (waiting_on d hs')
      | _ => option_map S (waiting_on d hs')
      end
  end.

(** [x.Done()], called by a goroutine of the pipeline: a send on x.done.  On
    a nil channel it blocks for ever, on a closed channel it panics (and
    nothing recovers that panic), otherwise it completes when the receiver
    is there. *)
Definition Done (x : HttpContext) (s : state)
  : state * list (event HttpContext) :=
  match done x with
  | None => (s, [])
  | Some d =>
      if mem d (closed s) then (with_crashed true s, [])
      else
        match waiting_on d (handlers s) with
        | Some h =>
            match handlers s !! h with
            | Some hd => (with_handler h (hgoto HDefer hd) s, [EUnblock h])
            | None => (s, [])
            end
        | None => (s, [])
        end
  end.

Inductive input : Type :=
| Cancel (c : Context)       (* the cancellation signal of c fires *)
| Invoke (c : Context)       (* ht.Stage(c)() *)
| Incoming (r : nat)         (* the server dispatches request r *)
| Handoff (h i : nat)        (* handler h hands its wrapper to run i *)
| Work (i : nat)             (* the goroutine of run i moves *)
| Take (i : nat)             (* the consumer of run i's channel receives *)
| Serve (h : nat)            (* handler goroutine h moves *)
| CallDone (x : HttpContext) (* x.Done() *).

(** What an input does to a program that is alive. *)
Definition move (inp : input) (s : state)
  : state * list (event HttpContext) :=
  match inp with
  | Cancel c =>
      ({| req_ch := req_ch s; srv_closed := srv_closed s;
          next_chan := next_chan s; closed := closed s;
          cancelled := c :: cancelled s; runs := runs s;
          handlers := handlers s; crashed := crashed s |}, [ECancel c])
  | Invoke c => Stage c s
  | Incoming r => ServeHTTP r s
  | Handoff h i => handoff h i s
  | Work i =>
      match runs s !! i with
      | Some r => work i r s
      | None => (s, [])
      end
  | Take i =>
      match runs s !! i with
      | Some r => take i r s
      | None => (s, [])
      end
  | Serve h =>
      match handlers s !! h with
      | Some hd => serve h hd s
      | None => (s, [])
      end
  | CallDone x => Done x s
  end.

(** Nothing moves once an unrecovered panic has ended the process. *)
Definition step (inp : input) (s : state)
  : state * list (event HttpContext) :=
  if crashed s then (s, []) else move inp s.

Fixpoint exec (sched : list input) (s : state)
  : state * list (event HttpContext) :=
  match sched with
  | [] => (s, [])
  | inp :: rest =>
      let (s1, e1) := step inp s in
      let (s2, e2) := exec rest s1 in
      (s2, e1 ++ e2)
  end.

End Http.

(** ** Flows used as examples *)

(** A flow over a state that counts the calls of its transforms and keeps
    the errors OnError received. *)
Definition counting_flow
  : @chord.Flow (nat * list error) nat nat :=
  chord.Build_Flow
    (fun _ _ w => (None, w))
    (fun _ e w => (tt, (fst w, snd w ++ [e])))
    (chord.build
       (chord.Then (fun _ v w => ((2 * v, None), (S (fst w), snd w)))
          chord.Last)).

(** A flow that records every call of its terminal handlers. *)
Definition recording_flow
  : @chord.Flow (list (conduit.Result nat)) nat nat :=
  chord.Build_Flow
    (fun ctx v w => (None, w ++ [conduit.Ok ctx v]))
    (fun ctx e w => (tt, w ++ [conduit.Err ctx e]))
    (fun s => s).

(** Whether an event is something run i did. *)
Definition about {T} (i : nat) (e : event T) : bool :=
  match e with
  | EEmit j _ | ECloseOut j | ERelease j | EPanic j => Nat.eqb i j
  | _ => false
  end.

(** The registrations of the mux NewHttp adds its pattern to: those of the
    server's own ServeMux when its Handler is one (none when the pointer is
    nil or dangling), and the empty list of a new mux otherwise. *)
Definition registered_before (s : http.Server) (hp : http.heap)
  : option http.ServeMux :=
  match http.Server_Handler s with
  | Some (http.Mux existing) => http.muxes hp !! existing
  | _ => Some []
  end.

(** A mux that accepts a pattern when it is not empty and not registered
    yet. *)
Definition accepts_new (mux : http.ServeMux) (pattern : string) : bool :=
  negb (String.eqb pattern "") &&
  forallb (fun e => negb (String.eqb (fst e) pattern)) mux.

(** ** Notions used to state the properties of the ticker trigger *)

Module TickerInv.
Import Ticker.

(** Positions at which the goroutine is not inside the default branch. *)
Definition quiet (p : pc) : bool :=
  match p with
  | Select | DeferClose | DeferStop | Exited => true
  | RecvTick | Send _ => false
  end.

(** Whether the deferred close(ch) has run, and whether t.Stop() has. *)
Definition closes (p : pc) : nat :=
  match p with
  | DeferStop | Exited => 1
  | _ => 0
  end.

Definition releases (p : pc) : nat :=
  match p with
  | Exited => 1
  | _ => 0
  end.

(** The steps run i still needs to finish once it has seen the signal. *)
Definition remaining (p : pc) : nat :=
  match p with
  | Select => 3
  | DeferClose => 2
  | DeferStop => 1
  | _ => 0
  end.

Definition closes_of (s : state) (i : nat) : nat :=
  match runs s !! i with
  | Some r => closes (at_pc r)
  | None => 0
  end.

Definition releases_of (s : state) (i : nat) : nat :=
  match runs s !! i with
  | Some r => releases (at_pc r)
  | None => 0
  end.

Definition is_work (i : nat) (inp : input) : bool :=
  match inp with Work j => Nat.eqb i j | _ => false end.

Definition is_invoke (inp : input) : bool :=
  match inp with Invoke _ => true | _ => false end.

Definition run_ok (s : state) (r : run) : Prop :=
  out r < next_chan s /\
  panicking r = false /\
  (mem (out r) (closed s) = true <-> closes (at_pc r) = 1) /\
  (at_pc r = Exited -> time.stopped (timer s) = true).

(** What holds of every state the program reaches: no panic has happened,
    every run has a channel of its own, a channel is closed exactly when the
    deferred close of its run has run, and the ticker is stopped once a run
    has finished. *)
Definition wf (s : state) : Prop :=
  crashed s = false /\
  NoDup (out <$> runs s) /\
  (forall i r, runs s !! i = Some r -> run_ok s r) /\
  (forall c, mem c (closed s) = true -> c < next_chan s).

(** What an invocation of the Stage factory with context c does: it adds
    one run, the last of the list, at its select with context c and a
    channel that no run has and that is not closed, shows its start, and
    leaves the ticker and everything else of the program as it was. *)
Definition starts_run (c : Context) (s s' : state)
  (ev : list (event time.Time)) : Prop :=
  runs s' = runs s ++ [{| ctx := c; out := next_chan s; at_pc := Select;
                          panicking := false |}] /\
  ev = [EStart (length (runs s)) (next_chan s)] /\
  (next_chan s ∉ (out <$> runs s)) /\
  mem (next_chan s) (closed s) = false /\
  timer s' = timer s /\ closed s' = closed s /\
  cancelled s' = cancelled s /\ crashed s' = crashed s.

(** What one step of the program can do to run number i, and what the step
    shows: nothing of run i, or one move of its goroutine. *)
Inductive run_step (i : nat) (s : state)
  : run -> run -> list (event time.Time) -> Prop :=
| rs_stay r ev :
    (forall e, e ∈ ev -> about i e = false) -> run_step i s r r ev
| rs_return r :
    at_pc r = Select -> mem (ctx r) (cancelled s) = true ->
    run_step i s r (goto DeferClose r) []
| rs_default r :
    at_pc r = Select -> mem (ctx r) (cancelled s) = false ->
    run_step i s r (goto RecvTick r) []
| rs_tick r v :
    at_pc r = RecvTick -> run_step i s r (goto (Send v) r) []
| rs_emit r v :
    at_pc r = Send v ->
    run_step i s r (goto Select r) [EEmit i (conduit.Ok (ctx r) v)]
| rs_close r :
    at_pc r = DeferClose -> mem (out r) (closed s) = false ->
    run_step i s r (goto DeferStop r) [ECloseOut i]
| rs_close_panic r :
    at_pc r = DeferClose -> mem (out r) (closed s) = true ->
    run_step i s r (panic (goto DeferStop r)) [EPanic i]
| rs_stop r :
    at_pc r = DeferStop -> run_step i s r (goto Exited r) [ERelease i].

End TickerInv.

(** ** Notions used to state the properties of the HTTP trigger *)

Module HttpInv.
Import Http.

(** Positions at which the goroutine is not inside the default branch. *)
Definition quiet (p : pc) : bool :=
  match p with
  | RecvReq | Send _ => false
  | _ => true
  end.

(** Whether the deferred close(ht.ch) has run, whether close(ch) has, and
    whether ht.Close() has. *)
Definition past_req (p : pc) : bool :=
  match p with
  | DeferCloseOut | DeferServerClose | Exited => true
  | _ => false
  end.

Definition closes (p : pc) : nat :=
  match p with
  | DeferServerClose | Exited => 1
  | _ => 0
  end.

Definition releases (p : pc) : nat :=
  match p with
  | Exited => 1
  | _ => 0
  end.

(** Whether the handler's deferred close of its done channel has run. *)
Definition done_closed (p : hpc) : bool :=
  match p with
  | HReturned | HPanicked => true
  | _ => false
  end.

Definition closes_of (s : state) (i : nat) : nat :=
  match runs s !! i with
  | Some r => closes (at_pc r)
  | None => 0
  end.

Definition releases_of (s : state) (i : nat) : nat :=
  match runs s !! i with
  | Some r => releases (at_pc r)
  | None => 0
  end.

Definition is_invoke (inp : input) : bool :=
  match inp with Invoke _ => true | _ => false end.

(** The channels the program has made. *)
Definition chans (s : state) : list chan :=
  req_ch s :: (out <$> runs s) ++ (h_done <$> handlers s).

(** What holds of every state the program reaches: the channels are all
    different, an output channel is closed exactly when the deferred close of
    its run has run, and a done channel exactly when its handler's has. *)
Definition wf (s : state) : Prop :=
  NoDup (chans s) /\
  (forall c, c ∈ chans s -> c < next_chan s) /\
  (forall c, mem c (closed s) = true -> c < next_chan s) /\
  (forall i r, runs s !! i = Some r ->
     (mem (out r) (closed s) = true <-> closes (at_pc r) = 1)) /\
  (forall h hd, handlers s !! h = Some hd ->
     (mem (h_done hd) (closed s) = true <-> done_closed (h_at hd) = true)).

(** What holds in addition as long as the Stage factory has been invoked at
    most once: only that run can have closed ht.ch, and it has not
    panicked. *)
Definition calm (s : state) : Prop :=
  length (runs s) <= 1 /\
  (forall i r, runs s !! i = Some r ->
     panicking r = false /\
     (mem (req_ch s) (closed s) = true <-> past_req (at_pc r) = true)) /\
  (runs s = [] -> mem (req_ch s) (closed s) = false).

(** What an invocation of the Stage factory with context c does: it adds
    one run, the last of the list, at its select with context c and a
    channel that differs from ht.ch, from the channel of every run and from
    every done channel and that is not closed, shows its start, and leaves
    ht.ch, the server, the handlers and everything else of the program as
    they were. *)
Definition starts_run (c : Context) (s s' : state)
  (ev : list (event HttpContext)) : Prop :=
  runs s' = runs s ++ [{| ctx := c; out := next_chan s; at_pc := Select;
                          panicking := false |}] /\
  ev = [EStart (length (runs s)) (next_chan s)] /\
  (next_chan s ∉ chans s) /\
  mem (next_chan s) (closed s) = false /\
  req_ch s' = req_ch s /\ srv_closed s' = srv_closed s /\
  handlers s' = handlers s /\ closed s' = closed s /\
  cancelled s' = cancelled s /\ crashed s' = crashed s.

(** What one step of the program can do to run number i, and what the step
    shows: nothing of run i, or one move of its goroutine. *)
Inductive run_step (i : nat) (s : state)
  : run -> run -> list (event HttpContext) -> Prop :=
| rs_stay r ev :
    (forall e, e ∈ ev -> about i e = false) -> run_step i s r r ev
| rs_return r :
    at_pc r = Select -> mem (ctx r) (cancelled s) = true ->
    run_step i s r (goto DeferCloseReq r) []
| rs_default r :
    at_pc r = Select -> mem (ctx r) (cancelled s) = false ->
    run_step i s r (goto RecvReq r) []
| rs_request r x :
    at_pc r = RecvReq -> run_step i s r (goto (Send x) r) []
| rs_emit r x :
    at_pc r = Send x ->
    run_step i s r (goto Select r) [EEmit i (conduit.Ok (ctx r) x)]
| rs_close_req r :
    at_pc r = DeferCloseReq -> mem (req_ch s) (closed s) = false ->
    run_step i s r (goto DeferCloseOut r) []
| rs_close_req_panic r :
    at_pc r = DeferCloseReq -> mem (req_ch s) (closed s) = true ->
    run_step i s r (panic (goto DeferCloseOut r)) [EPanic i]
| rs_close r :
    at_pc r = DeferCloseOut -> mem (out r) (closed s) = false ->
    run_step i s r (goto DeferServerClose r) [ECloseOut i]
| rs_close_panic r :
    at_pc r = DeferCloseOut -> mem (out r) (closed s) = true ->
    run_step i s r (panic (goto DeferServerClose r)) [EPanic i]
| rs_server_close r :
    at_pc r = DeferServerClose ->
    run_step i s r (goto Exited r) [ERelease i].

End HttpInv.


(** ** Further notions about traces *)

Definition is_any_emit {T} (e : event T) : bool :=
  match e with EEmit _ _ => true | _ => false end.

Definition is_unblock {T} (h : nat) (e : event T) : bool :=
  match e with EUnblock j => Nat.eqb h j | _ => false end.

(** No event that satisfies b comes after one that satisfies a; [seen] says
    whether an a has been passed already. *)
Fixpoint none_after {A} (a b : A -> bool) (seen : bool) (tr : list A) : bool :=
  match tr with
  | [] => true
  | e :: tr' =>
      (if b e then negb seen else true) && none_after a b (seen || a e) tr'
  end.

(** ** Further notions about the ticker trigger *)

Module TickerObs.
Import Ticker.

Definition is_fire (inp : input) : bool :=
  match inp with Fire => true | _ => false end.

(** Whether the goroutine has left its loop. *)
Definition returned (p : pc) : bool :=
  match p with
  | DeferClose | DeferStop | Exited => true
  | _ => false
  end.

(** Whether the goroutine has taken a tick from t.C that it has not handed
    on yet. *)
Definition holds_tick (r : run) : nat :=
  match at_pc r with Send _ => 1 | _ => 0 end.

(** The ticks that were taken from t.C and wait to be handed on. *)
Fixpoint in_hand (rs : list run) : nat :=
  match rs with
  | [] => 0
  | r :: rs' => holds_tick r + in_hand rs'
  end.

(** The ticks that can still be emitted without the ticker firing again:
    the one in the buffer of t.C and those in hand. *)
Definition pending (s : state) : nat :=
  (match time.C (timer s) with Some _ => 1 | None => 0 end)
  + in_hand (runs s).

(** A goroutine has left its loop only if the cancellation signal of its
    context has fired. *)
Definition left_on_cancel (s : state) : Prop :=
  forall i r, runs s !! i = Some r -> returned (at_pc r) = true ->
              mem (ctx r) (cancelled s) = true.

End TickerObs.

(** ** Further notions about the HTTP trigger *)

Module HttpObs.
Import Http.

(** The wrapper [ServeHTTP] sends for its request. *)
Definition wrap (hd : handler) : HttpContext :=
  {| Writer := h_req hd; Request := h_req hd; done := Some (h_done hd) |}.

(** Whether the goroutine has left its loop. *)
Definition returned (p : pc) : bool :=
  match p with
  | DeferCloseReq | DeferCloseOut | DeferServerClose | Exited => true
  | _ => false
  end.

(** The steps run i still needs to finish once it has seen the signal. *)
Definition remaining (p : pc) : nat :=
  match p with
  | Select => 4
  | DeferCloseReq => 3
  | DeferCloseOut => 2
  | DeferServerClose => 1
  | _ => 0
  end.

Definition is_work (i : nat) (inp : input) : bool :=
  match inp with Work j => Nat.eqb i j | _ => false end.

(** Whether the input hands a request to run i. *)
Definition is_handoff_to (i : nat) (inp : input) : bool :=
  match inp with Handoff _ j => Nat.eqb i j | _ => false end.

(** What the deferred calls a goroutine has run so far have left behind:
    ht.ch closed, the output channel closed, the server closed. *)
Definition cleaned (s : state) (r : run) : Prop :=
  (HttpInv.past_req (at_pc r) = true ->
   mem (req_ch s) (closed s) = true) /\
  (HttpInv.closes (at_pc r) = 1 -> mem (out r) (closed s) = true) /\
  (at_pc r = Exited -> srv_closed s = true).

(** What holds of the runs of one Http value that have got past their
    deferred close(ht.ch): the channel is closed, of any two of them one is
    panicking, and a run that exited panicking has ended the process. *)
Definition shut_once (s : state) : Prop :=
  (forall i r, runs s !! i = Some r ->
     HttpInv.past_req (at_pc r) = true ->
     mem (req_ch s) (closed s) = true) /\
  (forall i j ri rj, i <> j ->
     runs s !! i = Some ri -> runs s !! j = Some rj ->
     HttpInv.past_req (at_pc ri) = true ->
     HttpInv.past_req (at_pc rj) = true ->
     panicking ri = true \/ panicking rj = true) /\
  (forall i r, runs s !! i = Some r ->
     at_pc r = Exited -> panicking r = true -> crashed s = true).

(** Whether the handler has received on its done channel. *)
Definition unblocked (p : hpc) : nat :=
  match p with
  | HDefer | HReturned => 1
  | _ => 0
  end.

Definition unblocked_of (s : state) (h : nat) : nat :=
  match handlers s !! h with
  | Some hd => unblocked (h_at hd)
  | None => 0
  end.

(** Whether the handler has handed its wrapper to a run. *)
Definition handed_over (p : hpc) : nat :=
  match p with
  | HWait | HDefer | HReturned => 1
  | _ => 0
  end.

Definition handed_of (s : state) (h : nat) : nat :=
  match handlers s !! h with
  | Some hd => handed_over (h_at hd)
  | None => 0
  end.

(** Where a value received from ht.ch comes from: it is the zero value,
    which a receive from the closed channel yields, or the wrapper of a
    handler. *)
Definition from_ht_ch (s : state) (x : HttpContext) : Prop :=
  (x = zero /\ mem (req_ch s) (closed s) = true) \/
  (exists h hd, handlers s !! h = Some hd /\ x = wrap hd).

(** The value a run holds for its consumer was received from ht.ch. *)
Definition held (s : state) : Prop :=
  forall i r x, runs s !! i = Some r -> at_pc r = Send x -> from_ht_ch s x.

(** The consumer of run i receives n values, the goroutine taking its two
    steps round the loop before each. *)
Fixpoint poll (i n : nat) : list input :=
  match n with
  | 0 => []
  | S n' => Work i :: Work i :: Take i :: poll i n'
  end.

(** Whether the Outcome carries the wrapper with done channel d. *)
Definition carries (d : chan) (x : HttpContext) : bool :=
  match done x with
  | Some d' => Nat.eqb d d'
  | None => false
  end.

Definition is_emit_of (d : chan) (e : event HttpContext) : bool :=
  match e with
  | EEmit _ (conduit.Ok _ x) => carries d x
  | _ => false
  end.

(** Whether the run holds the wrapper with done channel d, taken from ht.ch
    and not handed on yet, and how many runs do. *)
Definition holds (d : chan) (r : run) : nat :=
  match at_pc r with
  | Send x => if carries d x then 1 else 0
  | _ => 0
  end.

Fixpoint holding (d : chan) (rs : list run) : nat :=
  match rs with
  | [] => 0
  | r :: rs' => holds d r + holding d rs'
  end.

(** Whether the handler made done channel d and has handed its wrapper
    over, and how many handlers have. *)
Definition handed1 (d : chan) (hd : handler) : nat :=
  if Nat.eqb d (h_done hd) then handed_over (h_at hd) else 0.

Fixpoint handed (d : chan) (hs : list handler) : nat :=
  match hs with
  | [] => 0
  | hd :: hs' => handed1 d hd + handed d hs'
  end.

(** What one step of the program can do to handler number h, and what the
    step shows of it. *)
Inductive handler_step (h : nat) (s : state)
  : handler -> handler -> list (event HttpContext) -> Prop :=
| hs_stay hd ev :
    (forall e, e ∈ ev -> is_unblock h e = false) ->
    handler_step h s hd hd ev
| hs_handoff hd :
    h_at hd = HSend -> mem (req_ch s) (closed s) = false ->
    handler_step h s hd (hgoto HWait hd) []
| hs_send_panic hd :
    h_at hd = HSend -> mem (req_ch s) (closed s) = true ->
    handler_step h s hd (hgoto HPanicked hd) []
| hs_done hd :
    h_at hd = HWait -> mem (h_done hd) (closed s) = false ->
    handler_step h s hd (hgoto HDefer hd) [EUnblock h]
| hs_wake hd :
    h_at hd = HWait -> mem (h_done hd) (closed s) = true ->
    handler_step h s hd (hgoto HDefer hd) []
| hs_return hd :
    h_at hd = HDefer -> mem (h_done hd) (closed s) = false ->
    handler_step h s hd (hgoto HReturned hd) []
| hs_close_panic hd :
    h_at hd = HDefer -> mem (h_done hd) (closed s) = true ->
    handler_step h s hd (hgoto HPanicked hd) [].

(** A goroutine has left its loop only if the cancellation signal of its
    context has fired. *)
Definition left_on_cancel (s : state) : Prop :=
  forall i r, runs s !! i = Some r -> returned (at_pc r) = true ->
              mem (ctx r) (cancelled s) = true.

End HttpObs.

(** * Properties *)

(** ** The pipeline: NewStage and RunFlow *)

Section PipelineFacts.
Import conduit chord.
Context {W : Type}.

Lemma worker_lookup {In Out} (fn : @Transform W In Out) (up : Chan In) :
  forall n recv,
    up !! n = Some recv -> worker fn up !! n = Some (bind recv (relay fn)).
Proof.
  induction up as [|r up IH]; intros [|n] recv H; simpl in *;
    try discriminate.
  - now inversion H.
  - now apply IH.
Qed.

Lemma worker_length {In Out} (fn : @Transform W In Out) (up : Chan In) :
  length (worker fn up) = length up.
Proof. induction up; simpl; auto. Qed.

Lemma NewStage_run {In Out} (s : @Stage W In) (fn : Transform In Out) w0 up w1 :
  s w0 = (up, w1) -> NewStage s fn w0 = (worker fn up, w1).
Proof.
  intros Hs. unfold NewStage, NewProducerConsumer, bind. now rewrite Hs.
Qed.

Lemma build_run {A C} (c : @Chain W A C) :
  forall (s : Stage A) w0 up w1,
    s w0 = (up, w1) -> build c s w0 = (through c up, w1).
Proof.
  induction c as [A|A B C fn rest IH]; intros s w0 up w1 Hs; simpl.
  - exact Hs.
  - apply IH. now apply NewStage_run.
Qed.

(** A failure passes one worker unchanged, and leaves the state as the
    delivery that brought it left it. *)
Lemma relay_failure {In Out} (fn : @Transform W In Out) recv w ctx e w' :
  recv w = (Err ctx e, w') -> bind recv (relay fn) w = (Err ctx e, w').
Proof. intros H. unfold bind. now rewrite H. Qed.

Lemma through_failure {B C} (c : @Chain W B C) :
  forall (ch : Chan B) n recv w ctx e w',
    ch !! n = Some recv -> recv w = (Err ctx e, w') ->
    exists last, through c ch !! n = Some last /\ last w = (Err ctx e, w').
Proof.
  induction c as [A|A B C fn rest IH]; intros ch n recv w ctx e w' Hn Hr;
    simpl.
  - eauto.
  - apply (IH (worker fn ch) n (bind recv (relay fn)) w ctx e w').
    + now apply worker_lookup.
    + now apply relay_failure.
Qed.

Lemma drain_fold {Out} onS onE (ch : @Chan W Out) :
  forall w,
    drain onS onE ch w =
    (tt, fold_left (fun w recv => snd (bind recv (dispatch onS onE) w)) ch w).
Proof.
  induction ch as [|recv ch IH]; intros w; simpl.
  - reflexivity.
  - unfold bind at 1.
    destruct (bind recv (dispatch onS onE) w) as [u w'] eqn:E. simpl.
    apply IH.
Qed.

End PipelineFacts.

(** C1.  A stage built with NewStage relays a failure it has read without
    running its transform: the failure goes out as it came in and the state
    is as the read left it, whatever fn is.  Hence when the n-th Outcome
    that leaves the stage is a failure (forwarded, or made from an error fn
    returned), the n-th delivery at the end of every chain of later stages
    is that same failure, with the state untouched by the later transforms,
    and the driver hands it to OnError. *)
Theorem failure_short_circuits :
  forall (W A B C : Type) (s : @chord.Stage W A)
         (fn : @conduit.Transform W A B) (rest : @chord.Chain W B C)
         (f : @chord.Flow W A C) (w0 : W) up w1 n recv w ctx e w',
    s w0 = (up, w1) ->
    up !! n = Some recv ->
    conduit.bind recv (conduit.relay fn) w = (conduit.Err ctx e, w') ->
    (forall c0 e0 w2,
        conduit.relay fn (conduit.Err c0 e0) w2 = (conduit.Err c0 e0, w2)) /\
    chord.NewStage s fn w0 = (conduit.worker fn up, w1) /\
    conduit.worker fn up !! n = Some (conduit.bind recv (conduit.relay fn)) /\
    chord.build (chord.Then fn rest) s w0
      = (chord.through rest (conduit.worker fn up), w1) /\
    exists last,
      chord.through rest (conduit.worker fn up) !! n = Some last /\
      last w = (conduit.Err ctx e, w') /\
      chord.handle f w last = snd (chord.OnError f ctx e w').
Proof.
  intros W A B C s fn rest f w0 up w1 n recv w ctx e w' Hs Hn Hfail.
  split; [reflexivity|].
  split; [now apply NewStage_run|].
  split; [now apply worker_lookup|].
  split; [now apply (build_run (chord.Then fn rest))|].
  destruct (through_failure rest (conduit.worker fn up) n
              (conduit.bind recv (conduit.relay fn)) w ctx e w')
    as [last [Hl Hw]]; auto.
  { now apply worker_lookup. }
  exists last. repeat split; auto.
  unfold chord.handle, conduit.bind. rewrite Hw. reflexivity.
Qed.


Lemma failure_short_circuits_witness :
  exists last,
    chord.through
      (chord.Then (fun _ v w => ((v + 1, None), (S (fst w), snd w)))
         chord.Last)
      (conduit.worker
         (fun _ v (w : nat * list error) =>
            ((v, if Nat.eqb v 0 then Some "zero"%string else None),
             (S (fst w), snd w)))
         [conduit.ret (conduit.Ok 1 0)]) !! 0 = Some last /\
    last (0, []) = (conduit.Err 1 "zero"%string, (1, [])) /\
    chord.handle counting_flow (0, []) last = (1, ["zero"%string]).
Proof.
  exact (proj2 (proj2 (proj2 (proj2
    (failure_short_circuits (nat * list error) nat nat nat
       (stage_of [conduit.Ok 1 0])
       (fun _ v w =>
          ((v, if Nat.eqb v 0 then Some "zero"%string else None),
           (S (fst w), snd w)))
       (chord.Then (fun _ v w => ((v + 1, None), (S (fst w), snd w)))
          chord.Last)
       counting_flow (0, []) [conduit.ret (conduit.Ok 1 0)] (0, []) 0
       (conduit.ret (conduit.Ok 1 0)) (0, []) 1 "zero"%string (1, [])
       eq_refl eq_refl eq_refl))))).
Defined.

(** C2.  RunFlow calls Pipeline on the input Stage, invokes the resulting
    factory once, and then hands the deliveries of the channel, first to
    last, to the terminal handlers: a success to OnSuccess, a failure to
    OnError, one after the other on the caller's own state; it returns when
    the channel is closed. *)
Theorem RunFlow_drains_in_order :
  forall (W In Out : Type) (s : @chord.Stage W In)
         (f : @chord.Flow W In Out) (w0 : W) ch w1,
    chord.Pipeline f s w0 = (ch, w1) ->
    chord.RunFlow s f w0 = (tt, fold_left (chord.handle f) ch w1) /\
    (forall w ctx v,
        chord.handle f w (conduit.ret (conduit.Ok ctx v))
        = snd (chord.OnSuccess f ctx v w)) /\
    (forall w ctx e,
        chord.handle f w (conduit.ret (conduit.Err ctx e))
        = snd (chord.OnError f ctx e w)).
Proof.
  intros W In Out s f w0 ch w1 Hp. split; [|split].
  - unfold chord.RunFlow, conduit.NewConsumer.
    unfold conduit.bind at 1. rewrite Hp. apply drain_fold.
  - intros w ctx v. unfold chord.handle, conduit.bind, conduit.ret. simpl.
    unfold conduit.bind, conduit.ret.
    now destruct (chord.OnSuccess f ctx v w).
  - intros w ctx e. reflexivity.
Qed.


Lemma RunFlow_drains_in_order_witness :
  chord.RunFlow
    (stage_of [conduit.Ok 1 5; conduit.Err 1 "bad"%string; conduit.Ok 2 7])
    recording_flow []
  = (tt, [conduit.Ok 1 5; conduit.Err 1 "bad"%string; conduit.Ok 2 7]).
Proof.
  exact (proj1
    (RunFlow_drains_in_order (list (conduit.Result nat)) nat nat
       (stage_of [conduit.Ok 1 5; conduit.Err 1 "bad"%string; conduit.Ok 2 7])
       recording_flow []
       (map conduit.ret
          [conduit.Ok 1 5; conduit.Err 1 "bad"%string; conduit.Ok 2 7])
       [] eq_refl)).
Defined.

(** C3.  When the Outcome a stage built with NewStage reads is a success,
    the transform is called with the context and the value of that Outcome,
    on the state the read left; the stage's delivery is a failure with the
    returned error when there is one, and otherwise a success with the
    transformed value, in both cases under the same context. *)
Theorem success_is_transformed :
  forall (W In Out : Type) (s : @chord.Stage W In)
         (fn : @conduit.Transform W In Out) (w0 : W) up w1 n recv
         w ctx v w' out oe w'',
    s w0 = (up, w1) ->
    up !! n = Some recv ->
    recv w = (conduit.Ok ctx v, w') ->
    fn ctx v w' = ((out, oe), w'') ->
    exists recv',
      fst (chord.NewStage s fn w0) !! n = Some recv' /\
      recv' w = (match oe with
                 | Some e => conduit.Err ctx e
                 | None => conduit.Ok ctx out
                 end, w'').
Proof.
  intros W In Out s fn w0 up w1 n recv w ctx v w' out oe w'' Hs Hn Hr Hf.
  exists (conduit.bind recv (conduit.relay fn)). split.
  - rewrite (NewStage_run s fn w0 up w1 Hs). simpl. now apply worker_lookup.
  - unfold conduit.bind at 1. rewrite Hr. simpl.
    unfold conduit.bind. rewrite Hf. simpl. now destruct oe.
Qed.

Lemma success_is_transformed_witness :
  exists recv',
    fst (chord.NewStage (stage_of [conduit.Ok 3 (-5)%Z])
           (fun _ v (w : nat) =>
              ((v, if (v <? 0)%Z then Some "negative value"%string else None),
               S w)) 0) !! 0 = Some recv' /\
    recv' 0 = (conduit.Err 3 "negative value"%string, 1).
Proof.
  exact (success_is_transformed nat Z Z (stage_of [conduit.Ok 3 (-5)%Z])
           (fun _ v (w : nat) =>
              ((v, if (v <? 0)%Z then Some "negative value"%string else None),
               S w))
           0 [conduit.ret (conduit.Ok 3 (-5)%Z)] 0 0
           (conduit.ret (conduit.Ok 3 (-5)%Z)) 0 3 (-5)%Z 0 (-5)%Z
           (Some "negative value"%string) 1
           eq_refl eq_refl eq_refl eq_refl).
Defined.

(** ** Lists of channels and of goroutines *)

Lemma mem_cons x y l :
  mem x (y :: l) = true <-> x = y \/ mem x l = true.
Proof.
  simpl. destruct (Nat.eqb_spec x y); split; auto.
  intros [?|?]; [contradiction|assumption].
Qed.

Lemma insert_lookup_cases {A} (l : list A) j x x' i y :
  l !! j = Some x -> <[j := x']> l !! i = Some y ->
  (i = j /\ y = x') \/ (i <> j /\ l !! i = Some y).
Proof.
  intros Hj H. destruct (decide (i = j)) as [->|Hne].
  - rewrite list_lookup_insert_eq in H by (eapply lookup_lt_Some; eauto).
    left. split; congruence.
  - rewrite list_lookup_insert_ne in H by auto. now right.
Qed.

(** ** Traces *)

Lemma count_app {A} (p : A -> bool) (a b : list A) :
  count p (a ++ b) = count p a + count p b.
Proof. induction a as [|x a IH]; simpl; [reflexivity|]. rewrite IH. lia. Qed.

Lemma count_absent {T} (p : event T -> bool) i (ev : list (event T)) :
  (forall e, p e = true -> about i e = true) ->
  (forall e, e ∈ ev -> about i e = false) ->
  count p ev = 0.
Proof.
  intros Hp. induction ev as [|e ev IH]; intros Hev; simpl; [reflexivity|].
  rewrite IH by (intros e' He'; apply Hev; now right).
  destruct (p e) eqn:E; [|reflexivity].
  apply Hp in E. rewrite (Hev e) in E by now left. discriminate.
Qed.

Lemma emit_about {T} i (e : event T) : is_emit i e = true -> about i e = true.
Proof. now destruct e. Qed.

Lemma close_about {T} i (e : event T) : is_close i e = true -> about i e = true.
Proof. now destruct e. Qed.

Lemma release_about {T} i (e : event T) :
  is_release i e = true -> about i e = true.
Proof. now destruct e. Qed.

Lemma emitted_length {T} i (tr : list (event T)) :
  length (emitted i tr) = count (is_emit i) tr.
Proof.
  induction tr as [|e tr IH]; simpl; [reflexivity|].
  destruct e; simpl; auto. destruct (i =? i0); simpl; auto.
Qed.

Lemma emitted_none {T} i (tr : list (event T)) :
  count (is_emit i) tr = 0 -> emitted i tr = [].
Proof.
  intros H. rewrite <- emitted_length in H. now destruct (emitted i tr).
Qed.

Lemma emitted_app {T} i (a b : list (event T)) :
  emitted i (a ++ b) = emitted i a ++ emitted i b.
Proof.
  induction a as [|e a IH]; simpl; [reflexivity|].
  destruct e; simpl; auto. destruct (i =? i0); simpl; auto. now rewrite IH.
Qed.

Lemma precedes_app {A} (a b : A -> bool) (x y : list A) :
  forall seen,
    precedes a b seen (x ++ y) =
    precedes a b seen x && precedes a b (seen || (0 <? count a x)) y.
Proof.
  induction x as [|e x IH]; intros seen; simpl.
  - now rewrite orb_false_r.
  - rewrite IH, andb_assoc.
    destruct (a e); simpl; rewrite ?orb_true_r, ?orb_false_r; reflexivity.
Qed.

Lemma precedes_absent {T} (a b : event T -> bool) i ev seen :
  (forall e, b e = true -> about i e = true) ->
  (forall e, e ∈ ev -> about i e = false) ->
  precedes a b seen ev = true.
Proof.
  intros Hb. revert seen.
  induction ev as [|e ev IH]; intros seen Hev; simpl; [reflexivity|].
  rewrite IH by (intros e' He'; apply Hev; now right).
  destruct (b e) eqn:E; [|reflexivity].
  apply Hb in E. rewrite (Hev e) in E by now left. discriminate.
Qed.

(** ** The ticker trigger *)

Module TickerFacts.
Import conduit Ticker TickerInv.

Lemma ticker_exec_app a b s :
  exec (a ++ b) s =
  let (s1, t1) := exec a s in
  let (s2, t2) := exec b s1 in (s2, t1 ++ t2).
Proof.
  revert s. induction a as [|inp a IH]; intros s; simpl.
  - now destruct (exec b s).
  - destruct (step inp s) as [s1 e1]. rewrite IH.
    destruct (exec a s1) as [s2 e2]. destruct (exec b s2) as [s3 e3].
    now rewrite app_assoc.
Qed.

Lemma ticker_outs_insert (rs : list run) j r r' :
  rs !! j = Some r -> out r' = out r -> out <$> <[j := r']> rs = out <$> rs.
Proof.
  intros Hj Ho. rewrite list_fmap_insert. apply list_insert_id.
  rewrite list_lookup_fmap, Hj. simpl. now rewrite Ho.
Qed.

Lemma ticker_outs_distinct (rs : list run) i j r r' :
  NoDup (out <$> rs) -> rs !! i = Some r -> rs !! j = Some r' ->
  out r = out r' -> i = j.
Proof.
  intros Hnd Hi Hj Ho.
  eapply NoDup_lookup; [exact Hnd| |].
  - rewrite list_lookup_fmap, Hi. reflexivity.
  - rewrite list_lookup_fmap, Hj. simpl. now rewrite Ho.
Qed.

Ltac step_cases H :=
  unfold step in H;
  match type of H with
  | (if crashed ?s then _ else move ?inp _) = _ =>
      destruct (crashed s) eqn:Hcrashed;
      [ inversion H; subst; clear H
      | unfold move in H;
        destruct inp as [?c| |?c|?j|?j];
        [ inversion H; subst; clear H
        | inversion H; subst; clear H
        | unfold Stage in H; inversion H; subst; clear H
        | destruct (runs s !! j) as [?rj|] eqn:Hj;
          [ unfold work in H; destruct (at_pc rj) eqn:Hpc;
            repeat match type of H with
              | context [if ?b then _ else _] => destruct b eqn:Hif
              | context [match time.take ?t with _ => _ end] =>
                  destruct (time.take t) as [[? ?]|] eqn:Htick
              end;
            inversion H; subst; clear H
          | inversion H; subst; clear H ]
        | destruct (runs s !! j) as [?rj|] eqn:Hj;
          [ unfold take in H; destruct (at_pc rj) eqn:Hpc;
            inversion H; subst; clear H
          | inversion H; subst; clear H ] ] ]
  end.

Ltac wf_split := unfold wf; simpl; split; [|split; [|split]].

Lemma ticker_wf_with_run s j rj r' :
  wf s -> runs s !! j = Some rj ->
  out r' = out rj -> panicking r' = false ->
  closes (at_pc r') = closes (at_pc rj) ->
  (at_pc r' = Exited -> at_pc rj = Exited) ->
  wf (with_run j r' s).
Proof.
  intros (Hc & Hnd & Hok & Hcl) Hj Ho Hp Heq Hex.
  wf_split; auto.
  - now rewrite (ticker_outs_insert _ _ rj).
  - intros i r H.
    destruct (insert_lookup_cases _ _ _ _ _ _ Hj H) as [[-> ->]|[Hne Hi]].
    + destruct (Hok j rj Hj) as (H1 & H2 & H3 & H4).
      unfold run_ok; simpl. rewrite Ho, Heq. repeat split; auto; try tauto.
    + exact (Hok i r Hi).
Qed.

Lemma wf_with_timer t s :
  wf s -> (time.stopped (timer s) = true -> time.stopped t = true) ->
  wf (with_timer t s).
Proof.
  intros (Hc & Hnd & Hok & Hcl) Ht.
  wf_split; auto.
  intros i r H. destruct (Hok i r H) as (H1 & H2 & H3 & H4).
  unfold run_ok; simpl. repeat split; auto; tauto.
Qed.

Lemma wf_close s j rj :
  wf s -> runs s !! j = Some rj -> at_pc rj = DeferClose ->
  wf (with_closed (out rj) (with_run j (goto DeferStop rj) s)).
Proof.
  intros (Hc & Hnd & Hok & Hcl) Hj Hpc.
  wf_split; auto.
  - now rewrite (ticker_outs_insert _ _ rj).
  - intros i r H.
    destruct (insert_lookup_cases _ _ _ _ _ _ Hj H) as [[-> ->]|[Hne Hi]].
    + destruct (Hok j rj Hj) as (H1 & H2 & H3 & H4).
      unfold run_ok; simpl. repeat split; auto; try discriminate.
      intros _. rewrite Nat.eqb_refl. reflexivity.
    + destruct (Hok i r Hi) as (H1 & H2 & H3 & H4).
      unfold run_ok; simpl. repeat split; auto.
      * intros Hm. apply H3.
        destruct (Nat.eqb_spec (out r) (out rj)) as [Heq|]; auto.
        exfalso. apply Hne. eapply (ticker_outs_distinct (runs s)); eauto.
      * intros Hx. apply H3 in Hx. rewrite Hx. now destruct (_ =? _).
  - intros c Hm. apply mem_cons in Hm. destruct Hm as [->|Hm]; auto.
    now apply (Hok j rj).
Qed.

Lemma ticker_wf_invoke s c :
  wf s ->
  wf {| timer := timer s; now := now s; next_chan := S (next_chan s);
        closed := closed s; cancelled := cancelled s;
        runs := runs s ++ [{| ctx := c; out := next_chan s; at_pc := Select;
                              panicking := false |}];
        crashed := crashed s |}.
Proof.
  intros (Hc & Hnd & Hok & Hcl).
  unfold wf; simpl. split; [auto|]. split; [|split].
  - rewrite fmap_app. simpl. apply NoDup_app. repeat split; auto.
    + intros x Hx Hx'. apply list_elem_of_singleton in Hx'. subst.
      apply list_elem_of_fmap in Hx. destruct Hx as (r & Ho & Hr).
      apply list_elem_of_lookup in Hr. destruct Hr as [i Hi].
      destruct (Hok i r Hi) as (Hlt & _). lia.
    + apply NoDup_singleton.
  - intros i r Hi. apply lookup_snoc_Some in Hi.
    destruct Hi as [[_ Hi]|[_ <-]].
    + destruct (Hok i r Hi) as (? & ? & ? & ?).
      unfold run_ok; simpl. repeat split; auto; tauto.
    + unfold run_ok; simpl. repeat split; auto; try discriminate.
      intros Hm. apply Hcl in Hm. lia.
  - intros ch Hm. apply Hcl in Hm. lia.
Qed.

Lemma run_not_panicking s j rj :
  wf s -> runs s !! j = Some rj -> panicking rj = false.
Proof.
  intros (_ & _ & Hok & _) Hj. now destruct (Hok j rj Hj) as (_ & ? & _).
Qed.

Lemma run_not_closed s j rj :
  wf s -> runs s !! j = Some rj -> closes (at_pc rj) = 0 ->
  mem (out rj) (closed s) = false.
Proof.
  intros (_ & _ & Hok & _) Hj H0.
  destruct (Hok j rj Hj) as (_ & _ & H3 & _).
  destruct (mem (out rj) (closed s)); auto.
  assert (closes (at_pc rj) = 1) by now apply H3. lia.
Qed.

Ltac keep_wf :=
  match goal with
  | Hj : runs ?s !! ?j = Some ?rj, Hpc : at_pc ?rj = _
    |- wf (with_run ?j _ ?s) =>
      eapply (ticker_wf_with_run s j rj);
      [ eassumption | eassumption | reflexivity
      | simpl; eapply run_not_panicking; eassumption
      | simpl; rewrite ?Hpc; reflexivity
      | simpl; rewrite ?Hpc; congruence ]
  end.

(** Every step keeps the invariant. *)
Lemma ticker_step_wf inp s s' ev : wf s -> step inp s = (s', ev) -> wf s'.
Proof.
  intros Hwf H.
  step_cases H; auto; try keep_wf.
  - destruct Hwf as (Hc & Hnd & Hok & Hcl).
    wf_split; auto.
    intros i r H. destruct (Hok i r H) as (H1 & H2 & H3 & H4).
    unfold run_ok; simpl. repeat split; auto; try tauto.
    intros Hex. specialize (H4 Hex). unfold time.fire. rewrite H4. exact H4.
  - now apply ticker_wf_invoke.
  - apply wf_with_timer; [keep_wf|].
    unfold time.take in Htick. destruct (time.C (timer s)); [|discriminate].
    inversion Htick; subst. simpl. auto.
  - exfalso.
    assert (mem (out rj) (closed s) = false).
    { eapply run_not_closed; eauto. now rewrite Hpc. }
    congruence.
  - now apply wf_close.
  - rewrite (run_not_panicking s j rj Hwf Hj).
    destruct Hwf as (Hc & Hnd & Hok & Hcl).
    wf_split; auto.
    + now rewrite (ticker_outs_insert _ _ rj).
    + intros i r H.
      destruct (insert_lookup_cases _ _ _ _ _ _ Hj H) as [[-> ->]|[Hne Hi]].
      * destruct (Hok j rj Hj) as (H1 & H2 & H3 & H4).
        unfold run_ok; simpl. rewrite Hpc in H3. repeat split; auto; tauto.
      * destruct (Hok i r Hi) as (H1 & H2 & H3 & H4).
        unfold run_ok; simpl. repeat split; auto; tauto.
Qed.

Lemma ticker_exec_wf sched : forall s, wf s -> wf (fst (exec sched s)).
Proof.
  induction sched as [|inp sched IH]; intros s Hwf; simpl; auto.
  destruct (step inp s) as [s1 e1] eqn:E.
  specialize (IH s1 (ticker_step_wf _ _ _ _ Hwf E)).
  now destruct (exec sched s1).
Qed.

Lemma ticker_boot_wf t : wf (boot t).
Proof.
  unfold wf, boot; simpl.
  split; [reflexivity|]. split; [constructor|].
  split; [intros i r H; discriminate|discriminate].
Qed.

Lemma about_other {T} i j (e : event T) :
  i <> j -> (about j e = true) -> about i e = false.
Proof.
  intros Hne. destruct e; simpl; auto;
    intros H; apply Nat.eqb_eq in H; subst; now apply Nat.eqb_neq.
Qed.

Ltac silent :=
  intros ? Hin;
  repeat (apply elem_of_cons in Hin; destruct Hin as [->|Hin]);
  try (apply elem_of_nil in Hin; contradiction);
  simpl; try reflexivity; try (now apply Nat.eqb_neq).

Ltac stay := apply rs_stay; silent.

Ltac look_run i j Hi :=
  destruct (decide (i = j)) as [->|?];
  [ rewrite list_lookup_insert_eq by (eapply lookup_lt_Some; eassumption)
  | rewrite list_lookup_insert_ne by auto; rewrite Hi ].

(** What a step does to one run. *)
Lemma ticker_step_run inp s s' ev i r :
  step inp s = (s', ev) -> runs s !! i = Some r ->
  exists r', runs s' !! i = Some r' /\ run_step i s r r' ev.
Proof.
  intros H Hi.
  step_cases H; simpl.
  all: try (exists r; split; [assumption|stay; fail]).
  - exists r. split; [|stay].
    rewrite lookup_app_l; auto. eapply lookup_lt_Some; eauto.
  - look_run i j Hi; eexists; (split; [reflexivity|]).
    + assert (rj = r) by congruence. subst. now apply rs_return.
    + stay.
  - look_run i j Hi; eexists; (split; [reflexivity|]).
    + assert (rj = r) by congruence. subst. now apply rs_default.
    + stay.
  - look_run i j Hi; eexists; (split; [reflexivity|]).
    + assert (rj = r) by congruence. subst. now apply rs_tick.
    + stay.
  - look_run i j Hi; eexists; (split; [reflexivity|]).
    + assert (rj = r) by congruence. subst. now apply rs_close_panic.
    + stay.
  - look_run i j Hi; eexists; (split; [reflexivity|]).
    + assert (rj = r) by congruence. subst. now apply rs_close.
    + stay.
  - look_run i j Hi; eexists; (split; [reflexivity|]).
    + assert (rj = r) by congruence. subst. now apply rs_stop.
    + stay.
  - look_run i j Hi; eexists; (split; [reflexivity|]).
    + assert (rj = r) by congruence. subst. now apply rs_emit.
    + stay.
Qed.

Lemma ticker_cancelled_mono inp s s' ev c :
  step inp s = (s', ev) ->
  mem c (cancelled s) = true -> mem c (cancelled s') = true.
Proof.
  intros H Hc. step_cases H; simpl; auto.
  apply mem_cons. now right.
Qed.

Lemma ticker_run_step_same i s r r' ev :
  run_step i s r r' ev -> ctx r' = ctx r /\ out r' = out r.
Proof. now destruct 1. Qed.

Lemma ticker_stay_silent {T} i (ev : list (event T)) :
  (forall e, e ∈ ev -> about i e = false) ->
  count (is_emit i) ev = 0 /\ count (is_close i) ev = 0 /\
  count (is_release i) ev = 0.
Proof.
  intros H. repeat split.
  - eapply count_absent; eauto using emit_about.
  - eapply count_absent; eauto using close_about.
  - eapply count_absent; eauto using release_about.
Qed.

(** Once a goroutine has seen the signal it does not emit. *)
Lemma ticker_run_step_quiet i s r r' ev :
  run_step i s r r' ev ->
  quiet (at_pc r) = true -> mem (ctx r) (cancelled s) = true ->
  quiet (at_pc r') = true /\ count (is_emit i) ev = 0.
Proof.
  destruct 1 as [r ev Hev| | | | | | |]; intros Hq Hc; simpl; auto;
    try congruence.
  - split; auto. now apply ticker_stay_silent.
  - rewrite H in Hq. discriminate.
  - rewrite H in Hq. discriminate.
Qed.

Lemma ticker_quiet_exec i sched :
  forall s r,
    runs s !! i = Some r ->
    quiet (at_pc r) = true -> mem (ctx r) (cancelled s) = true ->
    count (is_emit i) (snd (exec sched s)) = 0.
Proof.
  induction sched as [|inp sched IH]; intros s r Hi Hq Hc; simpl; auto.
  destruct (step inp s) as [s1 e1] eqn:E.
  destruct (ticker_step_run _ _ _ _ _ _ E Hi) as (r' & Hi' & Hst).
  destruct (ticker_run_step_quiet _ _ _ _ _ Hst Hq Hc) as (Hq' & H0).
  destruct (ticker_run_step_same _ _ _ _ _ Hst) as (Hctx & _).
  specialize (IH s1 r' Hi' Hq').
  rewrite Hctx in IH.
  specialize (IH (ticker_cancelled_mono _ _ _ _ _ E Hc)).
  destruct (exec sched s1) as [s2 e2]. simpl in *.
  rewrite count_app. lia.
Qed.

(** With the signal fired, a step emits nothing, or it completes the send
    of the iteration in progress and leaves the goroutine at the select. *)
Lemma ticker_run_step_once i s r r' ev :
  run_step i s r r' ev ->
  count (is_emit i) ev = 0 \/
  (count (is_emit i) ev = 1 /\ at_pc r' = Select).
Proof.
  destruct 1 as [r ev Hev| | | | | | |]; simpl; auto.
  - left. now apply ticker_stay_silent.
  - right. rewrite Nat.eqb_refl. auto.
Qed.

Lemma ticker_once_exec i sched :
  forall s r,
    runs s !! i = Some r -> mem (ctx r) (cancelled s) = true ->
    count (is_emit i) (snd (exec sched s)) <= 1.
Proof.
  induction sched as [|inp sched IH]; intros s r Hi Hc; simpl; auto.
  destruct (step inp s) as [s1 e1] eqn:E.
  destruct (ticker_step_run _ _ _ _ _ _ E Hi) as (r' & Hi' & Hst).
  destruct (ticker_run_step_same _ _ _ _ _ Hst) as (Hctx & _).
  assert (Hc' : mem (ctx r') (cancelled s1) = true).
  { rewrite Hctx. eapply ticker_cancelled_mono; eauto. }
  destruct (ticker_run_step_once _ _ _ _ _ Hst) as [H0|[H1 Hsel]].
  - specialize (IH s1 r' Hi' Hc').
    destruct (exec sched s1) as [s2 e2]. simpl in *.
    rewrite count_app. lia.
  - assert (Hq : quiet (at_pc r') = true) by now rewrite Hsel.
    pose proof (ticker_quiet_exec i sched s1 r' Hi' Hq Hc') as H0.
    destruct (exec sched s1) as [s2 e2]. simpl in *.
    rewrite count_app. lia.
Qed.

Lemma ticker_step_absent inp s s' ev i :
  step inp s = (s', ev) -> runs s !! i = None ->
  (forall e, e ∈ ev -> about i e = false) /\
  (runs s' !! i = None \/
   exists r', runs s' !! i = Some r' /\ at_pc r' = Select).
Proof.
  intros H Hi.
  assert (Hne : forall j rj, runs s !! j = Some rj -> i <> j)
    by (intros j rj Hj ->; congruence).
  step_cases H; simpl; try (specialize (Hne _ _ Hj));
    (split; [silent|]);
    try (now left);
    try (left; rewrite list_lookup_insert_ne by auto; assumption).
  apply lookup_ge_None in Hi.
  destruct (decide (i = length (runs s))) as [->|Hn].
  - right. eexists. split.
    + rewrite lookup_app_r by lia. rewrite Nat.sub_diag. reflexivity.
    + reflexivity.
  - left. apply lookup_ge_None. rewrite length_app. simpl. lia.
Qed.

(** The books of run i: what a step shows of closing and releasing is what
    the position of the goroutine accounts for, and a release is shown only
    when the close has been. *)
Lemma ticker_step_ledger inp s s' ev i :
  wf s -> step inp s = (s', ev) ->
  count (is_close i) ev + closes_of s i = closes_of s' i /\
  count (is_release i) ev + releases_of s i = releases_of s' i /\
  precedes (is_close i) (is_release i) (0 <? closes_of s i) ev = true.
Proof.
  intros Hwf H. unfold closes_of, releases_of.
  destruct (runs s !! i) as [r|] eqn:Hi.
  - destruct (ticker_step_run _ _ _ _ _ _ H Hi) as (r' & Hi' & Hst). rewrite Hi'.
    destruct Hst as [r ev Hev|r Hp|r Hp|r v Hp|r v Hp|r Hp|r Hp Hm|r Hp];
      simpl; rewrite ?Hp; simpl; rewrite ?Nat.eqb_refl; auto.
    + destruct (ticker_stay_silent i ev Hev) as (_ & -> & ->).
      repeat split; auto.
      eapply precedes_absent; eauto using release_about.
    + exfalso.
      assert (mem (out r) (closed s) = false).
      { eapply run_not_closed; eauto. now rewrite Hp. }
      congruence.
  - destruct (ticker_step_absent _ _ _ _ _ H Hi) as (Hev & Hs').
    destruct (ticker_stay_silent i ev Hev) as (_ & -> & ->).
    assert (precedes (is_close i) (is_release i) (0 <? 0) ev = true)
      by (eapply precedes_absent; eauto using release_about).
    destruct Hs' as [->|(r' & -> & ->)]; auto.
Qed.

Lemma ticker_exec_ledger i sched :
  forall s, wf s ->
    count (is_close i) (snd (exec sched s)) + closes_of s i
      = closes_of (fst (exec sched s)) i /\
    count (is_release i) (snd (exec sched s)) + releases_of s i
      = releases_of (fst (exec sched s)) i /\
    precedes (is_close i) (is_release i) (0 <? closes_of s i)
      (snd (exec sched s)) = true.
Proof.
  induction sched as [|inp sched IH]; intros s Hwf; simpl; auto.
  destruct (step inp s) as [s1 e1] eqn:E.
  destruct (ticker_step_ledger _ _ _ _ i Hwf E) as (Hc & Hr & Hp).
  destruct (IH s1 (ticker_step_wf _ _ _ _ Hwf E)) as (Hc' & Hr' & Hp').
  destruct (exec sched s1) as [s2 e2]. simpl in *.
  rewrite !count_app, precedes_app, Hp. simpl.
  repeat split; try lia.
  replace (_ || _) with (0 <? closes_of s1 i); auto.
  rewrite <- Hc.
  destruct (closes_of s i), (count (is_close i) e1); reflexivity.
Qed.

Lemma ticker_closes_bound p : closes p <= 1.
Proof. destruct p; simpl; lia. Qed.

Lemma ticker_releases_bound p : releases p <= 1.
Proof. destruct p; simpl; lia. Qed.

Lemma run_step_remaining i s r r' ev :
  run_step i s r r' ev ->
  quiet (at_pc r) = true -> mem (ctx r) (cancelled s) = true ->
  remaining (at_pc r') <= remaining (at_pc r).
Proof.
  destruct 1 as [r ev Hev|r Hp|r Hp|r v Hp|r v Hp|r Hp|r Hp Hm|r Hp];
    intros Hq Hc; simpl; rewrite ?Hp; simpl; auto; try lia; try congruence;
    rewrite Hp in Hq; discriminate.
Qed.

(** The goroutine's own step, once it is past the default branch with the
    signal fired, brings it one step closer to its end. *)
Lemma work_progress s i r :
  crashed s = false -> runs s !! i = Some r ->
  quiet (at_pc r) = true -> mem (ctx r) (cancelled s) = true ->
  exists r',
    runs (fst (step (Work i) s)) !! i = Some r' /\
    remaining (at_pc r') = pred (remaining (at_pc r)).
Proof.
  intros Hc Hi Hq Hm.
  assert (Hlt : i < length (runs s)) by (eapply lookup_lt_Some; eauto).
  unfold step. rewrite Hc. simpl. rewrite Hi. unfold work.
  destruct (at_pc r) eqn:Hp; try discriminate; simpl.
  - rewrite Hm. simpl. rewrite list_lookup_insert_eq by auto. eauto.
  - destruct (mem (out r) (closed s)); simpl;
      rewrite list_lookup_insert_eq by auto; eauto.
  - rewrite list_lookup_insert_eq by auto. eauto.
  - rewrite Hi. eexists. split; eauto. now rewrite Hp.
Qed.

Lemma finish_exec i sched :
  forall s r,
    wf s -> runs s !! i = Some r ->
    quiet (at_pc r) = true -> mem (ctx r) (cancelled s) = true ->
    remaining (at_pc r) <= count (is_work i) sched ->
    exists r', runs (fst (exec sched s)) !! i = Some r' /\
               at_pc r' = Exited /\ out r' = out r.
Proof.
  induction sched as [|inp sched IH]; intros s r Hwf Hi Hq Hc Hk; simpl in *.
  - exists r. repeat split; auto.
    destruct (at_pc r); simpl in *; try lia; auto; discriminate.
  - destruct (step inp s) as [s1 e1] eqn:E.
    destruct (ticker_step_run _ _ _ _ _ _ E Hi) as (r1 & Hi1 & Hst).
    destruct (ticker_run_step_quiet _ _ _ _ _ Hst Hq Hc) as (Hq1 & _).
    destruct (ticker_run_step_same _ _ _ _ _ Hst) as (Hctx & Hout).
    assert (Hc1 : mem (ctx r1) (cancelled s1) = true).
    { rewrite Hctx. eapply ticker_cancelled_mono; eauto. }
    assert (Hk1 : remaining (at_pc r1) <= count (is_work i) sched).
    { destruct (is_work i inp) eqn:Ew.
      - destruct inp; try discriminate. simpl in Ew.
        apply Nat.eqb_eq in Ew. subst i0.
        destruct Hwf as (Hcr & _).
        destruct (work_progress s i r Hcr Hi Hq Hc) as (r2 & Hi2 & Hrem).
        rewrite E in Hi2. simpl in Hi2. assert (r2 = r1) by congruence.
        subst. lia.
      - pose proof (run_step_remaining _ _ _ _ _ Hst Hq Hc). lia. }
    destruct (IH s1 r1 (ticker_step_wf _ _ _ _ Hwf E) Hi1 Hq1 Hc1 Hk1)
      as (r' & Hi' & Hex & Ho).
    destruct (exec sched s1). simpl in *.
    exists r'. repeat split; auto. congruence.
Qed.

(** No deferred close of the ticker trigger ever panics. *)
Lemma step_no_panic inp s s' ev :
  wf s -> step inp s = (s', ev) -> count is_panic ev = 0.
Proof.
  intros Hwf H. step_cases H; simpl; auto.
  exfalso.
  assert (mem (out rj) (closed s) = false).
  { eapply run_not_closed; eauto. now rewrite Hpc. }
  congruence.
Qed.

Lemma exec_no_panic sched :
  forall s, wf s -> count is_panic (snd (exec sched s)) = 0.
Proof.
  induction sched as [|inp sched IH]; intros s Hwf; simpl; auto.
  destruct (step inp s) as [s1 e1] eqn:E.
  pose proof (step_no_panic _ _ _ _ Hwf E) as H1.
  specialize (IH s1 (ticker_step_wf _ _ _ _ Hwf E)).
  destruct (exec sched s1). simpl in *. rewrite count_app. lia.
Qed.

(** Every run was started by one invocation of the Stage factory. *)
Lemma ticker_step_started inp s s' ev :
  step inp s = (s', ev) ->
  length (runs s') = length (runs s) + count is_start ev.
Proof.
  intros H. step_cases H; simpl; rewrite ?length_insert, ?length_app;
    simpl; lia.
Qed.

Lemma ticker_exec_started sched :
  forall s,
    length (runs (fst (exec sched s)))
    = length (runs s) + count is_start (snd (exec sched s)).
Proof.
  induction sched as [|inp sched IH]; intros s; simpl; [lia|].
  destruct (step inp s) as [s1 e1] eqn:E.
  pose proof (ticker_step_started _ _ _ _ E) as H1.
  specialize (IH s1).
  destruct (exec sched s1). simpl in *. rewrite count_app. lia.
Qed.

Lemma step_invoked inp s s' ev :
  wf s -> step inp s = (s', ev) ->
  count is_start ev = if is_invoke inp then 1 else 0.
Proof.
  intros (Hc & _) H. unfold step in H. rewrite Hc in H.
  destruct inp; simpl in *;
    unfold Stage, work, take in *;
    repeat match type of H with
    | context [match ?x with _ => _ end] => destruct x
    end; inversion H; subst; reflexivity.
Qed.

Lemma exec_invoked sched :
  forall s, wf s ->
    length (runs (fst (exec sched s)))
    = length (runs s) + count is_invoke sched.
Proof.
  induction sched as [|inp sched IH]; intros s Hwf; simpl; [lia|].
  destruct (step inp s) as [s1 e1] eqn:E.
  pose proof (ticker_step_started _ _ _ _ E) as H1.
  pose proof (step_invoked _ _ _ _ Hwf E) as H2.
  specialize (IH s1 (ticker_step_wf _ _ _ _ Hwf E)).
  destruct (exec sched s1). simpl in *.
  destruct (is_invoke inp); lia.
Qed.

(** Nothing changes the period of the ticker. *)
Lemma step_period inp s s' ev :
  step inp s = (s', ev) ->
  time.period (timer s') = time.period (timer s).
Proof.
  intros H. step_cases H; simpl; auto.
  - unfold time.fire. destruct (time.stopped (timer s)); auto.
    destruct (time.C (timer s)); auto.
  - unfold time.take in Htick. destruct (time.C (timer s)); [|discriminate].
    now inversion Htick.
Qed.

Lemma exec_period sched :
  forall s,
    time.period (timer (fst (exec sched s))) = time.period (timer s).
Proof.
  induction sched as [|inp sched IH]; intros s; simpl; auto.
  destruct (step inp s) as [s1 e1] eqn:E.
  rewrite <- (step_period _ _ _ _ E). specialize (IH s1).
  now destruct (exec sched s1).
Qed.

(** One invocation of the Stage factory. *)
Lemma ticker_invoke_starts_run s c :
  wf s ->
  starts_run c s (fst (step (Invoke c) s)) (snd (step (Invoke c) s)).
Proof.
  intros (Hc & _ & Hok & Hcl). unfold step. rewrite Hc. simpl.
  unfold starts_run. simpl.
  split; [reflexivity|]. split; [reflexivity|].
  split.
  - intros Hin. apply list_elem_of_fmap in Hin.
    destruct Hin as (r & Heq & Hr). apply list_elem_of_lookup in Hr.
    destruct Hr as (i & Hi). destruct (Hok i r Hi) as (Hlt & _). lia.
  - split; [|now auto].
    destruct (mem (next_chan s) (closed s)) eqn:Hm; auto.
    apply Hcl in Hm. lia.
Qed.

End TickerFacts.

(** ** The HTTP trigger *)

Module HttpFacts.
Import conduit Http HttpInv.

Lemma http_exec_app a b s :
  exec (a ++ b) s =
  let (s1, t1) := exec a s in
  let (s2, t2) := exec b s1 in (s2, t1 ++ t2).
Proof.
  revert s. induction a as [|inp a IH]; intros s; simpl.
  - now destruct (exec b s).
  - destruct (step inp s) as [s1 e1]. rewrite IH.
    destruct (exec a s1) as [s2 e2]. destruct (exec b s2) as [s3 e3].
    now rewrite app_assoc.
Qed.

Lemma http_outs_insert (rs : list run) j r r' :
  rs !! j = Some r -> out r' = out r -> out <$> <[j := r']> rs = out <$> rs.
Proof.
  intros Hj Ho. rewrite list_fmap_insert. apply list_insert_id.
  rewrite list_lookup_fmap, Hj. simpl. now rewrite Ho.
Qed.

Lemma dones_insert (hs : list handler) j h h' :
  hs !! j = Some h -> h_done h' = h_done h ->
  h_done <$> <[j := h']> hs = h_done <$> hs.
Proof.
  intros Hj Ho. rewrite list_fmap_insert. apply list_insert_id.
  rewrite list_lookup_fmap, Hj. simpl. now rewrite Ho.
Qed.

(** Consequences of the channels being all different. *)
Lemma out_in_chans s i r : runs s !! i = Some r -> out r ∈ chans s.
Proof.
  intros H. unfold chans. right. apply elem_of_app. left.
  apply list_elem_of_fmap. exists r. split; auto.
  apply list_elem_of_lookup. eauto.
Qed.

Lemma done_in_chans s h hd : handlers s !! h = Some hd -> h_done hd ∈ chans s.
Proof.
  intros H. unfold chans. right. apply elem_of_app. right.
  apply list_elem_of_fmap. exists hd. split; auto.
  apply list_elem_of_lookup. eauto.
Qed.

Lemma out_not_req s i r :
  NoDup (chans s) -> runs s !! i = Some r -> out r <> req_ch s.
Proof.
  intros Hnd Hi Heq. unfold chans in Hnd. apply NoDup_cons in Hnd.
  destruct Hnd as (Hn & _). apply Hn. rewrite <- Heq.
  apply elem_of_app. left. apply list_elem_of_fmap. exists r. split; auto.
  apply list_elem_of_lookup. eauto.
Qed.

Lemma done_not_req s h hd :
  NoDup (chans s) -> handlers s !! h = Some hd -> h_done hd <> req_ch s.
Proof.
  intros Hnd Hi Heq. unfold chans in Hnd. apply NoDup_cons in Hnd.
  destruct Hnd as (Hn & _). apply Hn. rewrite <- Heq.
  apply elem_of_app. right. apply list_elem_of_fmap. exists hd. split; auto.
  apply list_elem_of_lookup. eauto.
Qed.

Lemma out_not_done s i r h hd :
  NoDup (chans s) -> runs s !! i = Some r -> handlers s !! h = Some hd ->
  out r <> h_done hd.
Proof.
  intros Hnd Hi Hh Heq. unfold chans in Hnd. apply NoDup_cons in Hnd.
  destruct Hnd as (_ & Hnd). apply NoDup_app in Hnd.
  destruct Hnd as (_ & Hn & _). apply (Hn (out r)).
  - apply list_elem_of_fmap. exists r. split; auto.
    apply list_elem_of_lookup. eauto.
  - rewrite Heq. apply list_elem_of_fmap. exists hd. split; auto.
    apply list_elem_of_lookup. eauto.
Qed.

Lemma http_outs_distinct s i j r r' :
  NoDup (chans s) -> runs s !! i = Some r -> runs s !! j = Some r' ->
  out r = out r' -> i = j.
Proof.
  intros Hnd Hi Hj Ho. unfold chans in Hnd. apply NoDup_cons in Hnd.
  destruct Hnd as (_ & Hnd). apply NoDup_app in Hnd.
  destruct Hnd as (Hnd & _).
  eapply NoDup_lookup; [exact Hnd| |].
  - rewrite list_lookup_fmap, Hi. reflexivity.
  - rewrite list_lookup_fmap, Hj. simpl. now rewrite Ho.
Qed.

Lemma dones_distinct s i j h h' :
  NoDup (chans s) -> handlers s !! i = Some h -> handlers s !! j = Some h' ->
  h_done h = h_done h' -> i = j.
Proof.
  intros Hnd Hi Hj Ho. unfold chans in Hnd. apply NoDup_cons in Hnd.
  destruct Hnd as (_ & Hnd). apply NoDup_app in Hnd.
  destruct Hnd as (_ & _ & Hnd).
  eapply NoDup_lookup; [exact Hnd| |].
  - rewrite list_lookup_fmap, Hi. reflexivity.
  - rewrite list_lookup_fmap, Hj. simpl. now rewrite Ho.
Qed.

Lemma mem_cons_ne x y l : x <> y -> mem x (y :: l) = mem x l.
Proof. intros H. simpl. now destruct (Nat.eqb_spec x y). Qed.

Lemma mem_cons_eq x l : mem x (x :: l) = true.
Proof. simpl. now rewrite Nat.eqb_refl. Qed.

Ltac wf_split := unfold wf; simpl; split; [|split; [|split; [|split]]].

Lemma chans_with_run s j rj r' :
  runs s !! j = Some rj -> out r' = out rj ->
  chans (with_run j r' s) = chans s.
Proof.
  intros Hj Ho. unfold chans; simpl. now rewrite (http_outs_insert _ _ rj).
Qed.

Lemma chans_with_handler s h hd hd' :
  handlers s !! h = Some hd -> h_done hd' = h_done hd ->
  chans (with_handler h hd' s) = chans s.
Proof.
  intros Hj Ho. unfold chans; simpl. now rewrite (dones_insert _ _ hd).
Qed.

Lemma chans_with_closed s c : chans (with_closed c s) = chans s.
Proof. reflexivity. Qed.

Lemma http_wf_with_run s j rj r' :
  wf s -> runs s !! j = Some rj ->
  out r' = out rj -> closes (at_pc r') = closes (at_pc rj) ->
  wf (with_run j r' s).
Proof.
  intros (Hnd & Hlt & Hcl & Hr & Hh) Hj Ho Heq.
  pose proof (chans_with_run s j rj r' Hj Ho) as Hch.
  unfold wf. rewrite Hch. simpl. repeat (split; [assumption|]). split; auto.
  intros i r H.
  destruct (insert_lookup_cases _ _ _ _ _ _ Hj H) as [[-> ->]|[Hne Hi]].
  - rewrite Ho, Heq. now apply (Hr j rj).
  - now apply (Hr i r).
Qed.

Lemma wf_with_handler s h hd hd' :
  wf s -> handlers s !! h = Some hd ->
  h_done hd' = h_done hd -> done_closed (h_at hd') = done_closed (h_at hd) ->
  wf (with_handler h hd' s).
Proof.
  intros (Hnd & Hlt & Hcl & Hr & Hh) Hj Ho Heq.
  pose proof (chans_with_handler s h hd hd' Hj Ho) as Hch.
  unfold wf. rewrite Hch. simpl. repeat (split; [assumption|]).
  intros i r H.
  destruct (insert_lookup_cases _ _ _ _ _ _ Hj H) as [[-> ->]|[Hne Hi]].
  - rewrite Ho, Heq. now apply (Hh h hd).
  - now apply (Hh i r).
Qed.

(** Closing a channel that no run and no handler owns. *)
Lemma wf_close_req s : wf s -> wf (with_closed (req_ch s) s).
Proof.
  intros (Hnd & Hlt & Hcl & Hr & Hh).
  wf_split; auto.
  - intros c Hm. apply mem_cons in Hm. destruct Hm as [->|Hm]; auto.
    apply Hlt. now left.
  - intros i r Hi. rewrite <- (Hr i r Hi).
    destruct (Nat.eqb_spec (out r) (req_ch s)) as [Heq|]; [|tauto].
    exfalso. revert Heq. eapply out_not_req; eauto.
  - intros h hd Hi. rewrite <- (Hh h hd Hi).
    destruct (Nat.eqb_spec (h_done hd) (req_ch s)) as [Heq|]; [|tauto].
    exfalso. revert Heq. eapply done_not_req; eauto.
Qed.

Lemma wf_close_out s j rj p :
  wf s -> runs s !! j = Some rj -> closes p = 1 ->
  wf (with_closed (out rj) (with_run j (goto p rj) s)).
Proof.
  intros (Hnd & Hlt & Hcl & Hr & Hh) Hj Hp.
  pose proof (chans_with_run s j rj (goto p rj) Hj eq_refl) as Hch.
  unfold wf. rewrite chans_with_closed, Hch. simpl. repeat (split; [assumption|]).
  split; [|split].
  - intros c Hm. apply mem_cons in Hm. destruct Hm as [->|Hm]; auto.
    apply Hlt. eapply out_in_chans; eauto.
  - intros i r H.
    destruct (insert_lookup_cases _ _ _ _ _ _ Hj H) as [[-> ->]|[Hne Hi]].
    + simpl. rewrite Nat.eqb_refl, Hp. tauto.
    + rewrite <- (Hr i r Hi). simpl.
      destruct (Nat.eqb_spec (out r) (out rj)) as [Heq|]; [|tauto].
      exfalso. apply Hne. eapply http_outs_distinct; eauto.
  - intros h hd Hi. rewrite <- (Hh h hd Hi). simpl.
    destruct (Nat.eqb_spec (h_done hd) (out rj)) as [Heq|]; [|tauto].
    exfalso. symmetry in Heq. revert Heq. eapply out_not_done; eauto.
Qed.

Lemma wf_close_done s h hd p :
  wf s -> handlers s !! h = Some hd -> done_closed p = true ->
  wf (with_closed (h_done hd) (with_handler h (hgoto p hd) s)).
Proof.
  intros (Hnd & Hlt & Hcl & Hr & Hh) Hj Hp.
  pose proof (chans_with_handler s h hd (hgoto p hd) Hj eq_refl) as Hch.
  unfold wf. rewrite chans_with_closed, Hch. simpl. repeat (split; [assumption|]).
  split; [|split].
  - intros c Hm. apply mem_cons in Hm. destruct Hm as [->|Hm]; auto.
    apply Hlt. eapply done_in_chans; eauto.
  - intros i r Hi. rewrite <- (Hr i r Hi). simpl.
    destruct (Nat.eqb_spec (out r) (h_done hd)) as [Heq|]; [|tauto].
    exfalso. revert Heq. eapply out_not_done; eauto.
  - intros i x H.
    destruct (insert_lookup_cases _ _ _ _ _ _ Hj H) as [[-> ->]|[Hne Hi]].
    + simpl. rewrite Nat.eqb_refl, Hp. tauto.
    + rewrite <- (Hh i x Hi). simpl.
      destruct (Nat.eqb_spec (h_done x) (h_done hd)) as [Heq|]; [|tauto].
      exfalso. apply Hne. eapply dones_distinct; eauto.
Qed.

Lemma http_wf_invoke s c :
  wf s ->
  wf {| req_ch := req_ch s; srv_closed := srv_closed s;
        next_chan := S (next_chan s); closed := closed s;
        cancelled := cancelled s;
        runs := runs s ++ [{| ctx := c; out := next_chan s; at_pc := Select;
                              panicking := false |}];
        handlers := handlers s; crashed := crashed s |}.
Proof.
  intros (Hnd & Hlt & Hcl & Hr & Hh).
  assert (Hperm : chans {| req_ch := req_ch s; srv_closed := srv_closed s;
        next_chan := S (next_chan s); closed := closed s;
        cancelled := cancelled s;
        runs := runs s ++ [{| ctx := c; out := next_chan s; at_pc := Select;
                              panicking := false |}];
        handlers := handlers s; crashed := crashed s |}
        ≡ₚ next_chan s :: chans s).
  { unfold chans; simpl. rewrite fmap_app. simpl.
    rewrite <- app_assoc. simpl.
    rewrite <- Permutation_middle. apply perm_swap. }
  unfold wf. split; [|split; [|split; [|split]]].
  - rewrite Hperm. apply NoDup_cons. split; auto.
    intros Hin. apply Hlt in Hin. lia.
  - intros x Hx. rewrite Hperm in Hx. simpl.
    apply elem_of_cons in Hx. destruct Hx as [->|Hx]; [lia|].
    apply Hlt in Hx. lia.
  - simpl. intros x Hx. apply Hcl in Hx. lia.
  - simpl. intros i r Hi. apply lookup_snoc_Some in Hi.
    destruct Hi as [[_ Hi]|[_ <-]]; [now apply (Hr i r)|]. simpl.
    split; [|discriminate]. intros Hm. apply Hcl in Hm. lia.
  - exact Hh.
Qed.

Lemma wf_incoming s r :
  wf s ->
  wf {| req_ch := req_ch s; srv_closed := srv_closed s;
        next_chan := S (next_chan s); closed := closed s;
        cancelled := cancelled s; runs := runs s;
        handlers := handlers s ++ [{| h_req := r; h_done := next_chan s;
                                      h_at := HSend |}];
        crashed := crashed s |}.
Proof.
  intros (Hnd & Hlt & Hcl & Hr & Hh).
  assert (Hperm : chans {| req_ch := req_ch s; srv_closed := srv_closed s;
        next_chan := S (next_chan s); closed := closed s;
        cancelled := cancelled s; runs := runs s;
        handlers := handlers s ++ [{| h_req := r; h_done := next_chan s;
                                      h_at := HSend |}];
        crashed := crashed s |}
        ≡ₚ next_chan s :: chans s).
  { unfold chans; simpl. rewrite fmap_app. simpl.
    rewrite app_assoc. rewrite <- Permutation_cons_append.
    apply perm_swap. }
  unfold wf. split; [|split; [|split; [|split]]].
  - rewrite Hperm. apply NoDup_cons. split; auto.
    intros Hin. apply Hlt in Hin. lia.
  - intros x Hx. rewrite Hperm in Hx. simpl.
    apply elem_of_cons in Hx. destruct Hx as [->|Hx]; [lia|].
    apply Hlt in Hx. lia.
  - simpl. intros x Hx. apply Hcl in Hx. lia.
  - exact Hr.
  - simpl. intros i x Hi. apply lookup_snoc_Some in Hi.
    destruct Hi as [[_ Hi]|[_ <-]]; [now apply (Hh i x)|]. simpl.
    split; [|discriminate]. intros Hm. apply Hcl in Hm. lia.
Qed.

Lemma wf_frame s s' :
  wf s ->
  req_ch s' = req_ch s -> next_chan s' = next_chan s ->
  closed s' = closed s -> runs s' = runs s -> handlers s' = handlers s ->
  wf s'.
Proof.
  unfold wf, chans. intros H -> -> -> -> ->. exact H.
Qed.

Lemma waiting_on_spec d hs :
  forall h, waiting_on d hs = Some h ->
    exists hd, hs !! h = Some hd /\ h_at hd = HWait /\ h_done hd = d.
Proof.
  induction hs as [|x hs IH]; intros h H; simpl in H; [discriminate|].
  assert (Hrec : option_map S (waiting_on d hs) = Some h ->
                 exists hd, (x :: hs) !! h = Some hd /\ h_at hd = HWait /\
                            h_done hd = d).
  { intros E. destruct (waiting_on d hs) as [h'|]; [|discriminate].
    inversion E; subst. simpl. now apply IH. }
  destruct (h_at x) eqn:Hx; auto.
  destruct (Nat.eqb_spec (h_done x) d); auto.
  inversion H; subst. exists x. auto.
Qed.

Lemma not_closed_out s i r :
  wf s -> runs s !! i = Some r -> closes (at_pc r) = 0 ->
  mem (out r) (closed s) = false.
Proof.
  intros (_ & _ & _ & Hr & _) Hi H0.
  destruct (mem (out r) (closed s)) eqn:E; auto.
  apply (Hr i r Hi) in E. lia.
Qed.

Lemma not_closed_done s h hd :
  wf s -> handlers s !! h = Some hd -> done_closed (h_at hd) = false ->
  mem (h_done hd) (closed s) = false.
Proof.
  intros (_ & _ & _ & _ & Hh) Hi H0.
  destruct (mem (h_done hd) (closed s)) eqn:E; auto.
  apply (Hh h hd Hi) in E. congruence.
Qed.

Lemma work_wf s i r : wf s -> runs s !! i = Some r -> wf (fst (work i r s)).
Proof.
  intros Hwf Hi. unfold work.
  destruct (at_pc r) eqn:Hp; simpl; auto.
  - destruct (mem (ctx r) (cancelled s)); simpl;
      apply (http_wf_with_run s i r); auto; simpl; now rewrite Hp.
  - destruct (mem (req_ch s) (closed s)); simpl; auto.
    apply (http_wf_with_run s i r); auto; simpl; now rewrite Hp.
  - destruct (mem (req_ch s) (closed s)); simpl.
    + apply (http_wf_with_run s i r); auto; simpl; now rewrite Hp.
    + apply (wf_close_req (with_run i (goto DeferCloseOut r) s)).
      apply (http_wf_with_run s i r); auto; simpl; now rewrite Hp.
  - rewrite (not_closed_out s i r Hwf Hi) by now rewrite Hp.
    simpl. now apply wf_close_out.
  - apply (wf_frame (with_run i (goto Exited r) s)); auto.
    apply (http_wf_with_run s i r); auto; simpl; now rewrite Hp.
Qed.

Lemma take_wf s i r : wf s -> runs s !! i = Some r -> wf (fst (take i r s)).
Proof.
  intros Hwf Hi. unfold take.
  destruct (at_pc r) eqn:Hp; simpl; auto.
  apply (http_wf_with_run s i r); auto; simpl; now rewrite Hp.
Qed.

Lemma handoff_wf s h i : wf s -> wf (fst (handoff h i s)).
Proof.
  intros Hwf. unfold handoff.
  destruct (handlers s !! h) as [hd|] eqn:Hh; auto.
  destruct (runs s !! i) as [r|] eqn:Hi; auto.
  destruct (h_at hd) eqn:Hhp; auto.
  destruct (at_pc r) eqn:Hp; auto.
  destruct (mem (req_ch s) (closed s)); simpl; auto.
  apply (wf_with_handler _ h hd); auto; [|simpl; now rewrite Hhp].
  apply (http_wf_with_run s i r); auto; simpl; now rewrite Hp.
Qed.

Lemma serve_wf s h hd :
  wf s -> handlers s !! h = Some hd -> wf (fst (serve h hd s)).
Proof.
  intros Hwf Hh. unfold serve.
  destruct (h_at hd) eqn:Hp; simpl; auto.
  - destruct (mem (req_ch s) (closed s)); simpl; auto.
    now apply wf_close_done.
  - rewrite (not_closed_done s h hd Hwf Hh) by now rewrite Hp. auto.
  - rewrite (not_closed_done s h hd Hwf Hh) by now rewrite Hp.
    simpl. now apply wf_close_done.
Qed.

Lemma Done_wf s x : wf s -> wf (fst (Done x s)).
Proof.
  intros Hwf. unfold Done.
  destruct (done x) as [d|]; auto.
  destruct (mem d (closed s)); simpl.
  - apply (wf_frame s); auto.
  - destruct (waiting_on d (handlers s)) as [h|] eqn:Hw; auto.
    destruct (waiting_on_spec _ _ _ Hw) as (hd & Hh & Hp & Hd).
    rewrite Hh. simpl.
    apply (wf_with_handler s h hd); auto. simpl. now rewrite Hp.
Qed.

(** Every step keeps the invariant. *)
Lemma http_step_wf inp s s' ev : wf s -> step inp s = (s', ev) -> wf s'.
Proof.
  intros Hwf H. unfold step in H.
  destruct (crashed s); [now inversion H; subst|].
  replace s' with (fst (move inp s)) by now rewrite H.
  clear H. destruct inp; simpl.
  - apply (wf_frame s); auto.
  - now apply http_wf_invoke.
  - unfold ServeHTTP. destruct (srv_closed s); simpl; auto.
    now apply wf_incoming.
  - now apply handoff_wf.
  - destruct (runs s !! i) eqn:Hi; auto. now apply work_wf.
  - destruct (runs s !! i) eqn:Hi; auto. now apply take_wf.
  - destruct (handlers s !! h) eqn:Hh; auto. now apply serve_wf.
  - now apply Done_wf.
Qed.

Lemma http_exec_wf sched : forall s, wf s -> wf (fst (exec sched s)).
Proof.
  induction sched as [|inp sched IH]; intros s Hwf; simpl; auto.
  destruct (step inp s) as [s1 e1] eqn:E.
  specialize (IH s1 (http_step_wf _ _ _ _ Hwf E)).
  now destruct (exec sched s1).
Qed.

Lemma http_boot_wf ht : wf (boot ht).
Proof.
  unfold wf, boot, chans; simpl.
  split; [apply NoDup_singleton|].
  split; [intros c Hc; apply list_elem_of_singleton in Hc; lia|].
  split; [discriminate|].
  split; intros i r H; discriminate.
Qed.

Ltac silent :=
  intros ? Hin;
  repeat (apply elem_of_cons in Hin; destruct Hin as [->|Hin]);
  try (apply elem_of_nil in Hin; contradiction);
  simpl; try reflexivity; try (now apply Nat.eqb_neq).

Ltac stay := apply rs_stay; silent.

Ltac same_run Hlt :=
  simpl; rewrite ?list_lookup_insert_eq by exact Hlt;
  eexists; (split; [reflexivity|]).

Ltac other_run Hne Hi :=
  simpl; rewrite ?list_lookup_insert_ne by exact Hne;
  eexists; (split; [exact Hi|stay]).

Ltac unmoved Hi := simpl; eexists; (split; [exact Hi|stay]).

Lemma work_run s j rj i r :
  runs s !! j = Some rj -> runs s !! i = Some r ->
  exists r', runs (fst (work j rj s)) !! i = Some r' /\
             run_step i s r r' (snd (work j rj s)).
Proof.
  intros Hj Hi.
  assert (Hlt : i < length (runs s)) by (eapply lookup_lt_Some; eauto).
  destruct (decide (j = i)) as [->|Hne].
  - assert (rj = r) by congruence. subst rj. unfold work.
    destruct (at_pc r) eqn:Hp.
    + destruct (mem (ctx r) (cancelled s)) eqn:Hm; same_run Hlt.
      * now apply rs_return.
      * now apply rs_default.
    + destruct (mem (req_ch s) (closed s)); [same_run Hlt|unmoved Hi].
      now apply rs_request.
    + unmoved Hi.
    + destruct (mem (req_ch s) (closed s)) eqn:Hm; same_run Hlt.
      * now apply rs_close_req_panic.
      * now apply rs_close_req.
    + destruct (mem (out r) (closed s)) eqn:Hm; same_run Hlt.
      * now apply rs_close_panic.
      * now apply rs_close.
    + same_run Hlt. now apply rs_server_close.
    + unmoved Hi.
  - unfold work. destruct (at_pc rj);
      repeat match goal with
      | |- context [if ?b then _ else _] => destruct b
      end; other_run Hne Hi.
Qed.

Lemma take_run s j rj i r :
  runs s !! j = Some rj -> runs s !! i = Some r ->
  exists r', runs (fst (take j rj s)) !! i = Some r' /\
             run_step i s r r' (snd (take j rj s)).
Proof.
  intros Hj Hi.
  assert (Hlt : i < length (runs s)) by (eapply lookup_lt_Some; eauto).
  destruct (decide (j = i)) as [->|Hne].
  - assert (rj = r) by congruence. subst rj. unfold take.
    destruct (at_pc r) eqn:Hp; try (unmoved Hi).
    same_run Hlt. now apply rs_emit.
  - unfold take. destruct (at_pc rj); other_run Hne Hi.
Qed.

Lemma handoff_run s h j i r :
  runs s !! i = Some r ->
  exists r', runs (fst (handoff h j s)) !! i = Some r' /\
             run_step i s r r' (snd (handoff h j s)).
Proof.
  intros Hi.
  assert (Hlt : i < length (runs s)) by (eapply lookup_lt_Some; eauto).
  unfold handoff.
  destruct (handlers s !! h) as [hd|]; [|unmoved Hi].
  destruct (runs s !! j) as [rj|] eqn:Hj; [|unmoved Hi].
  destruct (h_at hd); try (unmoved Hi).
  destruct (at_pc rj) eqn:Hp; try (unmoved Hi).
  destruct (mem (req_ch s) (closed s)); [unmoved Hi|].
  destruct (decide (j = i)) as [->|Hne].
  - assert (rj = r) by congruence. subst rj.
    same_run Hlt. now apply rs_request.
  - other_run Hne Hi.
Qed.

(** What a step does to one run. *)
Lemma http_step_run inp s s' ev i r :
  step inp s = (s', ev) -> runs s !! i = Some r ->
  exists r', runs s' !! i = Some r' /\ run_step i s r r' ev.
Proof.
  intros H Hi. unfold step in H.
  destruct (crashed s).
  { inversion H; subst. exists r. split; auto. stay. }
  replace s' with (fst (move inp s)) by now rewrite H.
  replace ev with (snd (move inp s)) by now rewrite H.
  clear H. destruct inp; simpl.
  - exists r. split; auto. stay.
  - exists r. split; [|stay].
    rewrite lookup_app_l; auto. eapply lookup_lt_Some; eauto.
  - unfold ServeHTTP. destruct (srv_closed s); simpl;
      exists r; (split; [auto|stay]).
  - now apply handoff_run.
  - destruct (runs s !! i0) eqn:Hj; [now apply work_run|].
    exists r. split; auto. stay.
  - destruct (runs s !! i0) eqn:Hj; [now apply take_run|].
    exists r. split; auto. stay.
  - destruct (handlers s !! h) as [hd|]; [|exists r; split; auto; stay].
    unfold serve. destruct (h_at hd);
      repeat match goal with
      | |- context [if ?b then _ else _] => destruct b
      end; simpl; exists r; (split; [auto|stay]).
  - unfold Done. destruct (done x) as [d|]; [|exists r; split; auto; stay].
    destruct (mem d (closed s)); simpl; [exists r; split; auto; stay|].
    destruct (waiting_on d (handlers s)) as [h|];
      [|exists r; split; auto; stay].
    destruct (handlers s !! h); simpl; exists r; (split; [auto|stay]).
Qed.

Lemma http_cancelled_mono inp s s' ev c :
  step inp s = (s', ev) ->
  mem c (cancelled s) = true -> mem c (cancelled s') = true.
Proof.
  intros H Hc. unfold step in H.
  destruct (crashed s); [now inversion H; subst|].
  replace s' with (fst (move inp s)) by now rewrite H.
  clear H. destruct inp; simpl; auto.
  - apply mem_cons. now right.
  - unfold ServeHTTP. now destruct (srv_closed s).
  - unfold handoff.
    repeat match goal with
    | |- context [match ?x with _ => _ end] => destruct x
    end; auto.
  - destruct (runs s !! i) as [r|]; auto. unfold work.
    repeat match goal with
    | |- context [match ?x with _ => _ end] => destruct x
    end; auto.
  - destruct (runs s !! i) as [r|]; auto. unfold take.
    repeat match goal with
    | |- context [match ?x with _ => _ end] => destruct x
    end; auto.
  - destruct (handlers s !! h) as [hd|]; auto. unfold serve.
    repeat match goal with
    | |- context [match ?x with _ => _ end] => destruct x
    end; auto.
  - unfold Done.
    repeat match goal with
    | |- context [match ?x with _ => _ end] => destruct x
    end; auto.
Qed.

Lemma http_run_step_same i s r r' ev :
  run_step i s r r' ev -> ctx r' = ctx r /\ out r' = out r.
Proof. now destruct 1. Qed.

Lemma http_stay_silent {T} i (ev : list (event T)) :
  (forall e, e ∈ ev -> about i e = false) ->
  count (is_emit i) ev = 0 /\ count (is_close i) ev = 0 /\
  count (is_release i) ev = 0.
Proof.
  intros H. repeat split.
  - eapply count_absent; eauto using emit_about.
  - eapply count_absent; eauto using close_about.
  - eapply count_absent; eauto using release_about.
Qed.

(** Once a goroutine has seen the signal it does not emit. *)
Lemma http_run_step_quiet i s r r' ev :
  run_step i s r r' ev ->
  quiet (at_pc r) = true -> mem (ctx r) (cancelled s) = true ->
  quiet (at_pc r') = true /\ count (is_emit i) ev = 0.
Proof.
  destruct 1 as [r ev Hev|r Hp|r Hp Hm|r x Hp|r x Hp|r Hp|r Hp|r Hp|r Hp|r Hp];
    intros Hq Hc; simpl; auto; try congruence;
    try (rewrite Hp in Hq; discriminate).
  split; auto. now apply http_stay_silent.
Qed.

Lemma http_quiet_exec i sched :
  forall s r,
    runs s !! i = Some r ->
    quiet (at_pc r) = true -> mem (ctx r) (cancelled s) = true ->
    count (is_emit i) (snd (exec sched s)) = 0.
Proof.
  induction sched as [|inp sched IH]; intros s r Hi Hq Hc; simpl; auto.
  destruct (step inp s) as [s1 e1] eqn:E.
  destruct (http_step_run _ _ _ _ _ _ E Hi) as (r' & Hi' & Hst).
  destruct (http_run_step_quiet _ _ _ _ _ Hst Hq Hc) as (Hq' & H0).
  destruct (http_run_step_same _ _ _ _ _ Hst) as (Hctx & _).
  specialize (IH s1 r' Hi' Hq').
  rewrite Hctx in IH.
  specialize (IH (http_cancelled_mono _ _ _ _ _ E Hc)).
  destruct (exec sched s1) as [s2 e2]. simpl in *.
  rewrite count_app. lia.
Qed.

(** A step emits nothing, or it completes the send of the iteration in
    progress and leaves the goroutine at the select. *)
Lemma http_run_step_once i s r r' ev :
  run_step i s r r' ev ->
  count (is_emit i) ev = 0 \/
  (count (is_emit i) ev = 1 /\ at_pc r' = Select).
Proof.
  destruct 1 as [r ev Hev| | | | | | | | |]; simpl; auto.
  - left. now apply http_stay_silent.
  - right. rewrite Nat.eqb_refl. auto.
Qed.

Lemma http_once_exec i sched :
  forall s r,
    runs s !! i = Some r -> mem (ctx r) (cancelled s) = true ->
    count (is_emit i) (snd (exec sched s)) <= 1.
Proof.
  induction sched as [|inp sched IH]; intros s r Hi Hc; simpl; auto.
  destruct (step inp s) as [s1 e1] eqn:E.
  destruct (http_step_run _ _ _ _ _ _ E Hi) as (r' & Hi' & Hst).
  destruct (http_run_step_same _ _ _ _ _ Hst) as (Hctx & _).
  assert (Hc' : mem (ctx r') (cancelled s1) = true).
  { rewrite Hctx. eapply http_cancelled_mono; eauto. }
  destruct (http_run_step_once _ _ _ _ _ Hst) as [H0|[H1 Hsel]].
  - specialize (IH s1 r' Hi' Hc').
    destruct (exec sched s1) as [s2 e2]. simpl in *.
    rewrite count_app. lia.
  - assert (Hq : quiet (at_pc r') = true) by now rewrite Hsel.
    pose proof (http_quiet_exec i sched s1 r' Hi' Hq Hc') as H0.
    destruct (exec sched s1) as [s2 e2]. simpl in *.
    rewrite count_app. lia.
Qed.

Ltac absent Hne :=
  simpl; rewrite ?list_lookup_insert_ne by exact Hne;
  (split; [silent|left; assumption]).

Ltac still_absent := simpl; (split; [silent|left; assumption]).

Lemma http_step_absent inp s s' ev i :
  step inp s = (s', ev) -> runs s !! i = None ->
  (forall e, e ∈ ev -> about i e = false) /\
  (runs s' !! i = None \/
   exists r', runs s' !! i = Some r' /\ at_pc r' = Select).
Proof.
  intros H Hi.
  assert (Hne : forall j rj, runs s !! j = Some rj -> j <> i)
    by (intros j rj Hj ->; congruence).
  unfold step in H.
  destruct (crashed s).
  { inversion H; subst. still_absent. }
  replace s' with (fst (move inp s)) by now rewrite H.
  replace ev with (snd (move inp s)) by now rewrite H.
  clear H. destruct inp; simpl.
  - still_absent.
  - split; [silent|].
    apply lookup_ge_None in Hi.
    destruct (decide (i = length (runs s))) as [->|Hn].
    + right. eexists. split.
      * rewrite lookup_app_r by lia. rewrite Nat.sub_diag. reflexivity.
      * reflexivity.
    + left. apply lookup_ge_None. rewrite length_app. simpl. lia.
  - unfold ServeHTTP. destruct (srv_closed s); still_absent.
  - unfold handoff.
    destruct (handlers s !! h) as [hd|]; [|still_absent].
    destruct (runs s !! i0) as [rj|] eqn:Hj; [|still_absent].
    specialize (Hne _ _ Hj).
    destruct (h_at hd); try (absent Hne).
    destruct (at_pc rj); try (absent Hne).
    destruct (mem (req_ch s) (closed s)); absent Hne.
  - destruct (runs s !! i0) as [rj|] eqn:Hj; [|still_absent].
    specialize (Hne _ _ Hj). unfold work.
    destruct (at_pc rj);
      repeat match goal with
      | |- context [if ?b then _ else _] => destruct b
      end; absent Hne.
  - destruct (runs s !! i0) as [rj|] eqn:Hj; [|still_absent].
    specialize (Hne _ _ Hj). unfold take.
    destruct (at_pc rj); absent Hne.
  - destruct (handlers s !! h) as [hd|]; [|still_absent].
    unfold serve. destruct (h_at hd);
      repeat match goal with
      | |- context [if ?b then _ else _] => destruct b
      end; still_absent.
  - unfold Done. destruct (done x) as [d|]; [|still_absent].
    destruct (mem d (closed s)); [still_absent|].
    destruct (waiting_on d (handlers s)) as [h|]; [|still_absent].
    destruct (handlers s !! h); still_absent.
Qed.

(** The books of run i: what a step shows of closing the output channel and
    of closing the server is what the position of the goroutine accounts
    for, and the server is shown closed only when the channel has been. *)
Lemma http_step_ledger inp s s' ev i :
  wf s -> step inp s = (s', ev) ->
  count (is_close i) ev + closes_of s i = closes_of s' i /\
  count (is_release i) ev + releases_of s i = releases_of s' i /\
  precedes (is_close i) (is_release i) (0 <? closes_of s i) ev = true.
Proof.
  intros Hwf H. unfold closes_of, releases_of.
  destruct (runs s !! i) as [r|] eqn:Hi.
  - destruct (http_step_run _ _ _ _ _ _ H Hi) as (r' & Hi' & Hst). rewrite Hi'.
    destruct Hst
      as [r ev Hev|r Hp|r Hp Hm|r x Hp|r x Hp|r Hp|r Hp|r Hp|r Hp Hm|r Hp];
      simpl; rewrite ?Hp; simpl; rewrite ?Nat.eqb_refl; auto.
    + destruct (http_stay_silent i ev Hev) as (_ & -> & ->).
      repeat split; auto.
      eapply precedes_absent; eauto using release_about.
    + exfalso.
      assert (mem (out r) (closed s) = false).
      { eapply not_closed_out; eauto. now rewrite Hp. }
      congruence.
  - destruct (http_step_absent _ _ _ _ _ H Hi) as (Hev & Hs').
    destruct (http_stay_silent i ev Hev) as (_ & -> & ->).
    assert (precedes (is_close i) (is_release i) (0 <? 0) ev = true)
      by (eapply precedes_absent; eauto using release_about).
    destruct Hs' as [->|(r' & -> & ->)]; auto.
Qed.

Lemma http_exec_ledger i sched :
  forall s, wf s ->
    count (is_close i) (snd (exec sched s)) + closes_of s i
      = closes_of (fst (exec sched s)) i /\
    count (is_release i) (snd (exec sched s)) + releases_of s i
      = releases_of (fst (exec sched s)) i /\
    precedes (is_close i) (is_release i) (0 <? closes_of s i)
      (snd (exec sched s)) = true.
Proof.
  induction sched as [|inp sched IH]; intros s Hwf; simpl; auto.
  destruct (step inp s) as [s1 e1] eqn:E.
  destruct (http_step_ledger _ _ _ _ i Hwf E) as (Hc & Hr & Hp).
  destruct (IH s1 (http_step_wf _ _ _ _ Hwf E)) as (Hc' & Hr' & Hp').
  destruct (exec sched s1) as [s2 e2]. simpl in *.
  rewrite !count_app, precedes_app, Hp. simpl.
  repeat split; try lia.
  replace (_ || _) with (0 <? closes_of s1 i); auto.
  rewrite <- Hc.
  destruct (closes_of s i), (count (is_close i) e1); reflexivity.
Qed.

Lemma http_closes_bound p : closes p <= 1.
Proof. destruct p; simpl; lia. Qed.

Lemma http_releases_bound p : releases p <= 1.
Proof. destruct p; simpl; lia. Qed.

(** *** At most one invocation of the Stage factory *)

Lemma calm_frame s s' :
  calm s ->
  req_ch s' = req_ch s -> closed s' = closed s -> runs s' = runs s ->
  calm s'.
Proof. unfold calm. intros H -> -> ->. exact H. Qed.

Lemma calm_with_run s j rj r' :
  calm s -> runs s !! j = Some rj ->
  panicking r' = false -> past_req (at_pc r') = past_req (at_pc rj) ->
  calm (with_run j r' s).
Proof.
  intros (Hlen & Hr & He) Hj Hp Heq. unfold calm; simpl.
  split; [now rewrite length_insert|]. split.
  - intros i r H.
    destruct (insert_lookup_cases _ _ _ _ _ _ Hj H) as [[-> ->]|[Hne Hi]].
    + rewrite Heq. split; auto. now apply (Hr j rj).
    + now apply (Hr i r).
  - intros E. apply (f_equal length) in E. rewrite length_insert in E.
    apply lookup_lt_Some in Hj. simpl in E. lia.
Qed.

Lemma calm_closed_other s c :
  calm s -> c <> req_ch s -> calm (with_closed c s).
Proof.
  intros (Hlen & Hr & He) Hne. unfold calm; simpl.
  assert (Hm : (if req_ch s =? c then true else mem (req_ch s) (closed s))
               = mem (req_ch s) (closed s)).
  { destruct (Nat.eqb_spec (req_ch s) c); congruence. }
  rewrite Hm. auto.
Qed.

Lemma calm_close_req s j rj :
  calm s -> runs s !! j = Some rj -> panicking rj = false ->
  calm (with_closed (req_ch s) (with_run j (goto DeferCloseOut rj) s)).
Proof.
  intros (Hlen & Hr & He) Hj Hp. unfold calm; simpl.
  rewrite Nat.eqb_refl.
  split; [now rewrite length_insert|]. split.
  - intros i r H.
    destruct (insert_lookup_cases _ _ _ _ _ _ Hj H) as [[-> ->]|[Hne Hi]].
    + simpl. tauto.
    + apply lookup_lt_Some in Hj. apply lookup_lt_Some in Hi. lia.
  - intros E. apply (f_equal length) in E. rewrite length_insert in E.
    apply lookup_lt_Some in Hj. simpl in E. lia.
Qed.

Lemma work_calm s i r :
  wf s -> calm s -> runs s !! i = Some r ->
  calm (fst (work i r s)) /\ count is_panic (snd (work i r s)) = 0.
Proof.
  intros Hwf Hcalm Hi.
  destruct (proj1 (proj2 Hcalm) i r Hi) as (Hpanic & Hreq).
  unfold work. destruct (at_pc r) eqn:Hp; simpl; auto.
  - destruct (mem (ctx r) (cancelled s)); simpl; split; auto;
      apply (calm_with_run s i r); auto; simpl; now rewrite Hp.
  - destruct (mem (req_ch s) (closed s)); simpl; split; auto.
    apply (calm_with_run s i r); auto; simpl; now rewrite Hp.
  - destruct (mem (req_ch s) (closed s)) eqn:Hm; simpl.
    + simpl in Hreq.
      assert (false = true) by now apply Hreq. discriminate.
    + split; auto. now apply calm_close_req.
  - rewrite (not_closed_out s i r Hwf Hi) by now rewrite Hp.
    simpl. split; auto.
    apply (calm_closed_other (with_run i (goto DeferServerClose r) s)).
    + apply (calm_with_run s i r); auto; simpl; now rewrite Hp.
    + simpl. destruct Hwf as (Hnd & _). eapply out_not_req; eauto.
  - split; auto.
    apply (calm_frame (with_run i (goto Exited r) s)); auto.
    apply (calm_with_run s i r); auto; simpl; now rewrite Hp.
Qed.

Lemma step_calm inp s s' ev :
  wf s -> calm s -> is_invoke inp = false -> step inp s = (s', ev) ->
  calm s' /\ count is_panic ev = 0.
Proof.
  intros Hwf Hcalm Hinv H. unfold step in H.
  destruct (crashed s); [now inversion H; subst|].
  replace s' with (fst (move inp s)) by now rewrite H.
  replace ev with (snd (move inp s)) by now rewrite H.
  clear H.
  assert (Hnp : forall i r, runs s !! i = Some r -> panicking r = false)
    by (intros i r Hi; now apply (proj1 (proj2 Hcalm) i r)).
  destruct inp; simpl; try discriminate.
  - split; [|reflexivity]. now apply (calm_frame s).
  - unfold ServeHTTP. destruct (srv_closed s); simpl;
      (split; [|reflexivity]); now apply (calm_frame s).
  - unfold handoff.
    destruct (handlers s !! h) as [hd|] eqn:Hh; [|now split].
    destruct (runs s !! i) as [r|] eqn:Hi; [|now split].
    destruct (h_at hd) eqn:Hhp; try (now split).
    destruct (at_pc r) eqn:Hp; try (now split).
    destruct (mem (req_ch s) (closed s)); simpl; [now split|].
    split; [|reflexivity].
    apply (calm_frame (with_run i (goto (Send
             {| Writer := h_req hd; Request := h_req hd;
                done := Some (h_done hd) |}) r) s)); auto.
    apply (calm_with_run s i r);
      [assumption|assumption|simpl; eauto|simpl; now rewrite Hp].
  - destruct (runs s !! i) eqn:Hi; [|now split]. now apply work_calm.
  - destruct (runs s !! i) as [r|] eqn:Hi; [|now split]. unfold take.
    destruct (at_pc r) eqn:Hp; simpl; try (now split).
    split; [|reflexivity].
    apply (calm_with_run s i r);
      [assumption|assumption|simpl; eauto|simpl; now rewrite Hp].
  - destruct (handlers s !! h) as [hd|] eqn:Hh; [|now split]. unfold serve.
    assert (Hne : h_done hd <> req_ch s).
    { destruct Hwf as (Hnd & _). eapply done_not_req; eauto. }
    destruct (h_at hd) eqn:Hp; simpl; try (now split).
    + destruct (mem (req_ch s) (closed s)); simpl; [|now split].
      split; [|reflexivity].
      apply (calm_closed_other (with_handler h (hgoto HPanicked hd) s));
        [now apply (calm_frame s)|assumption].
    + destruct (mem (h_done hd) (closed s)); simpl; [|now split].
      split; [|reflexivity]. now apply (calm_frame s).
    + destruct (mem (h_done hd) (closed s)); simpl;
        (split; [|reflexivity]).
      * now apply (calm_frame s).
      * apply (calm_closed_other (with_handler h (hgoto HReturned hd) s));
          [now apply (calm_frame s)|assumption].
  - unfold Done. destruct (done x) as [d|]; [|now split].
    destruct (mem d (closed s)); simpl.
    + split; [|reflexivity]. now apply (calm_frame s).
    + destruct (waiting_on d (handlers s)) as [h|]; [|now split].
      destruct (handlers s !! h); simpl; [|now split].
      split; [|reflexivity]. now apply (calm_frame s).
Qed.

Lemma step_runs_length inp s s' ev :
  is_invoke inp = false -> step inp s = (s', ev) ->
  length (runs s') = length (runs s).
Proof.
  intros Hinv H. unfold step in H.
  destruct (crashed s); [now inversion H; subst|].
  replace s' with (fst (move inp s)) by now rewrite H.
  clear H. destruct inp; simpl; try discriminate; auto;
    unfold ServeHTTP, handoff, work, take, serve, Done;
    repeat match goal with
    | |- context [match ?x with _ => _ end] => destruct x
    end; simpl; rewrite ?length_insert; reflexivity.
Qed.

Lemma invoke_calm s s' ev c :
  calm s -> runs s = [] -> step (Invoke c) s = (s', ev) ->
  calm s' /\ count is_panic ev = 0.
Proof.
  intros (Hlen & Hr & He) Hnil H. unfold step in H.
  destruct (crashed s); [inversion H; subst; split; auto; now split|].
  simpl in H. unfold Stage in H. inversion H; subst; clear H.
  split; auto. unfold calm; simpl. rewrite Hnil. simpl.
  split; [lia|]. split; [|discriminate].
  intros [|i] r Hi; simpl in Hi; [|discriminate].
  inversion Hi; subst; simpl. rewrite (He Hnil).
  split; [reflexivity|]. split; discriminate.
Qed.

Lemma exec_calm sched :
  forall s, wf s -> calm s ->
    length (runs s) + count is_invoke sched <= 1 ->
    count is_panic (snd (exec sched s)) = 0.
Proof.
  induction sched as [|inp sched IH]; intros s Hwf Hcalm Hk; simpl in *; auto.
  destruct (step inp s) as [s1 e1] eqn:E.
  assert (Hwf1 : wf s1) by (eapply http_step_wf; eauto).
  assert (H1 : calm s1 /\ count is_panic e1 = 0 /\
               length (runs s1) + count is_invoke sched <= 1).
  { destruct (is_invoke inp) eqn:Ei.
    - destruct inp; try discriminate.
      assert (Hnil : runs s = []) by (destruct (runs s); simpl in *; [auto|lia]).
      destruct (invoke_calm _ _ _ _ Hcalm Hnil E) as (? & ?).
      split; [assumption|split; [assumption|]].
      unfold step in E. destruct (crashed s).
      + inversion E; subst. rewrite Hnil. simpl. lia.
      + simpl in E. unfold Stage in E. inversion E; subst. simpl.
        rewrite Hnil. simpl. lia.
    - destruct (step_calm _ _ _ _ Hwf Hcalm Ei E) as (Hcalm1 & ?).
      split; [assumption|split; [assumption|]].
      rewrite (step_runs_length _ _ _ _ Ei E). lia. }
  destruct H1 as (Hcalm1 & Hp1 & Hk1).
  specialize (IH s1 Hwf1 Hcalm1 Hk1).
  destruct (exec sched s1) as [s2 e2]. simpl in *.
  rewrite count_app. lia.
Qed.

Lemma boot_calm ht : calm (boot ht).
Proof.
  unfold calm, boot; simpl. split; [lia|]. split; auto.
  intros i r H. discriminate.
Qed.

(** *** Handlers and their done channels *)

Lemma dones_nodup s : wf s -> NoDup (h_done <$> handlers s).
Proof.
  intros (Hnd & _). unfold chans in Hnd. apply NoDup_cons in Hnd.
  destruct Hnd as (_ & Hnd). apply NoDup_app in Hnd. tauto.
Qed.

Lemma outs_nodup s : wf s -> NoDup (out <$> runs s).
Proof.
  intros (Hnd & _). unfold chans in Hnd. apply NoDup_cons in Hnd.
  destruct Hnd as (_ & Hnd). apply NoDup_app in Hnd. tauto.
Qed.

(** The receiver a send on a done channel meets is the handler that made
    the channel. *)
Lemma waiting_on_unique hs :
  NoDup (h_done <$> hs) ->
  forall h hd, hs !! h = Some hd -> h_at hd = HWait ->
    waiting_on (h_done hd) hs = Some h.
Proof.
  induction hs as [|x hs IH]; intros Hnd h hd Hh Hp; [discriminate|].
  simpl in Hnd. apply NoDup_cons in Hnd. destruct Hnd as (Hx & Hnd).
  destruct h as [|h]; simpl in *.
  - inversion Hh; subst. now rewrite Hp, Nat.eqb_refl.
  - rewrite (IH Hnd h hd Hh Hp). simpl.
    destruct (h_at x); auto.
    destruct (Nat.eqb_spec (h_done x) (h_done hd)) as [Heq|]; auto.
    exfalso. apply Hx. rewrite Heq.
    apply list_elem_of_fmap. exists hd. split; auto.
    apply list_elem_of_lookup. eauto.
Qed.

Lemma step_handler inp s s' ev h hd :
  step inp s = (s', ev) -> handlers s !! h = Some hd ->
  exists hd', handlers s' !! h = Some hd' /\
              h_done hd' = h_done hd /\ h_req hd' = h_req hd.
Proof.
  intros H Hh.
  assert (Hlt : h < length (handlers s)) by (eapply lookup_lt_Some; eauto).
  assert (Hupd : forall k kd p, handlers s !! k = Some kd ->
            exists hd', <[k := hgoto p kd]> (handlers s) !! h = Some hd' /\
                        h_done hd' = h_done hd /\ h_req hd' = h_req hd).
  { intros k kd p Hk. destruct (decide (h = k)) as [->|Hne].
    - rewrite list_lookup_insert_eq by auto.
      assert (kd = hd) by congruence. subst. eauto.
    - rewrite list_lookup_insert_ne by auto. eauto. }
  unfold step in H.
  destruct (crashed s); [inversion H; subst; eauto|].
  replace s' with (fst (move inp s)) by now rewrite H.
  clear H. destruct inp; simpl; eauto.
  - unfold ServeHTTP. destruct (srv_closed s); simpl; eauto.
    exists hd. split; auto. rewrite lookup_app_l; auto.
  - unfold handoff.
    destruct (handlers s !! h0) as [kd|] eqn:Hk; eauto.
    destruct (runs s !! i); eauto.
    destruct (h_at kd); eauto. destruct (at_pc r); eauto.
    destruct (mem (req_ch s) (closed s)); simpl; eauto.
  - destruct (runs s !! i) as [r|]; eauto. unfold work.
    destruct (at_pc r);
      repeat match goal with
      | |- context [if ?b then _ else _] => destruct b
      end; simpl; eauto.
  - destruct (runs s !! i) as [r|]; eauto. unfold take.
    destruct (at_pc r); simpl; eauto.
  - destruct (handlers s !! h0) as [kd|] eqn:Hk; eauto. unfold serve.
    destruct (h_at kd);
      repeat match goal with
      | |- context [if ?b then _ else _] => destruct b
      end; simpl; eauto.
  - unfold Done. destruct (done x) as [d|]; eauto.
    destruct (mem d (closed s)); simpl; eauto.
    destruct (waiting_on d (handlers s)) as [k|]; eauto.
    destruct (handlers s !! k) as [kd|] eqn:Hk; simpl; eauto.
Qed.

Lemma exec_handler sched :
  forall s h hd,
    handlers s !! h = Some hd ->
    exists hd', handlers (fst (exec sched s)) !! h = Some hd' /\
                h_done hd' = h_done hd /\ h_req hd' = h_req hd.
Proof.
  induction sched as [|inp sched IH]; intros s h hd Hh; simpl; eauto.
  destruct (step inp s) as [s1 e1] eqn:E.
  destruct (step_handler _ _ _ _ _ _ E Hh) as (hd1 & Hh1 & Hd1 & Hr1).
  destruct (IH s1 h hd1 Hh1) as (hd2 & Hh2 & Hd2 & Hr2).
  destruct (exec sched s1). simpl in *.
  exists hd2. repeat split; congruence.
Qed.

(** Done meets the handler that waits on the channel, and only it. *)
Lemma Done_unblocks s h hd x :
  wf s -> crashed s = false ->
  handlers s !! h = Some hd -> h_at hd = HWait ->
  done x = Some (h_done hd) ->
  step (CallDone x) s = (with_handler h (hgoto HDefer hd) s, [EUnblock h]).
Proof.
  intros Hwf Hc Hh Hp Hx. unfold step. rewrite Hc. simpl. unfold Done.
  rewrite Hx.
  rewrite (not_closed_done s h hd Hwf Hh) by now rewrite Hp.
  rewrite (waiting_on_unique _ (dones_nodup s Hwf) h hd Hh Hp).
  now rewrite Hh.
Qed.

(** The unblocked handler returns: its deferred close runs. *)
Lemma handler_returns s h hd :
  wf s -> crashed s = false ->
  handlers s !! h = Some hd -> h_at hd = HDefer ->
  step (Serve h) s
  = (with_closed (h_done hd) (with_handler h (hgoto HReturned hd) s), []).
Proof.
  intros Hwf Hc Hh Hp. unfold step. rewrite Hc. simpl. rewrite Hh.
  unfold serve. rewrite Hp.
  now rewrite (not_closed_done s h hd Hwf Hh) by now rewrite Hp.
Qed.

(** Done on the wrapper of a handler that has returned panics. *)
Lemma Done_again_panics s h hd x :
  wf s -> crashed s = false ->
  handlers s !! h = Some hd -> h_at hd = HReturned ->
  done x = Some (h_done hd) ->
  step (CallDone x) s = (with_crashed true s, []).
Proof.
  intros Hwf Hc Hh Hp Hx. unfold step. rewrite Hc. simpl. unfold Done.
  rewrite Hx.
  destruct Hwf as (_ & _ & _ & _ & Hhs).
  assert (Hm : mem (h_done hd) (closed s) = true).
  { apply (Hhs h hd Hh). now rewrite Hp. }
  now rewrite Hm.
Qed.

(** The handoff that produces a wrapper. *)
Lemma handoff_wrapper s h i hd r :
  crashed s = false ->
  handlers s !! h = Some hd -> h_at hd = HSend ->
  runs s !! i = Some r -> at_pc r = RecvReq ->
  mem (req_ch s) (closed s) = false ->
  step (Handoff h i) s
  = (with_handler h (hgoto HWait hd)
       (with_run i
          (goto (Send {| Writer := h_req hd; Request := h_req hd;
                         done := Some (h_done hd) |}) r) s), []).
Proof.
  intros Hc Hh Hhp Hi Hp Hm. unfold step. rewrite Hc. simpl.
  unfold handoff. now rewrite Hh, Hi, Hhp, Hp, Hm.
Qed.

(** Every run was started by one invocation of the Stage factory. *)
Lemma http_step_started inp s s' ev :
  step inp s = (s', ev) ->
  length (runs s') = length (runs s) + count is_start ev.
Proof.
  intros H. unfold step in H.
  destruct (crashed s); [inversion H; subst; simpl; lia|].
  replace s' with (fst (move inp s)) by now rewrite H.
  replace ev with (snd (move inp s)) by now rewrite H.
  clear H. destruct inp; simpl;
    unfold ServeHTTP, handoff, work, take, serve, Done;
    repeat match goal with
    | |- context [match ?x with _ => _ end] => destruct x
    end; simpl; rewrite ?length_insert, ?length_app; simpl; lia.
Qed.

Lemma http_exec_started sched :
  forall s,
    length (runs (fst (exec sched s)))
    = length (runs s) + count is_start (snd (exec sched s)).
Proof.
  induction sched as [|inp sched IH]; intros s; simpl; [lia|].
  destruct (step inp s) as [s1 e1] eqn:E.
  pose proof (http_step_started _ _ _ _ E) as H1.
  specialize (IH s1).
  destruct (exec sched s1). simpl in *. rewrite count_app. lia.
Qed.

(** One invocation of the Stage factory, in a process that is alive. *)
Lemma http_invoke_starts_run s c :
  wf s -> crashed s = false ->
  starts_run c s (fst (step (Invoke c) s)) (snd (step (Invoke c) s)).
Proof.
  intros (_ & Hlt & Hcl & _) Hc. unfold step. rewrite Hc. simpl.
  unfold starts_run. simpl.
  split; [reflexivity|]. split; [reflexivity|].
  split.
  - intros Hin. apply Hlt in Hin. lia.
  - split; [|now auto 10].
    destruct (mem (next_chan s) (closed s)) eqn:Hm; auto.
    apply Hcl in Hm. lia.
Qed.

Lemma http_crashed_stays sched :
  forall s, crashed s = true -> exec sched s = (s, []).
Proof.
  induction sched as [|inp sched IH]; intros s Hc; simpl; [reflexivity|].
  unfold step. rewrite Hc. now rewrite (IH s Hc).
Qed.

Lemma http_step_invoked inp s s' ev :
  crashed s = false -> step inp s = (s', ev) ->
  count is_start ev = if is_invoke inp then 1 else 0.
Proof.
  intros Hc H. unfold step in H. rewrite Hc in H.
  replace ev with (snd (move inp s)) by now rewrite H.
  clear H. destruct inp; simpl;
    unfold ServeHTTP, handoff, work, take, serve, Done;
    repeat match goal with
    | |- context [match ?x with _ => _ end] => destruct x
    end; reflexivity.
Qed.

(** As long as no panic has ended the process, there are as many runs as
    invocations of the Stage factory. *)
Lemma http_exec_invoked sched :
  forall s, crashed (fst (exec sched s)) = false ->
    length (runs (fst (exec sched s)))
    = length (runs s) + count is_invoke sched.
Proof.
  induction sched as [|inp sched IH]; intros s Halive; simpl; [lia|].
  destruct (crashed s) eqn:Hc.
  { rewrite (http_crashed_stays (inp :: sched) s Hc) in Halive.
    simpl in Halive. congruence. }
  simpl in Halive. destruct (step inp s) as [s1 e1] eqn:E.
  pose proof (http_step_started _ _ _ _ E) as H1.
  pose proof (http_step_invoked _ _ _ _ Hc E) as H2.
  specialize (IH s1).
  destruct (exec sched s1) as [s2 e2]. simpl in *.
  specialize (IH Halive). destruct (is_invoke inp); lia.
Qed.

End HttpFacts.

(** ** The claims about the triggers *)

(** C4.  NewTicker builds its ticker with a period of one second whatever
    the duration it is given, and nothing the program does changes that
    period: two tickers built with different durations are the same value,
    and programs started from them run alike under every schedule. *)
Theorem NewTicker_ignores_duration :
  forall (d d' : time.Duration) (sched : list Ticker.input),
    Ticker.NewTicker d
    = Some {| Ticker.embedded :=
                {| time.period := time.Second; time.C := None;
                   time.stopped := false |} |} /\
    Ticker.NewTicker d = Ticker.NewTicker d' /\
    option_map (fun t => Ticker.exec sched (Ticker.boot t))
      (Ticker.NewTicker d)
    = option_map (fun t => Ticker.exec sched (Ticker.boot t))
        (Ticker.NewTicker d') /\
    option_map
      (fun t =>
         time.period (Ticker.timer (fst (Ticker.exec sched (Ticker.boot t)))))
      (Ticker.NewTicker d)
    = Some time.Second.
Proof.
  intros d d' sched. split; [reflexivity|]. split; [reflexivity|].
  split; [reflexivity|].
  simpl. f_equal. apply TickerFacts.exec_period.
Qed.

Lemma through_closed {W A C} (c : @chord.Chain W A C) :
  chord.through c [] = [].
Proof. induction c; simpl; auto. Qed.

Lemma RunFlow_nothing {W A C} (c : @chord.Chain W A C) onS onE (w : W) :
  chord.RunFlow (stage_of []) (chord.Build_Flow onS onE (chord.build c)) w
  = (tt, w).
Proof.
  unfold chord.RunFlow, conduit.NewConsumer. simpl.
  unfold conduit.bind at 1.
  rewrite (build_run c (stage_of []) w [] w eq_refl).
  now rewrite through_closed.
Qed.

(** C5, as stated, fails: the context is cancelled before the ticker
    trigger has emitted anything, while its goroutine already waits for the
    tick; the tick is emitted all the same. *)
Lemma cancel_before_first_event_counterexample :
  ~ (forall (t : Ticker.Ticker) (sched : list Ticker.input) (i : nat)
            (r : Ticker.run) (tr1 tr2 : list (event time.Time)),
        Ticker.runs (fst (Ticker.exec sched (Ticker.boot t))) !! i = Some r ->
        snd (Ticker.exec sched (Ticker.boot t))
        = tr1 ++ ECancel (Ticker.ctx r) :: tr2 ->
        emitted i tr1 = [] ->
        emitted i (snd (Ticker.exec sched (Ticker.boot t))) = []).
Proof.
  intros H.
  specialize
    (H {| Ticker.embedded :=
            {| time.period := time.Second; time.C := None;
               time.stopped := false |} |}
       [Ticker.Invoke 7; Ticker.Work 0; Ticker.Cancel 7; Ticker.Fire;
        Ticker.Work 0; Ticker.Take 0]
       0
       {| Ticker.ctx := 7; Ticker.out := 0; Ticker.at_pc := Ticker.Select;
          Ticker.panicking := false |}
       [EStart 0 0] [EEmit 0 (conduit.Ok 7 1000000000%Z)]
       eq_refl eq_refl eq_refl).
  discriminate H.
Qed.

(** C5, amended.  When the goroutine of a run of the ticker trigger stands
    at its select with the context cancelled and has emitted nothing yet (as
    it does when the context was cancelled before the Stage factory was
    invoked), the run emits nothing under any schedule; once the goroutine
    has been given three steps it has closed its channel, stopped the ticker
    and exited; and RunFlow over what the run emitted, through any chain of
    stages, invokes no handler and returns. *)
Theorem cancelled_at_the_check_emits_nothing :
  forall (d : time.Duration) (t : Ticker.Ticker)
         (pre sched : list Ticker.input) (i : nat) (r : Ticker.run),
    Ticker.NewTicker d = Some t ->
    Ticker.runs (fst (Ticker.exec pre (Ticker.boot t))) !! i = Some r ->
    Ticker.at_pc r = Ticker.Select ->
    mem (Ticker.ctx r)
        (Ticker.cancelled (fst (Ticker.exec pre (Ticker.boot t)))) = true ->
    emitted i (snd (Ticker.exec pre (Ticker.boot t))) = [] ->
    3 <= count (TickerInv.is_work i) sched ->
    (forall any,
        emitted i (snd (Ticker.exec (pre ++ any) (Ticker.boot t))) = []) /\
    count (is_close i) (snd (Ticker.exec (pre ++ sched) (Ticker.boot t))) = 1 /\
    mem (Ticker.out r)
        (Ticker.closed (fst (Ticker.exec (pre ++ sched) (Ticker.boot t))))
    = true /\
    time.stopped
      (Ticker.timer (fst (Ticker.exec (pre ++ sched) (Ticker.boot t))))
    = true /\
    (exists r',
        Ticker.runs (fst (Ticker.exec (pre ++ sched) (Ticker.boot t))) !! i
        = Some r' /\ Ticker.at_pc r' = Ticker.Exited) /\
    (forall (W Out : Type) (c : @chord.Chain W time.Time Out) onS onE (w : W),
        chord.RunFlow
          (stage_of
             (emitted i (snd (Ticker.exec (pre ++ sched) (Ticker.boot t)))))
          (chord.Build_Flow onS onE (chord.build c)) w
        = (tt, w)).
Proof.
  intros d t pre sched i r _ Hi Hp Hc Hpre Hk.
  pose proof (TickerFacts.ticker_boot_wf t) as Hwf0.
  pose proof (TickerFacts.ticker_exec_wf pre _ Hwf0) as Hwf.
  assert (Hq : TickerInv.quiet (Ticker.at_pc r) = true) by now rewrite Hp.
  assert (Hnone : forall any,
             emitted i (snd (Ticker.exec (pre ++ any) (Ticker.boot t))) = []).
  { intros any. rewrite TickerFacts.ticker_exec_app.
    pose proof (TickerFacts.ticker_quiet_exec i any _ r Hi Hq Hc) as H0.
    destruct (Ticker.exec pre (Ticker.boot t)) as [s1 t1]. simpl in *.
    destruct (Ticker.exec any s1) as [s2 t2]. simpl in *.
    rewrite emitted_app, Hpre. simpl. now apply emitted_none. }
  assert (Hk' : TickerInv.remaining (Ticker.at_pc r)
                <= count (TickerInv.is_work i) sched)
    by (rewrite Hp; exact Hk).
  destruct (TickerFacts.finish_exec i sched _ r Hwf Hi Hq Hc Hk')
    as (r' & Hi' & Hex & Ho).
  pose proof (TickerFacts.ticker_exec_wf (pre ++ sched) _ Hwf0) as Hwf'.
  destruct (TickerFacts.ticker_exec_ledger i (pre ++ sched) _ Hwf0) as (Hcl & _ & _).
  assert (Hfin : fst (Ticker.exec (pre ++ sched) (Ticker.boot t))
                 = fst (Ticker.exec sched
                          (fst (Ticker.exec pre (Ticker.boot t))))).
  { rewrite TickerFacts.ticker_exec_app.
    destruct (Ticker.exec pre (Ticker.boot t)) as [s1 t1]. simpl.
    now destruct (Ticker.exec sched s1). }
  rewrite <- Hfin in Hi'.
  destruct Hwf' as (_ & _ & Hok & _).
  destruct (Hok i r' Hi') as (_ & _ & Hclosed & Hstop).
  split; [exact Hnone|].
  split.
  { unfold TickerInv.closes_of in Hcl. rewrite Hi', Hex in Hcl.
    simpl in Hcl. lia. }
  split.
  { rewrite <- Ho. apply Hclosed. now rewrite Hex. }
  split; [now apply Hstop|].
  split; [eauto|].
  intros W Out c onS onE w. rewrite Hnone. apply RunFlow_nothing.
Qed.

Lemma cancelled_at_the_check_emits_nothing_witness :
  count (is_close 0)
    (snd (Ticker.exec
            ([Ticker.Cancel 7; Ticker.Invoke 7]
             ++ [Ticker.Fire; Ticker.Work 0; Ticker.Take 0; Ticker.Work 0;
                 Ticker.Fire; Ticker.Work 0])
            (Ticker.boot
               {| Ticker.embedded :=
                    {| time.period := time.Second; time.C := None;
                       time.stopped := false |} |}))) = 1.
Proof.
  exact (proj1 (proj2
    (cancelled_at_the_check_emits_nothing 5%Z
       {| Ticker.embedded :=
            {| time.period := time.Second; time.C := None;
               time.stopped := false |} |}
       [Ticker.Cancel 7; Ticker.Invoke 7]
       [Ticker.Fire; Ticker.Work 0; Ticker.Take 0; Ticker.Work 0;
        Ticker.Fire; Ticker.Work 0]
       0
       {| Ticker.ctx := 7; Ticker.out := 0; Ticker.at_pc := Ticker.Select;
          Ticker.panicking := false |}
       eq_refl eq_refl eq_refl eq_refl eq_refl
       (le_n 3)))).
Defined.

(** C6, as stated, fails: the signal fires while the goroutine of the
    ticker trigger waits for the tick in the default branch of its select;
    the tick that arrives afterwards is still emitted. *)
Lemma emission_after_cancel_counterexample :
  ~ (forall (t : Ticker.Ticker) (pre sched : list Ticker.input) (i : nat)
            (r : Ticker.run),
        Ticker.runs (fst (Ticker.exec pre (Ticker.boot t))) !! i = Some r ->
        mem (Ticker.ctx r)
            (Ticker.cancelled (fst (Ticker.exec pre (Ticker.boot t)))) = true ->
        count (is_emit i)
          (snd (Ticker.exec sched (fst (Ticker.exec pre (Ticker.boot t)))))
        = 0).
Proof.
  intros H.
  specialize
    (H {| Ticker.embedded :=
            {| time.period := time.Second; time.C := None;
               time.stopped := false |} |}
       [Ticker.Invoke 7; Ticker.Work 0; Ticker.Cancel 7]
       [Ticker.Fire; Ticker.Work 0; Ticker.Take 0]
       0
       {| Ticker.ctx := 7; Ticker.out := 0; Ticker.at_pc := Ticker.RecvTick;
          Ticker.panicking := false |}
       eq_refl eq_refl).
  discriminate H.
Qed.

(** C6, amended.  In both triggers the goroutine is back at its select
    after every emission and returns from there when the signal has fired;
    so once the signal has fired a run emits at most one more Outcome, that
    of the iteration in progress, and none when the goroutine stands outside
    the default branch. *)
Theorem at_most_one_emission_after_cancel :
  (forall (s : Ticker.state) (sched : list Ticker.input) (i : nat)
          (r : Ticker.run),
      Ticker.runs s !! i = Some r ->
      mem (Ticker.ctx r) (Ticker.cancelled s) = true ->
      count (is_emit i) (snd (Ticker.exec sched s)) <= 1 /\
      (TickerInv.quiet (Ticker.at_pc r) = true ->
       count (is_emit i) (snd (Ticker.exec sched s)) = 0)) /\
  (forall (s : Http.state) (sched : list Http.input) (i : nat)
          (r : Http.run),
      Http.runs s !! i = Some r ->
      mem (Http.ctx r) (Http.cancelled s) = true ->
      count (is_emit i) (snd (Http.exec sched s)) <= 1 /\
      (HttpInv.quiet (Http.at_pc r) = true ->
       count (is_emit i) (snd (Http.exec sched s)) = 0)) /\
  (forall (s : Ticker.state) (i : nat) (r : Ticker.run) v,
      Ticker.at_pc r = Ticker.Send v ->
      Ticker.take i r s
      = (Ticker.with_run i (Ticker.goto Ticker.Select r) s,
         [EEmit i (conduit.Ok (Ticker.ctx r) v)])) /\
  (forall (s : Http.state) (i : nat) (r : Http.run) x,
      Http.at_pc r = Http.Send x ->
      Http.take i r s
      = (Http.with_run i (Http.goto Http.Select r) s,
         [EEmit i (conduit.Ok (Http.ctx r) x)])) /\
  (forall (s : Ticker.state) (i : nat) (r : Ticker.run),
      Ticker.at_pc r = Ticker.Select ->
      mem (Ticker.ctx r) (Ticker.cancelled s) = true ->
      Ticker.work i r s
      = (Ticker.with_run i (Ticker.goto Ticker.DeferClose r) s, [])) /\
  (forall (s : Http.state) (i : nat) (r : Http.run),
      Http.at_pc r = Http.Select ->
      mem (Http.ctx r) (Http.cancelled s) = true ->
      Http.work i r s
      = (Http.with_run i (Http.goto Http.DeferCloseReq r) s, [])).
Proof.
  split; [|split; [|split; [|split; [|split]]]].
  - intros s sched i r Hi Hc. split.
    + eapply TickerFacts.ticker_once_exec; eauto.
    + intros Hq. eapply TickerFacts.ticker_quiet_exec; eauto.
  - intros s sched i r Hi Hc. split.
    + eapply HttpFacts.http_once_exec; eauto.
    + intros Hq. eapply HttpFacts.http_quiet_exec; eauto.
  - intros s i r v Hp. unfold Ticker.take. now rewrite Hp.
  - intros s i r x Hp. unfold Http.take. now rewrite Hp.
  - intros s i r Hp Hc. unfold Ticker.work. now rewrite Hp, Hc.
  - intros s i r Hp Hc. unfold Http.work. now rewrite Hp, Hc.
Qed.

Lemma at_most_one_emission_after_cancel_witness :
  count (is_emit 0)
    (snd (Ticker.exec
            [Ticker.Fire; Ticker.Work 0; Ticker.Take 0; Ticker.Fire;
             Ticker.Work 0; Ticker.Work 0; Ticker.Take 0]
            (fst (Ticker.exec
                    [Ticker.Invoke 7; Ticker.Work 0; Ticker.Cancel 7]
                    (Ticker.boot
                       {| Ticker.embedded :=
                            {| time.period := time.Second; time.C := None;
                               time.stopped := false |} |}))))) <= 1.
Proof.
  exact (proj1
    (proj1 at_most_one_emission_after_cancel
       (fst (Ticker.exec
               [Ticker.Invoke 7; Ticker.Work 0; Ticker.Cancel 7]
               (Ticker.boot
                  {| Ticker.embedded :=
                       {| time.period := time.Second; time.C := None;
                          time.stopped := false |} |})))
       [Ticker.Fire; Ticker.Work 0; Ticker.Take 0; Ticker.Fire;
        Ticker.Work 0; Ticker.Work 0; Ticker.Take 0]
       0
       {| Ticker.ctx := 7; Ticker.out := 0; Ticker.at_pc := Ticker.RecvTick;
          Ticker.panicking := false |}
       eq_refl eq_refl)).
Defined.

(** C7, as stated, fails for both triggers: the deferred calls run last
    in, first out, so the output channel is closed before the ticker is
    stopped and before the server is closed. *)
Lemma close_before_release_counterexample :
  ~ (forall (t : Ticker.Ticker) (sched : list Ticker.input) (i : nat),
        precedes (is_release i) (is_close i) false
          (snd (Ticker.exec sched (Ticker.boot t))) = true) /\
  ~ (forall (ht : Http.Http) (sched : list Http.input) (i : nat),
        precedes (is_release i) (is_close i) false
          (snd (Http.exec sched (Http.boot ht))) = true).
Proof.
  split; intros H.
  - specialize
      (H {| Ticker.embedded :=
              {| time.period := time.Second; time.C := None;
                 time.stopped := false |} |}
         [Ticker.Cancel 7; Ticker.Invoke 7; Ticker.Work 0; Ticker.Work 0;
          Ticker.Work 0]
         0).
    discriminate H.
  - specialize
      (H {| Http.Http_ch := 0 |}
         [Http.Cancel 7; Http.Invoke 7; Http.Work 0; Http.Work 0;
          Http.Work 0; Http.Work 0]
         0).
    discriminate H.
Qed.

(** C7, amended.  Under every schedule a run of either trigger closes its
    output channel at most once and releases the trigger's resource at most
    once, exactly once each when its goroutine has exited, and the release
    comes after the close of the channel. *)
Theorem output_closed_once_then_released :
  forall (t : Ticker.Ticker) (ht : Http.Http)
         (tsched : list Ticker.input) (hsched : list Http.input) (i : nat),
    (count (is_close i) (snd (Ticker.exec tsched (Ticker.boot t)))
     = TickerInv.closes_of (fst (Ticker.exec tsched (Ticker.boot t))) i /\
     count (is_release i) (snd (Ticker.exec tsched (Ticker.boot t)))
     = TickerInv.releases_of (fst (Ticker.exec tsched (Ticker.boot t))) i /\
     TickerInv.releases_of (fst (Ticker.exec tsched (Ticker.boot t))) i
     <= TickerInv.closes_of (fst (Ticker.exec tsched (Ticker.boot t))) i
     <= 1 /\
     precedes (is_close i) (is_release i) false
       (snd (Ticker.exec tsched (Ticker.boot t))) = true) /\
    (count (is_close i) (snd (Http.exec hsched (Http.boot ht)))
     = HttpInv.closes_of (fst (Http.exec hsched (Http.boot ht))) i /\
     count (is_release i) (snd (Http.exec hsched (Http.boot ht)))
     = HttpInv.releases_of (fst (Http.exec hsched (Http.boot ht))) i /\
     HttpInv.releases_of (fst (Http.exec hsched (Http.boot ht))) i
     <= HttpInv.closes_of (fst (Http.exec hsched (Http.boot ht))) i
     <= 1 /\
     precedes (is_close i) (is_release i) false
       (snd (Http.exec hsched (Http.boot ht))) = true).
Proof.
  intros t ht tsched hsched i. split.
  - destruct (TickerFacts.ticker_exec_ledger i tsched _ (TickerFacts.ticker_boot_wf t))
      as (Hc & Hr & Hp).
    unfold TickerInv.closes_of, TickerInv.releases_of in *.
    simpl in Hc, Hr, Hp. rewrite Nat.add_0_r in Hc, Hr.
    repeat split; auto;
      destruct (Ticker.runs (fst (Ticker.exec tsched (Ticker.boot t))) !! i)
        as [r|]; try lia; destruct (Ticker.at_pc r); simpl; lia.
  - destruct (HttpFacts.http_exec_ledger i hsched _ (HttpFacts.http_boot_wf ht))
      as (Hc & Hr & Hp).
    unfold HttpInv.closes_of, HttpInv.releases_of in *.
    simpl in Hc, Hr, Hp. rewrite Nat.add_0_r in Hc, Hr.
    repeat split; auto;
      destruct (Http.runs (fst (Http.exec hsched (Http.boot ht))) !! i)
        as [r|]; try lia; destruct (Http.at_pc r); simpl; lia.
Qed.

(** C8, as stated, fails.  The runs of one HTTP trigger share its request
    channel: the deferred close(ht.ch) of a second run finds the channel
    closed by the first, panics, and the process ends.  The runs of one
    ticker trigger share its ticker: when the first has returned, the ticker
    is stopped, while the second, whose context was never cancelled, still
    waits for a tick. *)
Lemma second_invocation_counterexample :
  ~ (forall (ht : Http.Http) (sched : list Http.input),
        count is_panic (snd (Http.exec sched (Http.boot ht))) = 0) /\
  Http.crashed
    (fst (Http.exec
            [Http.Invoke 7; Http.Invoke 7; Http.Cancel 7;
             Http.Work 0; Http.Work 0; Http.Work 0; Http.Work 0;
             Http.Work 1; Http.Work 1; Http.Work 1; Http.Work 1]
            (Http.boot {| Http.Http_ch := 0 |}))) = true /\
  (let s :=
     fst (Ticker.exec
            [Ticker.Invoke 7; Ticker.Invoke 8; Ticker.Work 0; Ticker.Work 1;
             Ticker.Cancel 7; Ticker.Fire; Ticker.Work 0; Ticker.Take 0;
             Ticker.Work 0; Ticker.Work 0; Ticker.Work 0]
            (Ticker.boot
               {| Ticker.embedded :=
                    {| time.period := time.Second; time.C := None;
                       time.stopped := false |} |})) in
   time.stopped (Ticker.timer s) = true /\
   mem 8 (Ticker.cancelled s) = false /\
   Ticker.runs s !! 1
   = Some {| Ticker.ctx := 8; Ticker.out := 1;
             Ticker.at_pc := Ticker.RecvTick; Ticker.panicking := false |}).
Proof.
  split; [|split; [reflexivity|repeat split]].
  intros H.
  specialize
    (H {| Http.Http_ch := 0 |}
       [Http.Invoke 7; Http.Invoke 7; Http.Cancel 7;
        Http.Work 0; Http.Work 0; Http.Work 0; Http.Work 0;
        Http.Work 1; Http.Work 1]).
  discriminate H.
Qed.

(** C8, amended.  Each invocation of the Stage factory of a trigger, in a
    process that no panic has ended, starts a new run: it adds one run, at
    its select with the context given, whose channel is fresh (no run has
    it, for the HTTP trigger it is not ht.ch nor a done channel either, and
    it is not closed), and there are as many runs as invocations, all with
    different channels.  The invocation makes no ticker, server or request
    channel: the runs of one trigger share them.  For the ticker trigger no
    deferred call ever panics, whatever the number of invocations; for the
    HTTP trigger none does when the factory is invoked at most once. *)
Theorem one_run_per_invocation :
  forall (t : Ticker.Ticker) (ht : Http.Http)
         (tsched : list Ticker.input) (hsched : list Http.input)
         (c : Context),
    (TickerInv.starts_run c
       (fst (Ticker.exec tsched (Ticker.boot t)))
       (fst (Ticker.step (Ticker.Invoke c)
               (fst (Ticker.exec tsched (Ticker.boot t)))))
       (snd (Ticker.step (Ticker.Invoke c)
               (fst (Ticker.exec tsched (Ticker.boot t)))))
     /\ length (Ticker.runs (fst (Ticker.exec tsched (Ticker.boot t))))
        = count TickerInv.is_invoke tsched
     /\ NoDup (Ticker.out <$>
               Ticker.runs (fst (Ticker.exec tsched (Ticker.boot t))))
     /\ count is_panic (snd (Ticker.exec tsched (Ticker.boot t))) = 0
     /\ Ticker.crashed (fst (Ticker.exec tsched (Ticker.boot t))) = false) /\
    (Http.crashed (fst (Http.exec hsched (Http.boot ht))) = false ->
     HttpInv.starts_run c
       (fst (Http.exec hsched (Http.boot ht)))
       (fst (Http.step (Http.Invoke c)
               (fst (Http.exec hsched (Http.boot ht)))))
       (snd (Http.step (Http.Invoke c)
               (fst (Http.exec hsched (Http.boot ht)))))
     /\ length (Http.runs (fst (Http.exec hsched (Http.boot ht))))
        = count HttpInv.is_invoke hsched) /\
    NoDup (HttpInv.chans (fst (Http.exec hsched (Http.boot ht)))) /\
    (count HttpInv.is_invoke hsched <= 1 ->
     count is_panic (snd (Http.exec hsched (Http.boot ht))) = 0).
Proof.
  intros t ht tsched hsched c.
  pose proof (TickerFacts.ticker_exec_wf tsched _ (TickerFacts.ticker_boot_wf t)) as Hwt.
  pose proof (HttpFacts.http_exec_wf hsched _ (HttpFacts.http_boot_wf ht)) as Hwh.
  split; [|split; [|split]].
  - split; [now apply TickerFacts.ticker_invoke_starts_run|].
    split; [exact (TickerFacts.exec_invoked tsched _ (TickerFacts.ticker_boot_wf t))|].
    split; [now destruct Hwt as (_ & ? & _)|].
    split; [apply TickerFacts.exec_no_panic, TickerFacts.ticker_boot_wf|].
    now destruct Hwt as (? & _).
  - intros Halive.
    split; [now apply HttpFacts.http_invoke_starts_run|].
    exact (HttpFacts.http_exec_invoked hsched (Http.boot ht) Halive).
  - now destruct Hwh as (? & _).
  - intros Hk. apply HttpFacts.exec_calm.
    + apply HttpFacts.http_boot_wf.
    + apply HttpFacts.boot_calm.
    + simpl. exact Hk.
Qed.

Lemma one_run_per_invocation_witness :
  (Http.runs
     (fst (Http.step (Http.Invoke 9)
             (fst (Http.exec
                     [Http.Invoke 7; Http.Work 0; Http.Incoming 1;
                      Http.Handoff 0 0; Http.Take 0]
                     (Http.boot {| Http.Http_ch := 0 |})))))
   = [{| Http.ctx := 7; Http.out := 1; Http.at_pc := Http.Select;
         Http.panicking := false |};
      {| Http.ctx := 9; Http.out := 3; Http.at_pc := Http.Select;
         Http.panicking := false |}]) /\
  length
    (Http.runs
       (fst (Http.exec
               [Http.Invoke 7; Http.Work 0; Http.Incoming 1;
                Http.Handoff 0 0; Http.Take 0]
               (Http.boot {| Http.Http_ch := 0 |})))) = 1 /\
  count is_panic
    (snd (Http.exec
            [Http.Invoke 7; Http.Work 0; Http.Incoming 1; Http.Handoff 0 0;
             Http.Take 0]
            (Http.boot {| Http.Http_ch := 0 |}))) = 0.
Proof.
  pose proof
    (one_run_per_invocation
       {| Ticker.embedded :=
            {| time.period := time.Second; time.C := None;
               time.stopped := false |} |}
       {| Http.Http_ch := 0 |}
       [Ticker.Invoke 7]
       [Http.Invoke 7; Http.Work 0; Http.Incoming 1; Http.Handoff 0 0;
        Http.Take 0]
       9) as (_ & Hstart & _ & Hcalm).
  destruct (Hstart eq_refl) as ((Hruns & _) & Hlen).
  split; [exact Hruns|]. split; [exact Hlen|]. exact (Hcalm (le_n 1)).
Defined.

(** C9.  When a handler hands its wrapper to a run of the trigger, the run
    holds the wrapper and the handler waits on its done channel.  From then
    on, at any time at which the handler still waits (in particular right
    after the handoff, before the wrapper has been emitted), Done on the
    wrapper completes without a panic, moves that handler and nothing else,
    no other handler has the same done channel, and the handler returns at
    its next step, closing the channel; a second Done on the same wrapper
    then panics. *)
Theorem Done_unblocks_its_handler :
  forall (ht : Http.Http) (sched next : list Http.input)
         (s s0 s1 : Http.state) (h i : nat)
         (hd hd1 : Http.handler) (r : Http.run) (x : Http.HttpContext),
    s = fst (Http.exec sched (Http.boot ht)) ->
    Http.crashed s = false ->
    Http.handlers s !! h = Some hd -> Http.h_at hd = Http.HSend ->
    Http.runs s !! i = Some r -> Http.at_pc r = Http.RecvReq ->
    mem (Http.req_ch s) (Http.closed s) = false ->
    x = {| Http.Writer := Http.h_req hd; Http.Request := Http.h_req hd;
           Http.done := Some (Http.h_done hd) |} ->
    s0 = fst (Http.step (Http.Handoff h i) s) ->
    s1 = fst (Http.exec next s0) ->
    Http.crashed s1 = false ->
    Http.handlers s1 !! h = Some hd1 -> Http.h_at hd1 = Http.HWait ->
    (Http.runs s0 !! i = Some (Http.goto (Http.Send x) r) /\
     Http.handlers s0 !! h = Some (Http.hgoto Http.HWait hd)) /\
    Http.step (Http.CallDone x) s1
    = (Http.with_handler h (Http.hgoto Http.HDefer hd1) s1, [EUnblock h]) /\
    (forall h' hd',
        Http.handlers s1 !! h' = Some hd' ->
        Http.h_done hd' = Http.h_done hd -> h' = h) /\
    Http.step (Http.Serve h)
      (Http.with_handler h (Http.hgoto Http.HDefer hd1) s1)
    = (Http.with_closed (Http.h_done hd)
         (Http.with_handler h (Http.hgoto Http.HReturned hd1)
            (Http.with_handler h (Http.hgoto Http.HDefer hd1) s1)), []) /\
    Http.crashed
      (fst (Http.step (Http.CallDone x)
              (Http.with_closed (Http.h_done hd)
                 (Http.with_handler h (Http.hgoto Http.HReturned hd1)
                    (Http.with_handler h (Http.hgoto Http.HDefer hd1) s1)))))
    = true.
Proof.
  intros ht sched next s s0 s1 h i hd hd1 r x
         Hs Hc Hh Hhp Hi Hp Hm Hx Hs0 Hs1 Hc1 Hh1 Hhp1.
  assert (Hwf : HttpInv.wf s)
    by (subst s; apply HttpFacts.http_exec_wf, HttpFacts.http_boot_wf).
  pose proof (HttpFacts.handoff_wrapper s h i hd r Hc Hh Hhp Hi Hp Hm) as E0.
  rewrite <- Hx in E0.
  assert (Hwf0 : HttpInv.wf s0)
    by (subst s0; eapply HttpFacts.http_step_wf; [exact Hwf|apply surjective_pairing]).
  rewrite E0 in Hs0. simpl in Hs0.
  assert (Hlh : h < length (Http.handlers s))
    by (eapply lookup_lt_Some; eauto).
  assert (Hli : i < length (Http.runs s))
    by (eapply lookup_lt_Some; eauto).
  assert (Hh0 : Http.handlers s0 !! h = Some (Http.hgoto Http.HWait hd)).
  { subst s0. simpl. now rewrite list_lookup_insert_eq. }
  assert (Hi0 : Http.runs s0 !! i = Some (Http.goto (Http.Send x) r)).
  { subst s0. simpl. now rewrite list_lookup_insert_eq. }
  assert (Hwf1 : HttpInv.wf s1) by (subst s1; now apply HttpFacts.http_exec_wf).
  assert (Hd1 : Http.h_done hd1 = Http.h_done hd).
  { destruct (HttpFacts.exec_handler next s0 h _ Hh0) as (hd' & Hh' & Hd' & _).
    rewrite <- Hs1 in Hh'. simpl in Hd'. congruence. }
  assert (Hdx : Http.done x = Some (Http.h_done hd1))
    by (subst x; simpl; now rewrite Hd1).
  pose proof (HttpFacts.Done_unblocks s1 h hd1 x Hwf1 Hc1 Hh1 Hhp1 Hdx) as E1.
  assert (Hlh1 : h < length (Http.handlers s1))
    by (eapply lookup_lt_Some; eauto).
  assert (Hwf2 : HttpInv.wf
                   (Http.with_handler h (Http.hgoto Http.HDefer hd1) s1))
    by (eapply HttpFacts.http_step_wf; [exact Hwf1|exact E1]).
  assert (Hh2 : Http.handlers
                  (Http.with_handler h (Http.hgoto Http.HDefer hd1) s1) !! h
                = Some (Http.hgoto Http.HDefer hd1))
    by (simpl; now rewrite list_lookup_insert_eq).
  pose proof (HttpFacts.handler_returns _ h _ Hwf2 Hc1 Hh2 eq_refl) as E2.
  simpl Http.h_done in E2. rewrite Hd1 in E2.
  change (Http.hgoto Http.HReturned (Http.hgoto Http.HDefer hd1))
    with (Http.hgoto Http.HReturned hd1) in E2.
  assert (Hwf3 : HttpInv.wf
                   (Http.with_closed (Http.h_done hd)
                      (Http.with_handler h (Http.hgoto Http.HReturned hd1)
                         (Http.with_handler h (Http.hgoto Http.HDefer hd1)
                            s1))))
    by (eapply HttpFacts.http_step_wf; [exact Hwf2|exact E2]).
  assert (Hh3 : Http.handlers
                  (Http.with_closed (Http.h_done hd)
                     (Http.with_handler h (Http.hgoto Http.HReturned hd1)
                        (Http.with_handler h (Http.hgoto Http.HDefer hd1)
                           s1))) !! h
                = Some (Http.hgoto Http.HReturned hd1)).
  { simpl. rewrite list_lookup_insert_eq; [reflexivity|].
    now rewrite length_insert. }
  pose proof (HttpFacts.Done_again_panics _ h _ x Hwf3 Hc1 Hh3 eq_refl Hdx)
    as E3.
  split; [split; assumption|].
  split; [exact E1|].
  split.
  { intros h' hd' Hh' Hd'. destruct Hwf1 as (Hnd & _).
    eapply HttpFacts.dones_distinct; eauto. congruence. }
  split; [exact E2|].
  rewrite E3. reflexivity.
Qed.

Lemma Done_unblocks_its_handler_witness :
  Http.step
    (Http.CallDone
       {| Http.Writer := 5; Http.Request := 5; Http.done := Some 2 |})
    (fst (Http.exec []
            (fst (Http.step (Http.Handoff 0 0)
                    (fst (Http.exec
                            [Http.Invoke 7; Http.Work 0; Http.Incoming 5]
                            (Http.boot {| Http.Http_ch := 0 |})))))))
  = (Http.with_handler 0
       (Http.hgoto Http.HDefer
          {| Http.h_req := 5; Http.h_done := 2; Http.h_at := Http.HWait |})
       (fst (Http.exec []
               (fst (Http.step (Http.Handoff 0 0)
                       (fst (Http.exec
                               [Http.Invoke 7; Http.Work 0; Http.Incoming 5]
                               (Http.boot {| Http.Http_ch := 0 |}))))))),
     [EUnblock 0]).
Proof.
  exact (proj1 (proj2
    (Done_unblocks_its_handler {| Http.Http_ch := 0 |}
       [Http.Invoke 7; Http.Work 0; Http.Incoming 5] []
       _ _ _ 0 0
       {| Http.h_req := 5; Http.h_done := 2; Http.h_at := Http.HSend |}
       {| Http.h_req := 5; Http.h_done := 2; Http.h_at := Http.HWait |}
       {| Http.ctx := 7; Http.out := 1; Http.at_pc := Http.RecvReq;
          Http.panicking := false |}
       {| Http.Writer := 5; Http.Request := 5; Http.done := Some 2 |}
       eq_refl eq_refl eq_refl eq_refl eq_refl eq_refl eq_refl eq_refl
       eq_refl eq_refl eq_refl eq_refl eq_refl))).
Defined.

Lemma NewHttp_post :
  forall (accepts : http.ServeMux -> string -> bool)
         (s : http.Server) (pattern : string) (hp : http.heap)
         (ht : Http.Http) (s' : http.Server) (hp' : http.heap),
    Http.NewHttp accepts s pattern hp = Some (ht, s', hp') ->
    exists (m : nat) (earlier : http.ServeMux),
      registered_before s hp = Some earlier /\
      http.Server_Handler s' = Some (http.Mux m) /\
      http.muxes hp' !! m
      = Some (earlier ++ [(pattern, http.Trigger (Http.Http_ch ht))]) /\
      Http.Http_ch ht = http.next_chan hp /\
      http.next_chan hp' = S (http.next_chan hp) /\
      match http.Server_Handler s with
      | Some (http.Mux existing) =>
          m = existing /\
          length (http.muxes hp') = length (http.muxes hp)
      | _ =>
          m = length (http.muxes hp) /\ earlier = [] /\
          length (http.muxes hp') = S (length (http.muxes hp))
      end /\
      (forall k, k <> m -> k < length (http.muxes hp) ->
                 http.muxes hp' !! k = http.muxes hp !! k).
Proof.
  intros accepts s pattern hp ht s' hp' H.
  unfold Http.NewHttp in H. unfold registered_before.
  destruct (http.Server_Handler s) as [[existing|ch|id]|] eqn:Hs.
  - destruct (http.muxes hp !! existing) as [registered|] eqn:Hm;
      [|discriminate].
    unfold Http.Handle in H.
    destruct (accepts registered pattern); [|discriminate].
    inversion H; subst; clear H. simpl.
    exists existing, registered. repeat split; auto.
    + apply list_lookup_insert_eq. eapply lookup_lt_Some; eauto.
    + now rewrite length_insert.
    + intros k Hk _. now apply list_lookup_insert_ne.
  - rewrite lookup_app_r in H by lia. rewrite Nat.sub_diag in H. simpl in H.
    unfold Http.Handle in H. destruct (accepts [] pattern); [|discriminate].
    inversion H; subst; clear H. simpl.
    exists (length (http.muxes hp)), []. repeat split; auto.
    + rewrite list_lookup_insert_eq; [reflexivity|].
      rewrite length_app. simpl. lia.
    + rewrite length_insert, length_app. simpl. lia.
    + intros k Hk Hlt. rewrite list_lookup_insert_ne by auto.
      now apply lookup_app_l.
  - rewrite lookup_app_r in H by lia. rewrite Nat.sub_diag in H. simpl in H.
    unfold Http.Handle in H. destruct (accepts [] pattern); [|discriminate].
    inversion H; subst; clear H. simpl.
    exists (length (http.muxes hp)), []. repeat split; auto.
    + rewrite list_lookup_insert_eq; [reflexivity|].
      rewrite length_app. simpl. lia.
    + rewrite length_insert, length_app. simpl. lia.
    + intros k Hk Hlt. rewrite list_lookup_insert_ne by auto.
      now apply lookup_app_l.
  - rewrite lookup_app_r in H by lia. rewrite Nat.sub_diag in H. simpl in H.
    unfold Http.Handle in H. destruct (accepts [] pattern); [|discriminate].
    inversion H; subst; clear H. simpl.
    exists (length (http.muxes hp)), []. repeat split; auto.
    + rewrite list_lookup_insert_eq; [reflexivity|].
      rewrite length_app. simpl. lia.
    + rewrite length_insert, length_app. simpl. lia.
    + intros k Hk Hlt. rewrite list_lookup_insert_ne by auto.
      now apply lookup_app_l.
Qed.

Lemma NewHttp_returns :
  forall (accepts : http.ServeMux -> string -> bool)
         (s : http.Server) (pattern : string) (hp : http.heap)
         (earlier : http.ServeMux),
    registered_before s hp = Some earlier ->
    accepts earlier pattern = true ->
    exists ht s' hp', Http.NewHttp accepts s pattern hp = Some (ht, s', hp').
Proof.
  intros accepts s pattern hp earlier Hb Ha.
  unfold Http.NewHttp. unfold registered_before in Hb.
  destruct (http.Server_Handler s) as [[existing|ch|id]|].
  - rewrite Hb. unfold Http.Handle. rewrite Ha. eauto.
  - inversion Hb; subst. rewrite lookup_app_r by lia.
    rewrite Nat.sub_diag. simpl. unfold Http.Handle. rewrite Ha. eauto.
  - inversion Hb; subst. rewrite lookup_app_r by lia.
    rewrite Nat.sub_diag. simpl. unfold Http.Handle. rewrite Ha. eauto.
  - inversion Hb; subst. rewrite lookup_app_r by lia.
    rewrite Nat.sub_diag. simpl. unfold Http.Handle. rewrite Ha. eauto.
Qed.

(** C10.  Whenever the registration is accepted by the mux it goes to (the
    server's own ServeMux with its earlier registrations if the Handler is
    one, a mux newly made otherwise), NewHttp returns, and the server's
    Handler is then a ServeMux on which the trigger's handler, with the
    channel of the returned Http value, is registered last at the given
    pattern.  If the Handler was a ServeMux before, it is that same mux with
    the earlier registrations kept; otherwise it is the new mux with this
    one registration, so that a Handler of another kind set before is no
    longer reachable from the server, and no complaint is made about it.  No
    other mux is touched. *)
Theorem NewHttp_sets_a_mux :
  forall (accepts : http.ServeMux -> string -> bool)
         (s : http.Server) (pattern : string) (hp : http.heap)
         (earlier : http.ServeMux),
    registered_before s hp = Some earlier ->
    accepts earlier pattern = true ->
    exists (ht : Http.Http) (s' : http.Server) (hp' : http.heap) (m : nat),
      Http.NewHttp accepts s pattern hp = Some (ht, s', hp') /\
      http.Server_Handler s' = Some (http.Mux m) /\
      http.muxes hp' !! m
      = Some (earlier ++ [(pattern, http.Trigger (Http.Http_ch ht))]) /\
      Http.Http_ch ht = http.next_chan hp /\
      http.next_chan hp' = S (http.next_chan hp) /\
      match http.Server_Handler s with
      | Some (http.Mux existing) =>
          m = existing /\
          length (http.muxes hp') = length (http.muxes hp)
      | _ =>
          m = length (http.muxes hp) /\ earlier = [] /\
          length (http.muxes hp') = S (length (http.muxes hp))
      end /\
      (forall k, k <> m -> k < length (http.muxes hp) ->
                 http.muxes hp' !! k = http.muxes hp !! k).
Proof.
  intros accepts s pattern hp earlier Hb Ha.
  destruct (NewHttp_returns accepts s pattern hp earlier Hb Ha)
    as (ht & s' & hp' & E).
  destruct (NewHttp_post accepts s pattern hp ht s' hp' E)
    as (m & earlier' & Hb' & H1 & H2 & H3 & H4 & H5 & H6).
  assert (earlier' = earlier) by congruence. subst earlier'.
  exists ht, s', hp', m. repeat split; auto.
Qed.

Lemma NewHttp_sets_a_mux_witness :
  exists ht s' hp' m,
    Http.NewHttp accepts_new
      {| http.Server_Handler := Some (http.Other 3) |} "/hook"
      {| http.muxes := [[("/a"%string, http.Other 1)]];
         http.next_chan := 4 |}
    = Some (ht, s', hp') /\
    http.Server_Handler s' = Some (http.Mux m) /\
    http.muxes hp' !! m
    = Some ([] ++ [("/hook"%string, http.Trigger (Http.Http_ch ht))]).
Proof.
  destruct (NewHttp_sets_a_mux accepts_new
              {| http.Server_Handler := Some (http.Other 3) |} "/hook"
              {| http.muxes := [[("/a"%string, http.Other 1)]];
                 http.next_chan := 4 |}
              [] eq_refl eq_refl)
    as (ht & s' & hp' & m & H1 & H2 & H3 & _).
  exists ht, s', hp', m. repeat split; assumption.
Defined.

(** * Further properties *)

(** ** Traces *)

Lemma emitted_absent {T} i (ev : list (event T)) :
  (forall e, e ∈ ev -> about i e = false) -> emitted i ev = [].
Proof.
  intros H. apply emitted_none.
  eapply count_absent; eauto using emit_about.
Qed.

Lemma none_after_app {A} (a b : A -> bool) (x y : list A) :
  forall seen,
    none_after a b seen (x ++ y) =
    none_after a b seen x && none_after a b (seen || (0 <? count a x)) y.
Proof.
  induction x as [|e x IH]; intros seen; simpl.
  - now rewrite orb_false_r.
  - rewrite IH, andb_assoc.
    destruct (a e); simpl; rewrite ?orb_true_r, ?orb_false_r; reflexivity.
Qed.

Lemma none_after_absent {T} (a b : event T -> bool) i ev seen :
  (forall e, b e = true -> about i e = true) ->
  (forall e, e ∈ ev -> about i e = false) ->
  none_after a b seen ev = true.
Proof.
  intros Hb. revert seen.
  induction ev as [|e ev IH]; intros seen Hev; simpl; [reflexivity|].
  rewrite IH by (intros e' He'; apply Hev; now right).
  destruct (b e) eqn:E; [|reflexivity].
  apply Hb in E. rewrite (Hev e) in E by now left. discriminate.
Qed.

(** ** The ticker trigger *)

Module TickerMore.
Import conduit Ticker TickerInv TickerObs TickerFacts.

Lemma ticker_exec_run_same sched :
  forall s i r,
    runs s !! i = Some r ->
    exists r', runs (fst (exec sched s)) !! i = Some r' /\
               ctx r' = ctx r /\ out r' = out r.
Proof.
  induction sched as [|inp sched IH]; intros s i r Hi; simpl; eauto.
  destruct (step inp s) as [s1 e1] eqn:E.
  destruct (ticker_step_run _ _ _ _ _ _ E Hi) as (r1 & Hi1 & Hst).
  destruct (ticker_run_step_same _ _ _ _ _ Hst) as (Hc & Ho).
  destruct (IH s1 i r1 Hi1) as (r2 & Hi2 & Hc2 & Ho2).
  destruct (exec sched s1). simpl in *.
  exists r2. repeat split; congruence.
Qed.

Lemma step_emitted inp s s' ev i x :
  step inp s = (s', ev) -> x ∈ emitted i ev ->
  exists r v, runs s' !! i = Some r /\ x = Ok (ctx r) v.
Proof.
  intros H Hx.
  destruct (runs s !! i) as [r|] eqn:Hi.
  - destruct (ticker_step_run _ _ _ _ _ _ H Hi) as (r' & Hi' & Hst).
    destruct Hst as [r ev Hev| | | |r v Hp| | |]; simpl in Hx;
      try (now apply elem_of_nil in Hx).
    + rewrite (emitted_absent i ev Hev) in Hx. now apply elem_of_nil in Hx.
    + rewrite Nat.eqb_refl in Hx. apply list_elem_of_singleton in Hx.
      exists (goto Select r), v. split; auto.
  - destruct (ticker_step_absent _ _ _ _ _ H Hi) as (Hev & _).
    rewrite (emitted_absent i ev Hev) in Hx. now apply elem_of_nil in Hx.
Qed.

Lemma exec_emitted sched :
  forall s i x,
    x ∈ emitted i (snd (exec sched s)) ->
    exists r v, runs (fst (exec sched s)) !! i = Some r /\ x = Ok (ctx r) v.
Proof.
  induction sched as [|inp sched IH]; intros s i x Hx; simpl in *.
  - now apply elem_of_nil in Hx.
  - destruct (step inp s) as [s1 e1] eqn:E.
    specialize (IH s1 i x).
    pose proof (ticker_exec_run_same sched s1 i) as Hsame.
    destruct (exec sched s1) as [s2 e2]. simpl in *.
    rewrite emitted_app in Hx. apply elem_of_app in Hx.
    destruct Hx as [Hx|Hx]; [|now apply IH].
    destruct (step_emitted _ _ _ _ _ _ E Hx) as (r & v & Hi & ->).
    destruct (Hsame r Hi) as (r' & Hi' & Hc & _).
    exists r', v. split; auto. now rewrite Hc.
Qed.

(** X1.  Whatever the schedule, every Outcome a run of the ticker trigger
    puts on its channel is a success tagged with the context that was given
    to Stage for that run; the trigger never emits a failure. *)
Theorem ticker_outcomes_carry_context :
  forall (s : Ticker.state) (sched : list Ticker.input) (i : nat)
         (x : conduit.Result time.Time),
    x ∈ emitted i (snd (Ticker.exec sched s)) ->
    exists r v,
      Ticker.runs (fst (Ticker.exec sched s)) !! i = Some r /\
      x = conduit.Ok (Ticker.ctx r) v.
Proof. intros s sched i x. apply exec_emitted. Qed.

Lemma ticker_outcomes_carry_context_witness :
  exists r v,
    Ticker.runs
      (fst (Ticker.exec
              [Ticker.Invoke 7; Ticker.Work 0; Ticker.Fire; Ticker.Work 0;
               Ticker.Take 0]
              (Ticker.boot
                 {| Ticker.embedded :=
                      {| time.period := time.Second; time.C := None;
                         time.stopped := false |} |}))) !! 0 = Some r /\
    conduit.Ok 7 1000000000%Z = conduit.Ok (Ticker.ctx r) v.
Proof.
  apply (ticker_outcomes_carry_context
           (Ticker.boot
              {| Ticker.embedded :=
                   {| time.period := time.Second; time.C := None;
                      time.stopped := false |} |})
           [Ticker.Invoke 7; Ticker.Work 0; Ticker.Fire; Ticker.Work 0;
            Ticker.Take 0] 0).
  simpl. apply list_elem_of_singleton. reflexivity.
Defined.

Lemma ticker_step_left_on_cancel inp s s' ev :
  left_on_cancel s -> step inp s = (s', ev) -> left_on_cancel s'.
Proof.
  intros Hinv H i r' Hi' Hret.
  destruct (runs s !! i) as [r|] eqn:Hi.
  - destruct (ticker_step_run _ _ _ _ _ _ H Hi) as (r1 & Hi1 & Hst).
    assert (r1 = r') by congruence. subst r1.
    assert (Hmono : forall c, mem c (cancelled s) = true ->
                              mem c (cancelled s') = true)
      by (intros c; eapply ticker_cancelled_mono; eauto).
    destruct Hst as [r ev Hev|r Hp Hm|r Hp Hm|r v Hp|r v Hp|r Hp Hm|r Hp Hm|r Hp];
      simpl in *; try discriminate; apply Hmono; auto;
      first [ now apply (Hinv i r Hi)
            | apply (Hinv i r Hi); now rewrite Hp ].
  - destruct (ticker_step_absent _ _ _ _ _ H Hi) as (_ & [Hn|(r1 & Hi1 & Hp)]).
    + congruence.
    + assert (r1 = r') by congruence. subst. rewrite Hp in Hret. discriminate.
Qed.

Lemma ticker_exec_left_on_cancel sched :
  forall s, left_on_cancel s -> left_on_cancel (fst (exec sched s)).
Proof.
  induction sched as [|inp sched IH]; intros s Hinv; simpl; auto.
  destruct (step inp s) as [s1 e1] eqn:E.
  specialize (IH s1 (ticker_step_left_on_cancel _ _ _ _ Hinv E)).
  now destruct (exec sched s1).
Qed.

(** X2.  A run of the ticker trigger never ends on its own: under every
    schedule, a run whose goroutine has left the loop, and in particular a
    run whose output channel has been closed, is a run whose context has
    been cancelled. *)
Theorem ticker_run_ends_only_on_cancel :
  forall (t : Ticker.Ticker) (sched : list Ticker.input) (i : nat),
    (forall r,
        Ticker.runs (fst (Ticker.exec sched (Ticker.boot t))) !! i = Some r ->
        TickerObs.returned (Ticker.at_pc r) = true ->
        mem (Ticker.ctx r)
            (Ticker.cancelled (fst (Ticker.exec sched (Ticker.boot t))))
        = true) /\
    (0 < count (is_close i) (snd (Ticker.exec sched (Ticker.boot t))) ->
     exists r,
       Ticker.runs (fst (Ticker.exec sched (Ticker.boot t))) !! i = Some r /\
       mem (Ticker.ctx r)
           (Ticker.cancelled (fst (Ticker.exec sched (Ticker.boot t))))
       = true).
Proof.
  intros t sched i.
  assert (Hinv : left_on_cancel (fst (exec sched (boot t)))).
  { apply ticker_exec_left_on_cancel. intros j r Hj. discriminate. }
  split; [intros r Hi Hr; now apply (Hinv i r)|].
  intros Hpos.
  destruct (ticker_exec_ledger i sched _ (ticker_boot_wf t)) as (Hc & _ & _).
  unfold closes_of in Hc. simpl in Hc. rewrite Nat.add_0_r in Hc.
  destruct (runs (fst (exec sched (boot t))) !! i) as [r|] eqn:Hi; [|lia].
  exists r. split; auto. apply (Hinv i r Hi).
  destruct (at_pc r); simpl in *; auto; lia.
Qed.

Lemma ticker_run_ends_only_on_cancel_witness :
  exists r,
    Ticker.runs
      (fst (Ticker.exec
              [Ticker.Invoke 7; Ticker.Cancel 7; Ticker.Work 0; Ticker.Work 0]
              (Ticker.boot
                 {| Ticker.embedded :=
                      {| time.period := time.Second; time.C := None;
                         time.stopped := false |} |}))) !! 0 = Some r /\
    mem (Ticker.ctx r)
        (Ticker.cancelled
           (fst (Ticker.exec
                   [Ticker.Invoke 7; Ticker.Cancel 7; Ticker.Work 0;
                    Ticker.Work 0]
                   (Ticker.boot
                      {| Ticker.embedded :=
                           {| time.period := time.Second; time.C := None;
                              time.stopped := false |} |})))) = true.
Proof.
  apply (proj2 (ticker_run_ends_only_on_cancel
           {| Ticker.embedded :=
                {| time.period := time.Second; time.C := None;
                   time.stopped := false |} |}
           [Ticker.Invoke 7; Ticker.Cancel 7; Ticker.Work 0; Ticker.Work 0]
           0)).
  simpl. lia.
Defined.

Lemma ticker_step_emit_then_open inp s s' ev i :
  wf s -> step inp s = (s', ev) ->
  none_after (is_close i) (is_emit i) (0 <? closes_of s i) ev = true.
Proof.
  intros Hwf H. unfold closes_of.
  destruct (runs s !! i) as [r|] eqn:Hi.
  - destruct (ticker_step_run _ _ _ _ _ _ H Hi) as (r' & Hi' & Hst).
    destruct Hst as [r ev Hev|r Hp Hm|r Hp Hm|r v Hp|r v Hp|r Hp Hm|r Hp Hm|r Hp];
      simpl; rewrite ?Hp; simpl; rewrite ?Nat.eqb_refl; auto.
    eapply none_after_absent; eauto using emit_about.
  - destruct (ticker_step_absent _ _ _ _ _ H Hi) as (Hev & _).
    eapply none_after_absent; eauto using emit_about.
Qed.

Lemma ticker_exec_emit_then_open i sched :
  forall s, wf s ->
    none_after (is_close i) (is_emit i) (0 <? closes_of s i)
      (snd (exec sched s)) = true.
Proof.
  induction sched as [|inp sched IH]; intros s Hwf; simpl; auto.
  destruct (step inp s) as [s1 e1] eqn:E.
  pose proof (ticker_step_emit_then_open _ _ _ _ i Hwf E) as H1.
  destruct (ticker_step_ledger _ _ _ _ i Hwf E) as (Hc & _ & _).
  specialize (IH s1 (ticker_step_wf _ _ _ _ Hwf E)).
  destruct (exec sched s1) as [s2 e2]. simpl in *.
  rewrite none_after_app, H1. simpl.
  replace (_ || _) with (0 <? closes_of s1 i); auto.
  rewrite <- Hc.
  destruct (closes_of s i), (count (is_close i) e1); reflexivity.
Qed.

(** X3.  Under every schedule, with any number of runs, a run of the ticker
    trigger puts nothing on its output channel once it has closed it, no
    deferred close ever panics, and the process is never ended by a
    panic. *)
Theorem ticker_never_sends_on_closed_channel :
  forall (t : Ticker.Ticker) (sched : list Ticker.input) (i : nat),
    none_after (is_close i) (is_emit i) false
      (snd (Ticker.exec sched (Ticker.boot t))) = true /\
    count is_panic (snd (Ticker.exec sched (Ticker.boot t))) = 0 /\
    Ticker.crashed (fst (Ticker.exec sched (Ticker.boot t))) = false.
Proof.
  intros t sched i. split; [|split].
  - exact (ticker_exec_emit_then_open i sched _ (ticker_boot_wf t)).
  - apply exec_no_panic, ticker_boot_wf.
  - now destruct (ticker_exec_wf sched _ (ticker_boot_wf t)) as (? & _).
Qed.

Lemma in_hand_app a b : in_hand (a ++ b) = in_hand a + in_hand b.
Proof. induction a as [|r a IH]; simpl; [reflexivity|]. rewrite IH. lia. Qed.

Lemma in_hand_insert rs :
  forall j rj r',
    rs !! j = Some rj ->
    in_hand (<[j := r']> rs) + holds_tick rj = in_hand rs + holds_tick r'.
Proof.
  induction rs as [|r rs IH]; intros [|j] rj r' Hj; simpl in *;
    try discriminate.
  - inversion Hj; subst. lia.
  - specialize (IH j rj r' Hj). lia.
Qed.

(** Ticks are neither made nor copied by the runs: what a step emits and
    what it leaves pending is what was pending, plus the tick of a ticker
    that fires while it is not stopped. *)
Lemma step_ticks inp s s' ev :
  step inp s = (s', ev) ->
  count is_any_emit ev + pending s'
  <= pending s
     + (if is_fire inp
        then (if time.stopped (timer s) then 0 else 1) else 0).
Proof.
  intros H. unfold pending.
  step_cases H; simpl; try lia;
    try (pose proof (fun r' => in_hand_insert (runs s) j rj r' Hj) as Hins;
         unfold holds_tick in Hins).
  - unfold time.fire. destruct (time.stopped (timer s)); simpl; [lia|].
    destruct (time.C (timer s)) eqn:EC; simpl; rewrite ?EC; lia.
  - rewrite in_hand_app. simpl. unfold holds_tick. simpl. lia.
  - specialize (Hins (goto DeferClose rj)). simpl in Hins.
    rewrite Hpc in Hins. lia.
  - specialize (Hins (goto RecvTick rj)). simpl in Hins.
    rewrite Hpc in Hins. lia.
  - specialize (Hins (goto (Send t) rj)). simpl in Hins.
    rewrite Hpc in Hins.
    unfold time.take in Htick.
    destruct (time.C (timer s)); [|discriminate].
    inversion Htick; subst. simpl. lia.
  - specialize (Hins (panic (goto DeferStop rj))). simpl in Hins.
    rewrite Hpc in Hins. lia.
  - specialize (Hins (goto DeferStop rj)). simpl in Hins.
    rewrite Hpc in Hins. lia.
  - specialize (Hins (goto Exited rj)). simpl in Hins.
    rewrite Hpc in Hins. lia.
  - specialize (Hins (goto Select rj)). simpl in Hins.
    rewrite Hpc in Hins. lia.
Qed.

Lemma step_stopped inp s s' ev :
  step inp s = (s', ev) ->
  time.stopped (timer s) = true -> time.stopped (timer s') = true.
Proof.
  intros H Hs. step_cases H; simpl; auto.
  - unfold time.fire. now rewrite Hs.
  - unfold time.take in Htick. destruct (time.C (timer s)); [|discriminate].
    now inversion Htick.
Qed.

Lemma exec_ticks sched :
  forall s,
    count is_any_emit (snd (exec sched s)) + pending (fst (exec sched s))
    <= pending s + count is_fire sched.
Proof.
  induction sched as [|inp sched IH]; intros s; simpl; [lia|].
  destruct (step inp s) as [s1 e1] eqn:E.
  pose proof (step_ticks _ _ _ _ E) as H1. specialize (IH s1).
  destruct (exec sched s1) as [s2 e2]. simpl in *. rewrite count_app.
  destruct (is_fire inp); [destruct (time.stopped (timer s))|]; lia.
Qed.

Lemma exec_ticks_stopped sched :
  forall s, time.stopped (timer s) = true ->
    count is_any_emit (snd (exec sched s)) + pending (fst (exec sched s))
    <= pending s.
Proof.
  induction sched as [|inp sched IH]; intros s Hs; simpl; [lia|].
  destruct (step inp s) as [s1 e1] eqn:E.
  pose proof (step_ticks _ _ _ _ E) as H1. rewrite Hs in H1.
  specialize (IH s1 (step_stopped _ _ _ _ E Hs)).
  destruct (exec sched s1) as [s2 e2]. simpl in *. rewrite count_app.
  destruct (is_fire inp); lia.
Qed.

(** X4.  The runs of one ticker trigger share its ticks: under every
    schedule, all runs together emit at most as many Outcomes as the ticker
    has fired, so a tick goes to one run only; and a tick that finds the
    buffer of t.C full is dropped: when the period elapses while t.C holds a
    tick, the ticker is left as it was, with the earlier tick in t.C, no run
    moves and nothing is emitted. *)
Theorem ticker_runs_share_the_ticks :
  forall (d : time.Duration) (t : Ticker.Ticker) (sched : list Ticker.input),
    Ticker.NewTicker d = Some t ->
    count is_any_emit (snd (Ticker.exec sched (Ticker.boot t)))
    + TickerObs.pending (fst (Ticker.exec sched (Ticker.boot t)))
    <= count TickerObs.is_fire sched /\
    (forall v,
        time.C (Ticker.timer (fst (Ticker.exec sched (Ticker.boot t))))
        = Some v ->
        Ticker.timer
          (fst (Ticker.step Ticker.Fire
                  (fst (Ticker.exec sched (Ticker.boot t)))))
        = Ticker.timer (fst (Ticker.exec sched (Ticker.boot t))) /\
        Ticker.runs
          (fst (Ticker.step Ticker.Fire
                  (fst (Ticker.exec sched (Ticker.boot t)))))
        = Ticker.runs (fst (Ticker.exec sched (Ticker.boot t))) /\
        snd (Ticker.step Ticker.Fire
               (fst (Ticker.exec sched (Ticker.boot t)))) = []).
Proof.
  intros d t sched Ht. inversion Ht; subst.
  split; [exact (exec_ticks sched _)|].
  intros v Hv.
  destruct (ticker_exec_wf sched _ (ticker_boot_wf
              {| embedded := {| time.period := time.Second; time.C := None;
                                time.stopped := false |} |}))
    as (Hc & _).
  unfold step. rewrite Hc. simpl. unfold time.fire. rewrite Hv.
  now destruct (time.stopped _).
Qed.

Lemma ticker_runs_share_the_ticks_witness :
  count is_any_emit
    (snd (Ticker.exec
            [Ticker.Invoke 7; Ticker.Invoke 8; Ticker.Work 0; Ticker.Work 1;
             Ticker.Fire; Ticker.Fire]
            (Ticker.boot
               {| Ticker.embedded :=
                    {| time.period := time.Second; time.C := None;
                       time.stopped := false |} |})))
  + TickerObs.pending
      (fst (Ticker.exec
              [Ticker.Invoke 7; Ticker.Invoke 8; Ticker.Work 0; Ticker.Work 1;
               Ticker.Fire; Ticker.Fire]
              (Ticker.boot
                 {| Ticker.embedded :=
                      {| time.period := time.Second; time.C := None;
                         time.stopped := false |} |})))
  <= 2 /\
  time.C
    (Ticker.timer
       (fst (Ticker.step Ticker.Fire
               (fst (Ticker.exec
                       [Ticker.Invoke 7; Ticker.Invoke 8; Ticker.Work 0;
                        Ticker.Work 1; Ticker.Fire; Ticker.Fire]
                       (Ticker.boot
                          {| Ticker.embedded :=
                               {| time.period := time.Second;
                                  time.C := None;
                                  time.stopped := false |} |}))))))
  = Some time.Second.
Proof.
  pose proof
    (ticker_runs_share_the_ticks 3%Z
       {| Ticker.embedded :=
            {| time.period := time.Second; time.C := None;
               time.stopped := false |} |}
       [Ticker.Invoke 7; Ticker.Invoke 8; Ticker.Work 0; Ticker.Work 1;
        Ticker.Fire; Ticker.Fire]
       eq_refl) as (Hbound & Hdrop).
  split; [exact Hbound|].
  destruct (Hdrop time.Second eq_refl) as (Htimer & _).
  exact (f_equal time.C Htimer).
Defined.

(** X5.  The Stop deferred by one run stops the ticker of all runs: once a
    run of the ticker trigger has exited, the runs that remain emit, all
    together and under every schedule, no more than the ticks that were
    already taken or buffered, however often the period elapses. *)
Theorem ticker_exit_starves_other_runs :
  forall (t : Ticker.Ticker) (pre sched : list Ticker.input) (i : nat)
         (r : Ticker.run),
    Ticker.runs (fst (Ticker.exec pre (Ticker.boot t))) !! i = Some r ->
    Ticker.at_pc r = Ticker.Exited ->
    count is_any_emit
      (snd (Ticker.exec sched (fst (Ticker.exec pre (Ticker.boot t)))))
    <= TickerObs.pending (fst (Ticker.exec pre (Ticker.boot t))).
Proof.
  intros t pre sched i r Hi Hp.
  destruct (ticker_exec_wf pre _ (ticker_boot_wf t)) as (_ & _ & Hok & _).
  destruct (Hok i r Hi) as (_ & _ & _ & Hstop).
  pose proof (exec_ticks_stopped sched _ (Hstop Hp)). lia.
Qed.

Lemma ticker_exit_starves_other_runs_witness :
  count is_any_emit
    (snd (Ticker.exec
            [Ticker.Fire; Ticker.Work 1; Ticker.Take 1; Ticker.Fire;
             Ticker.Work 1; Ticker.Work 1; Ticker.Take 1]
            (fst (Ticker.exec
                    [Ticker.Invoke 7; Ticker.Invoke 8; Ticker.Cancel 7;
                     Ticker.Work 0; Ticker.Work 0; Ticker.Work 0;
                     Ticker.Work 1]
                    (Ticker.boot
                       {| Ticker.embedded :=
                            {| time.period := time.Second; time.C := None;
                               time.stopped := false |} |})))))
  <= 0.
Proof.
  exact (ticker_exit_starves_other_runs
           {| Ticker.embedded :=
                {| time.period := time.Second; time.C := None;
                   time.stopped := false |} |}
           [Ticker.Invoke 7; Ticker.Invoke 8; Ticker.Cancel 7;
            Ticker.Work 0; Ticker.Work 0; Ticker.Work 0; Ticker.Work 1]
           [Ticker.Fire; Ticker.Work 1; Ticker.Take 1; Ticker.Fire;
            Ticker.Work 1; Ticker.Work 1; Ticker.Take 1]
           0
           {| Ticker.ctx := 7; Ticker.out := 0; Ticker.at_pc := Ticker.Exited;
              Ticker.panicking := false |}
           eq_refl eq_refl).
Defined.

(** A goroutine that waits for a tick does not move while there is none. *)
Lemma ticker_step_waits inp s s' ev i r :
  step inp s = (s', ev) ->
  runs s !! i = Some r -> at_pc r = RecvTick ->
  time.C (timer s) = None -> is_fire inp = false ->
  runs s' !! i = Some r /\ time.C (timer s') = None /\
  count (is_emit i) ev = 0 /\ count (is_close i) ev = 0.
Proof.
  intros H Hi Hp Hc Hf.
  assert (Hlt : i < length (runs s)) by (eapply lookup_lt_Some; eauto).
  assert (Hother : forall j rj, runs s !! j = Some rj ->
                                at_pc rj <> RecvTick -> i <> j)
    by (intros j rj Hj Hn ->; congruence).
  step_cases H; simpl; try discriminate;
    try (unfold time.take in Htick; rewrite Hc in Htick; discriminate);
    try (now auto);
    try (assert (Hne : i <> j)
           by (apply (Hother j rj Hj); rewrite Hpc; discriminate);
         rewrite list_lookup_insert_ne by auto;
         repeat split; auto;
         destruct (Nat.eqb_spec i j);
         first [contradiction|reflexivity|congruence]).
  rewrite lookup_app_l by auto. auto.
Qed.

Lemma ticker_exec_waits sched :
  forall s i r,
    runs s !! i = Some r -> at_pc r = RecvTick ->
    time.C (timer s) = None -> count is_fire sched = 0 ->
    runs (fst (exec sched s)) !! i = Some r /\
    count (is_emit i) (snd (exec sched s)) = 0 /\
    count (is_close i) (snd (exec sched s)) = 0.
Proof.
  induction sched as [|inp sched IH]; intros s i r Hi Hp Hc Hf; simpl in *;
    auto.
  destruct (step inp s) as [s1 e1] eqn:E.
  assert (Hf1 : is_fire inp = false) by (destruct (is_fire inp); [lia|auto]).
  rewrite Hf1 in Hf. simpl in Hf.
  destruct (ticker_step_waits _ _ _ _ _ _ E Hi Hp Hc Hf1) as (Hi1 & Hc1 & He1 & Hk1).
  destruct (IH s1 i r Hi1 Hp Hc1 Hf) as (Hi2 & He2 & Hk2).
  destruct (exec sched s1) as [s2 e2]. simpl in *.
  rewrite !count_app. repeat split; auto; lia.
Qed.

(** X6.  A cancellation does not wake a goroutine of the ticker trigger
    that waits for a tick: as long as the ticker does not fire, whatever
    else happens, cancellations included, the run stays where it is, emits
    nothing and does not close its channel. *)
Theorem ticker_cancel_does_not_wake :
  forall (s : Ticker.state) (sched : list Ticker.input) (i : nat)
         (r : Ticker.run),
    Ticker.runs s !! i = Some r ->
    Ticker.at_pc r = Ticker.RecvTick ->
    time.C (Ticker.timer s) = None ->
    count TickerObs.is_fire sched = 0 ->
    Ticker.runs (fst (Ticker.exec sched s)) !! i = Some r /\
    count (is_emit i) (snd (Ticker.exec sched s)) = 0 /\
    count (is_close i) (snd (Ticker.exec sched s)) = 0.
Proof. intros s sched i r. apply ticker_exec_waits. Qed.

Lemma ticker_cancel_does_not_wake_witness :
  Ticker.runs
    (fst (Ticker.exec
            [Ticker.Cancel 7; Ticker.Work 0; Ticker.Take 0; Ticker.Work 0]
            (fst (Ticker.exec [Ticker.Invoke 7; Ticker.Work 0]
                    (Ticker.boot
                       {| Ticker.embedded :=
                            {| time.period := time.Second; time.C := None;
                               time.stopped := false |} |}))))) !! 0
  = Some {| Ticker.ctx := 7; Ticker.out := 0;
            Ticker.at_pc := Ticker.RecvTick; Ticker.panicking := false |}.
Proof.
  exact (proj1
    (ticker_cancel_does_not_wake
       (fst (Ticker.exec [Ticker.Invoke 7; Ticker.Work 0]
               (Ticker.boot
                  {| Ticker.embedded :=
                       {| time.period := time.Second; time.C := None;
                          time.stopped := false |} |})))
       [Ticker.Cancel 7; Ticker.Work 0; Ticker.Take 0; Ticker.Work 0]
       0
       {| Ticker.ctx := 7; Ticker.out := 0; Ticker.at_pc := Ticker.RecvTick;
          Ticker.panicking := false |}
       eq_refl eq_refl eq_refl eq_refl)).
Defined.

End TickerMore.

(** ** The HTTP trigger *)

Module HttpMore.
Import conduit Http HttpInv HttpObs HttpFacts.

Ltac crush_move :=
  unfold ServeHTTP, handoff, work, take, serve, Done;
  repeat match goal with
  | |- context [match ?x with _ => _ end] => destruct x
  end; simpl.

(** What no step changes, and what no step undoes. *)
Lemma step_keeps inp s s' ev :
  step inp s = (s', ev) ->
  req_ch s' = req_ch s /\
  (crashed s = true -> s' = s /\ ev = []) /\
  (srv_closed s = true -> srv_closed s' = true) /\
  (forall c, mem c (closed s) = true -> mem c (closed s') = true).
Proof.
  intros H. unfold step in H.
  destruct (crashed s) eqn:Hc.
  { inversion H; subst. repeat split; auto. }
  replace s' with (fst (move inp s)) by now rewrite H.
  clear H.
  split; [|split; [discriminate|split]].
  - destruct inp; simpl; auto; crush_move; reflexivity.
  - intros Hs. destruct inp; simpl; auto;
      try (unfold ServeHTTP; rewrite Hs; exact Hs); crush_move; auto.
  - intros c Hm. destruct inp; simpl; auto; crush_move; auto;
      apply mem_cons; now right.
Qed.

Lemma exec_keeps sched :
  forall s,
    req_ch (fst (exec sched s)) = req_ch s /\
    (crashed s = true -> fst (exec sched s) = s) /\
    (srv_closed s = true -> srv_closed (fst (exec sched s)) = true) /\
    (forall c, mem c (closed s) = true ->
               mem c (closed (fst (exec sched s))) = true).
Proof.
  induction sched as [|inp sched IH]; intros s; simpl; auto.
  destruct (step inp s) as [s1 e1] eqn:E.
  destruct (step_keeps _ _ _ _ E) as (H1 & H2 & H3 & H4).
  destruct (IH s1) as (K1 & K2 & K3 & K4).
  destruct (exec sched s1) as [s2 e2]. simpl in *.
  split; [congruence|]. split; [|split].
  - intros Hc. destruct (H2 Hc) as (-> & _). auto.
  - auto.
  - auto.
Qed.

Lemma http_exec_run_same sched :
  forall s i r,
    runs s !! i = Some r ->
    exists r', runs (fst (exec sched s)) !! i = Some r' /\
               ctx r' = ctx r /\ out r' = out r.
Proof.
  induction sched as [|inp sched IH]; intros s i r Hi; simpl; eauto.
  destruct (step inp s) as [s1 e1] eqn:E.
  destruct (http_step_run _ _ _ _ _ _ E Hi) as (r1 & Hi1 & Hst).
  destruct (http_run_step_same _ _ _ _ _ Hst) as (Hc & Ho).
  destruct (IH s1 i r1 Hi1) as (r2 & Hi2 & Hc2 & Ho2).
  destruct (exec sched s1). simpl in *.
  exists r2. repeat split; congruence.
Qed.

Lemma http_step_left_on_cancel inp s s' ev :
  left_on_cancel s -> step inp s = (s', ev) -> left_on_cancel s'.
Proof.
  intros Hinv H i r' Hi' Hret.
  destruct (runs s !! i) as [r|] eqn:Hi.
  - destruct (http_step_run _ _ _ _ _ _ H Hi) as (r1 & Hi1 & Hst).
    assert (r1 = r') by congruence. subst r1.
    assert (Hmono : forall c, mem c (cancelled s) = true ->
                              mem c (cancelled s') = true)
      by (intros c; eapply http_cancelled_mono; eauto).
    destruct Hst
      as [r ev Hev|r Hp Hm|r Hp Hm|r x Hp|r x Hp|r Hp Hm|r Hp Hm|r Hp Hm
          |r Hp Hm|r Hp];
      simpl in *; try discriminate; apply Hmono; auto;
      first [ now apply (Hinv i r Hi)
            | apply (Hinv i r Hi); now rewrite Hp ].
  - destruct (http_step_absent _ _ _ _ _ H Hi) as (_ & [Hn|(r1 & Hi1 & Hp)]).
    + congruence.
    + assert (r1 = r') by congruence. subst. rewrite Hp in Hret. discriminate.
Qed.

Lemma http_exec_left_on_cancel sched :
  forall s, left_on_cancel s -> left_on_cancel (fst (exec sched s)).
Proof.
  induction sched as [|inp sched IH]; intros s Hinv; simpl; auto.
  destruct (step inp s) as [s1 e1] eqn:E.
  specialize (IH s1 (http_step_left_on_cancel _ _ _ _ Hinv E)).
  now destruct (exec sched s1).
Qed.

Lemma http_step_emit_then_open inp s s' ev i :
  wf s -> step inp s = (s', ev) ->
  none_after (is_close i) (is_emit i) (0 <? closes_of s i) ev = true.
Proof.
  intros Hwf H. unfold closes_of.
  destruct (runs s !! i) as [r|] eqn:Hi.
  - destruct (http_step_run _ _ _ _ _ _ H Hi) as (r' & Hi' & Hst).
    destruct Hst
      as [r ev Hev|r Hp Hm|r Hp Hm|r x Hp|r x Hp|r Hp Hm|r Hp Hm|r Hp Hm
          |r Hp Hm|r Hp];
      simpl; rewrite ?Hp; simpl; rewrite ?Nat.eqb_refl; auto.
    eapply none_after_absent; eauto using emit_about.
  - destruct (http_step_absent _ _ _ _ _ H Hi) as (Hev & _).
    eapply none_after_absent; eauto using emit_about.
Qed.

Lemma http_exec_emit_then_open i sched :
  forall s, wf s ->
    none_after (is_close i) (is_emit i) (0 <? closes_of s i)
      (snd (exec sched s)) = true.
Proof.
  induction sched as [|inp sched IH]; intros s Hwf; simpl; auto.
  destruct (step inp s) as [s1 e1] eqn:E.
  pose proof (http_step_emit_then_open _ _ _ _ i Hwf E) as H1.
  destruct (http_step_ledger _ _ _ _ i Hwf E) as (Hc & _ & _).
  specialize (IH s1 (http_step_wf _ _ _ _ Hwf E)).
  destruct (exec sched s1) as [s2 e2]. simpl in *.
  rewrite none_after_app, H1. simpl.
  replace (_ || _) with (0 <? closes_of s1 i); auto.
  rewrite <- Hc.
  destruct (closes_of s i), (count (is_close i) e1); reflexivity.
Qed.

(** X7.  A run of the HTTP trigger never ends on its own and never sends on
    its closed channel: under every schedule, with any number of runs, a
    goroutine that has left the loop belongs to a run whose context has been
    cancelled, and nothing is put on an output channel after its close. *)
Theorem http_run_ends_only_on_cancel :
  forall (ht : Http.Http) (sched : list Http.input) (i : nat),
    (forall r,
        Http.runs (fst (Http.exec sched (Http.boot ht))) !! i = Some r ->
        HttpObs.returned (Http.at_pc r) = true ->
        mem (Http.ctx r)
            (Http.cancelled (fst (Http.exec sched (Http.boot ht)))) = true) /\
    none_after (is_close i) (is_emit i) false
      (snd (Http.exec sched (Http.boot ht))) = true.
Proof.
  intros ht sched i. split.
  - assert (Hinv : left_on_cancel (fst (exec sched (boot ht)))).
    { apply http_exec_left_on_cancel. intros j r Hj. discriminate. }
    intros r Hi Hr. now apply (Hinv i r).
  - exact (http_exec_emit_then_open i sched _ (http_boot_wf ht)).
Qed.

Lemma http_run_ends_only_on_cancel_witness :
  mem 7
      (Http.cancelled
         (fst (Http.exec
                 [Http.Invoke 7; Http.Cancel 7; Http.Work 0; Http.Work 0]
                 (Http.boot {| Http.Http_ch := 0 |})))) = true.
Proof.
  exact (proj1
    (http_run_ends_only_on_cancel {| Http.Http_ch := 0 |}
       [Http.Invoke 7; Http.Cancel 7; Http.Work 0; Http.Work 0] 0)
    {| Http.ctx := 7; Http.out := 1; Http.at_pc := Http.DeferCloseOut;
       Http.panicking := false |}
    eq_refl eq_refl).
Defined.

(** A goroutine that waits for a request does not move while none is handed
    to it and ht.ch is open. *)
Lemma http_step_waits inp s s' ev i r :
  step inp s = (s', ev) ->
  runs s !! i = Some r -> at_pc r = RecvReq ->
  mem (req_ch s) (closed s) = false -> is_handoff_to i inp = false ->
  runs s' !! i = Some r /\
  count (is_emit i) ev = 0 /\ count (is_close i) ev = 0.
Proof.
  intros H Hi Hp Hm Hf.
  assert (Hlt : i < length (runs s)) by (eapply lookup_lt_Some; eauto).
  unfold step in H. destruct (crashed s); [now inversion H; subst|].
  replace s' with (fst (move inp s)) by now rewrite H.
  replace ev with (snd (move inp s)) by now rewrite H.
  clear H.
  assert (Hfin : forall j, i <> j -> (i =? j) = false)
    by (intros j Hne; now apply Nat.eqb_neq).
  destruct inp; simpl in *; auto.
  - rewrite lookup_app_l by auto. auto.
  - unfold ServeHTTP. destruct (srv_closed s); simpl; auto.
  - apply Nat.eqb_neq in Hf. unfold handoff.
    destruct (handlers s !! h) as [hd|]; auto.
    destruct (runs s !! i0) as [rj|]; auto.
    destruct (h_at hd), (at_pc rj); auto.
    rewrite Hm. simpl. rewrite list_lookup_insert_ne by auto. auto.
  - destruct (decide (i0 = i)) as [->|Hne].
    + rewrite Hi. unfold work. rewrite Hp, Hm. simpl. auto.
    + destruct (runs s !! i0) as [rj|]; auto. unfold work.
      destruct (at_pc rj);
        repeat match goal with
        | |- context [if ?b then _ else _] => destruct b
        end; simpl; rewrite ?list_lookup_insert_ne by auto;
        rewrite ?Hfin by auto; auto.
  - destruct (decide (i0 = i)) as [->|Hne].
    + rewrite Hi. unfold take. rewrite Hp. simpl. auto.
    + destruct (runs s !! i0) as [rj|]; auto. unfold take.
      destruct (at_pc rj); simpl; rewrite ?list_lookup_insert_ne by auto;
        rewrite ?Hfin by auto; auto.
  - destruct (handlers s !! h) as [hd|]; auto. unfold serve.
    destruct (h_at hd);
      repeat match goal with
      | |- context [if ?b then _ else _] => destruct b
      end; simpl; auto.
  - unfold Done. destruct (done x) as [d|]; auto.
    destruct (mem d (closed s)); simpl; auto.
    destruct (waiting_on d (handlers s)) as [h|]; auto.
    destruct (handlers s !! h); simpl; auto.
Qed.

Lemma http_exec_waits sched :
  forall s i r,
    runs s !! i = Some r -> at_pc r = RecvReq ->
    count (is_handoff_to i) sched = 0 ->
    mem (req_ch (fst (exec sched s))) (closed (fst (exec sched s))) = false ->
    runs (fst (exec sched s)) !! i = Some r /\
    count (is_emit i) (snd (exec sched s)) = 0 /\
    count (is_close i) (snd (exec sched s)) = 0.
Proof.
  induction sched as [|inp sched IH]; intros s i r Hi Hp Hf Hopen; simpl in *;
    auto.
  destruct (step inp s) as [s1 e1] eqn:E.
  assert (Hf1 : is_handoff_to i inp = false)
    by (destruct (is_handoff_to i inp); [lia|auto]).
  rewrite Hf1 in Hf. simpl in Hf.
  destruct (step_keeps _ _ _ _ E) as (Hr1 & _ & _ & Hm1).
  destruct (exec_keeps sched s1) as (Hr2 & _ & _ & Hm2).
  specialize (IH s1 i r).
  destruct (exec sched s1) as [s2 e2]. simpl in *.
  assert (Hm : mem (req_ch s) (closed s) = false).
  { destruct (mem (req_ch s) (closed s)) eqn:Em; auto.
    apply Hm1, Hm2 in Em. congruence. }
  destruct (http_step_waits _ _ _ _ _ _ E Hi Hp Hm Hf1) as (Hi1 & He1 & Hk1).
  destruct (IH Hi1 Hp Hf Hopen) as (Hi2 & He2 & Hk2).
  rewrite !count_app. repeat split; auto; lia.
Qed.

(** X8.  A cancellation does not wake a goroutine of the HTTP trigger that
    waits for a request: as long as no handler hands it one and ht.ch stays
    open, whatever else happens, cancellations included, the run stays where
    it is, emits nothing and does not close its channel. *)
Theorem http_cancel_does_not_wake :
  forall (s : Http.state) (sched : list Http.input) (i : nat) (r : Http.run),
    Http.runs s !! i = Some r ->
    Http.at_pc r = Http.RecvReq ->
    count (HttpObs.is_handoff_to i) sched = 0 ->
    mem (Http.req_ch (fst (Http.exec sched s)))
        (Http.closed (fst (Http.exec sched s))) = false ->
    Http.runs (fst (Http.exec sched s)) !! i = Some r /\
    count (is_emit i) (snd (Http.exec sched s)) = 0 /\
    count (is_close i) (snd (Http.exec sched s)) = 0.
Proof. intros s sched i r. apply http_exec_waits. Qed.

Lemma http_cancel_does_not_wake_witness :
  Http.runs
    (fst (Http.exec
            [Http.Cancel 7; Http.Work 0; Http.Incoming 3; Http.Work 0;
             Http.Take 0]
            (fst (Http.exec [Http.Invoke 7; Http.Work 0]
                    (Http.boot {| Http.Http_ch := 0 |}))))) !! 0
  = Some {| Http.ctx := 7; Http.out := 1; Http.at_pc := Http.RecvReq;
            Http.panicking := false |}.
Proof.
  exact (proj1
    (http_cancel_does_not_wake
       (fst (Http.exec [Http.Invoke 7; Http.Work 0]
               (Http.boot {| Http.Http_ch := 0 |})))
       [Http.Cancel 7; Http.Work 0; Http.Incoming 3; Http.Work 0;
        Http.Take 0]
       0
       {| Http.ctx := 7; Http.out := 1; Http.at_pc := Http.RecvReq;
          Http.panicking := false |}
       eq_refl eq_refl eq_refl eq_refl)).
Defined.

(** Only its own step, the consumer, or a handoff moves a goroutine. *)
Lemma run_moves_by inp s s' ev i r r' :
  step inp s = (s', ev) ->
  runs s !! i = Some r -> runs s' !! i = Some r' ->
  r' = r \/ inp = Work i \/
  (inp = Take i /\ exists x, at_pc r = Send x) \/
  (exists h, inp = Handoff h i /\ at_pc r = RecvReq).
Proof.
  intros H Hi Hi'.
  assert (Hlt : i < length (runs s)) by (eapply lookup_lt_Some; eauto).
  unfold step in H. destruct (crashed s).
  { inversion H; subst. left. congruence. }
  assert (Hi1 : runs (fst (move inp s)) !! i = Some r') by now rewrite H.
  clear H Hi'.
  assert (Hsame : runs s !! i = Some r' -> r' = r) by congruence.
  destruct inp; simpl in *; auto.
  - rewrite lookup_app_l in Hi1 by auto. auto.
  - unfold ServeHTTP in Hi1. destruct (srv_closed s); simpl in Hi1; auto.
  - unfold handoff in Hi1.
    destruct (handlers s !! h) as [hd|]; auto.
    destruct (runs s !! i0) as [rj|] eqn:Hj; auto.
    destruct (h_at hd); auto.
    destruct (at_pc rj) eqn:Hp; auto.
    destruct (mem (req_ch s) (closed s)); simpl in Hi1; auto.
    destruct (decide (i0 = i)) as [->|Hne].
    + right. right. right. exists h. split; auto. congruence.
    + rewrite list_lookup_insert_ne in Hi1 by auto. auto.
  - destruct (decide (i0 = i)) as [->|Hne]; auto.
    destruct (runs s !! i0) as [rj|]; auto. unfold work in Hi1.
    destruct (at_pc rj);
      repeat match type of Hi1 with
      | context [if ?b then _ else _] => destruct b
      end; simpl in Hi1;
      rewrite ?list_lookup_insert_ne in Hi1 by auto; auto.
  - destruct (decide (i0 = i)) as [->|Hne].
    + rewrite Hi in Hi1. unfold take in Hi1.
      destruct (at_pc r) eqn:Hp; auto.
      right. right. left. eauto.
    + destruct (runs s !! i0) as [rj|]; auto. unfold take in Hi1.
      destruct (at_pc rj); simpl in Hi1;
        rewrite ?list_lookup_insert_ne in Hi1 by auto; auto.
  - destruct (handlers s !! h) as [hd|]; auto. unfold serve in Hi1.
    destruct (h_at hd);
      repeat match type of Hi1 with
      | context [if ?b then _ else _] => destruct b
      end; simpl in Hi1; auto.
  - unfold Done in Hi1. destruct (done x) as [d|]; auto.
    destruct (mem d (closed s)); simpl in Hi1; auto.
    destruct (waiting_on d (handlers s)) as [h|]; auto.
    destruct (handlers s !! h); simpl in Hi1; auto.
Qed.

(** The goroutine's own step, once it has seen the signal, runs the next
    deferred call. *)
Lemma http_work_progress s i r :
  crashed s = false -> runs s !! i = Some r ->
  quiet (at_pc r) = true -> mem (ctx r) (cancelled s) = true ->
  cleaned s r ->
  exists r',
    runs (fst (step (Work i) s)) !! i = Some r' /\
    remaining (at_pc r') = pred (remaining (at_pc r)) /\
    cleaned (fst (step (Work i) s)) r'.
Proof.
  intros Hc Hi Hq Hm (Hk1 & Hk2 & Hk3).
  assert (Hlt : i < length (runs s)) by (eapply lookup_lt_Some; eauto).
  unfold step. rewrite Hc. simpl. rewrite Hi. unfold work, cleaned.
  destruct (at_pc r) eqn:Hp; try discriminate; simpl in *.
  - rewrite Hm. simpl. rewrite list_lookup_insert_eq by auto.
    eexists. split; [reflexivity|]. simpl.
    repeat split; try discriminate; lia.
  - destruct (mem (req_ch s) (closed s)) eqn:Hr; simpl;
      rewrite list_lookup_insert_eq by auto;
      (eexists; split; [reflexivity|]); simpl;
      rewrite ?Nat.eqb_refl, ?Hr;
      repeat split; auto; try discriminate; lia.
  - destruct (mem (out r) (closed s)) eqn:Ho; simpl;
      rewrite list_lookup_insert_eq by auto;
      (eexists; split; [reflexivity|]); simpl;
      rewrite ?Nat.eqb_refl, ?Ho;
      repeat split; auto; try discriminate.
    intros _. rewrite Hk1 by auto. now destruct (_ =? _).
  - rewrite list_lookup_insert_eq by auto.
    eexists; split; [reflexivity|]. simpl. repeat split; auto.
  - rewrite Hi. exists r. rewrite Hp. repeat split; auto.
Qed.

Lemma http_finish_exec i sched :
  forall s r,
    runs s !! i = Some r ->
    quiet (at_pc r) = true -> mem (ctx r) (cancelled s) = true ->
    cleaned s r ->
    remaining (at_pc r) <= count (is_work i) sched ->
    crashed (fst (exec sched s)) = false ->
    exists r', runs (fst (exec sched s)) !! i = Some r' /\
               at_pc r' = Exited /\ out r' = out r /\
               cleaned (fst (exec sched s)) r'.
Proof.
  induction sched as [|inp sched IH]; intros s r Hi Hq Hc Hcl Hk Halive;
    simpl in *.
  - exists r. repeat split; auto; try apply Hcl.
    destruct (at_pc r); simpl in *; try lia; auto; discriminate.
  - destruct (step inp s) as [s1 e1] eqn:E.
    destruct (step_keeps _ _ _ _ E) as (Hr1 & Hcr & Hsrv & Hmono).
    destruct (exec_keeps sched s1) as (_ & Hcr1 & _ & _).
    assert (Hc0 : crashed s = false).
    { destruct (crashed s) eqn:Ec; auto.
      destruct (Hcr eq_refl) as (-> & _).
      destruct (exec sched s) as [s2 e2] eqn:E2. simpl in *.
      rewrite (Hcr1 Ec) in Halive. congruence. }
    destruct (http_step_run _ _ _ _ _ _ E Hi) as (r1 & Hi1 & Hst).
    destruct (http_run_step_quiet _ _ _ _ _ Hst Hq Hc) as (Hq1 & _).
    destruct (http_run_step_same _ _ _ _ _ Hst) as (Hctx & Hout).
    assert (Hc1 : mem (ctx r1) (cancelled s1) = true).
    { rewrite Hctx. eapply http_cancelled_mono; eauto. }
    assert (Hstep : remaining (at_pc r1) <= count (is_work i) sched /\
                    cleaned s1 r1).
    { destruct (is_work i inp) eqn:Ew.
      - destruct inp; try discriminate. simpl in Ew.
        apply Nat.eqb_eq in Ew. subst i0.
        destruct (http_work_progress s i r Hc0 Hi Hq Hc Hcl) as (r2 & Hi2 & Hrem & Hcl2).
        rewrite E in Hi2, Hcl2. simpl in Hi2, Hcl2.
        assert (r2 = r1) by congruence. subst. split; auto. lia.
      - assert (r1 = r).
        { destruct (run_moves_by _ _ _ _ _ _ _ E Hi Hi1)
            as [?|[->|[(-> & x & Hx)|(h & -> & Hx)]]]; auto.
          - simpl in Ew. rewrite Nat.eqb_refl in Ew. discriminate.
          - rewrite Hx in Hq. discriminate.
          - rewrite Hx in Hq. discriminate. }
        subst r1. split; [lia|].
        destruct Hcl as (K1 & K2 & K3). unfold cleaned. rewrite Hr1.
        repeat split; auto. }
    destruct Hstep as (Hk1 & Hcl1).
    specialize (IH s1 r1 Hi1 Hq1 Hc1 Hcl1 Hk1).
    destruct (exec sched s1) as [s2 e2]. simpl in *.
    destruct (IH Halive) as (r' & Hi' & Hex & Ho & Hcl').
    exists r'. repeat split; auto; try apply Hcl'. congruence.
Qed.

(** X9.  A cancellation seen at the select shuts the HTTP trigger down:
    when the goroutine of a run stands at its select with the context
    cancelled, then under every schedule that gives it four steps and does
    not end the process, the run emits nothing more, the request channel
    ht.ch and the output channel are closed, the server is closed, and the
    goroutine has exited. *)
Theorem http_cancel_at_select_shuts_down :
  forall (s : Http.state) (sched : list Http.input) (i : nat) (r : Http.run),
    Http.runs s !! i = Some r ->
    Http.at_pc r = Http.Select ->
    mem (Http.ctx r) (Http.cancelled s) = true ->
    4 <= count (HttpObs.is_work i) sched ->
    Http.crashed (fst (Http.exec sched s)) = false ->
    count (is_emit i) (snd (Http.exec sched s)) = 0 /\
    mem (Http.req_ch s) (Http.closed (fst (Http.exec sched s))) = true /\
    mem (Http.out r) (Http.closed (fst (Http.exec sched s))) = true /\
    Http.srv_closed (fst (Http.exec sched s)) = true /\
    exists r',
      Http.runs (fst (Http.exec sched s)) !! i = Some r' /\
      Http.at_pc r' = Http.Exited.
Proof.
  intros s sched i r Hi Hp Hc Hk Halive.
  assert (Hq : quiet (at_pc r) = true) by now rewrite Hp.
  assert (Hcl : cleaned s r).
  { unfold cleaned. rewrite Hp. simpl. repeat split; discriminate. }
  assert (Hk' : remaining (at_pc r) <= count (is_work i) sched)
    by (rewrite Hp; exact Hk).
  destruct (http_finish_exec i sched s r Hi Hq Hc Hcl Hk' Halive)
    as (r' & Hi' & Hex & Ho & (K1 & K2 & K3)).
  destruct (exec_keeps sched s) as (Hreq & _).
  rewrite Hex in K1, K2. simpl in K1, K2.
  split; [eapply http_quiet_exec; eauto|].
  split; [rewrite <- Hreq; now apply K1|].
  split; [rewrite <- Ho; now apply K2|].
  split; [now apply K3|]. eauto.
Qed.

Lemma http_cancel_at_select_shuts_down_witness :
  Http.srv_closed
    (fst (Http.exec
            [Http.Work 0; Http.Incoming 4; Http.Work 0; Http.Work 0;
             Http.Work 0]
            (fst (Http.exec [Http.Cancel 7; Http.Invoke 7]
                    (Http.boot {| Http.Http_ch := 0 |}))))) = true.
Proof.
  exact (proj1 (proj2 (proj2 (proj2
    (http_cancel_at_select_shuts_down
       (fst (Http.exec [Http.Cancel 7; Http.Invoke 7]
               (Http.boot {| Http.Http_ch := 0 |})))
       [Http.Work 0; Http.Incoming 4; Http.Work 0; Http.Work 0; Http.Work 0]
       0
       {| Http.ctx := 7; Http.out := 1; Http.at_pc := Http.Select;
          Http.panicking := false |}
       eq_refl eq_refl eq_refl (le_n 4) eq_refl))))).
Defined.

End HttpMore.

(** ** The request handlers of the HTTP trigger *)

Lemma count_none {A} (p : A -> bool) (l : list A) :
  (forall e, e ∈ l -> p e = false) -> count p l = 0.
Proof.
  induction l as [|x l IH]; intros H; simpl; [reflexivity|].
  rewrite (H x) by (apply elem_of_cons; now left).
  apply IH. intros e He. apply H. apply elem_of_cons. now right.
Qed.

Module HandlerMore.
Import conduit Http HttpInv HttpObs HttpFacts HttpMore.

Ltac mute :=
  intros ? Hin;
  repeat (apply elem_of_cons in Hin; destruct Hin as [->|Hin]);
  try (apply elem_of_nil in Hin; contradiction);
  simpl; try reflexivity; try (now apply Nat.eqb_neq).

(** What a step does to a handler goroutine. *)
Lemma step_handler_rel inp s s' ev h hd :
  step inp s = (s', ev) -> handlers s !! h = Some hd ->
  exists hd', handlers s' !! h = Some hd' /\ handler_step h s hd hd' ev.
Proof.
  intros H Hh.
  assert (Hlt : h < length (handlers s)) by (eapply lookup_lt_Some; eauto).
  assert (Hstay : forall ev0,
             (forall e, e ∈ ev0 -> is_unblock h e = false) ->
             exists hd', handlers s !! h = Some hd' /\
                         handler_step h s hd hd' ev0).
  { intros ev0 H0. exists hd. split; auto. now apply hs_stay. }
  unfold step in H.
  destruct (crashed s).
  { inversion H; subst. apply Hstay. mute. }
  replace s' with (fst (move inp s)) by now rewrite H.
  replace ev with (snd (move inp s)) by now rewrite H.
  clear H.
  destruct inp; simpl.
  - apply Hstay. mute.
  - apply Hstay. mute.
  - unfold ServeHTTP. destruct (srv_closed s); simpl; [apply Hstay; mute|].
    exists hd. split; [now rewrite lookup_app_l|apply hs_stay; mute].
  - unfold handoff.
    destruct (handlers s !! h0) as [kd|] eqn:Hk; [|apply Hstay; mute].
    destruct (runs s !! i) as [r|]; [|apply Hstay; mute].
    destruct (h_at kd) eqn:Hkp; try (apply Hstay; mute).
    destruct (at_pc r); try (apply Hstay; mute).
    destruct (mem (req_ch s) (closed s)) eqn:Hm; simpl; [apply Hstay; mute|].
    destruct (decide (h = h0)) as [->|Hne].
    + rewrite list_lookup_insert_eq by auto.
      assert (kd = hd) by congruence. subst.
      eexists. split; [reflexivity|]. now apply hs_handoff.
    + rewrite list_lookup_insert_ne by auto. apply Hstay. mute.
  - destruct (runs s !! i) as [r|]; [|apply Hstay; mute]. unfold work.
    destruct (at_pc r);
      repeat match goal with
      | |- context [if ?b then _ else _] => destruct b
      end; simpl; apply Hstay; mute.
  - destruct (runs s !! i) as [r|]; [|apply Hstay; mute]. unfold take.
    destruct (at_pc r); simpl; apply Hstay; mute.
  - destruct (handlers s !! h0) as [kd|] eqn:Hk; [|apply Hstay; mute].
    destruct (decide (h = h0)) as [->|Hne].
    + assert (kd = hd) by congruence. subst. unfold serve.
      destruct (h_at hd) eqn:Hp; simpl; try (apply Hstay; mute).
      * destruct (mem (req_ch s) (closed s)) eqn:Hm; simpl;
          [|apply Hstay; mute].
        rewrite list_lookup_insert_eq by auto.
        eexists. split; [reflexivity|]. now apply hs_send_panic.
      * destruct (mem (h_done hd) (closed s)) eqn:Hm; simpl;
          [|apply Hstay; mute].
        rewrite list_lookup_insert_eq by auto.
        eexists. split; [reflexivity|]. now apply hs_wake.
      * destruct (mem (h_done hd) (closed s)) eqn:Hm; simpl;
          rewrite list_lookup_insert_eq by auto;
          (eexists; split; [reflexivity|]).
        -- now apply hs_close_panic.
        -- now apply hs_return.
    + unfold serve.
      destruct (h_at kd);
        repeat match goal with
        | |- context [if ?b then _ else _] => destruct b
        end; simpl; rewrite ?list_lookup_insert_ne by auto;
        apply Hstay; mute.
  - unfold Done. destruct (done x) as [d|]; [|apply Hstay; mute].
    destruct (mem d (closed s)) eqn:Hm; simpl; [apply Hstay; mute|].
    destruct (waiting_on d (handlers s)) as [k|] eqn:Hw; [|apply Hstay; mute].
    destruct (waiting_on_spec _ _ _ Hw) as (kd & Hk & Hkp & Hkd).
    rewrite Hk. simpl.
    destruct (decide (h = k)) as [->|Hne].
    + rewrite list_lookup_insert_eq by auto.
      assert (kd = hd) by congruence. subst.
      eexists. split; [reflexivity|]. now apply hs_done.
    + rewrite list_lookup_insert_ne by auto. apply Hstay. mute.
Qed.

(** A handler goroutine that has not started yet starts at its send. *)
Lemma step_handler_absent inp s s' ev h :
  step inp s = (s', ev) -> handlers s !! h = None ->
  (forall e, e ∈ ev -> is_unblock h e = false) /\
  (handlers s' !! h = None \/
   exists hd', handlers s' !! h = Some hd' /\ h_at hd' = HSend).
Proof.
  intros H Hh.
  assert (Hge : length (handlers s) <= h) by now apply lookup_ge_None.
  assert (Hins : forall k kd, <[k := kd]> (handlers s) !! h = None).
  { intros k kd. apply lookup_ge_None. now rewrite length_insert. }
  unfold step in H.
  destruct (crashed s).
  { inversion H; subst. split; [mute|now left]. }
  replace s' with (fst (move inp s)) by now rewrite H.
  replace ev with (snd (move inp s)) by now rewrite H.
  clear H.
  destruct inp; simpl; try (split; [mute|now left]).
  - unfold ServeHTTP. destruct (srv_closed s); simpl;
      (split; [mute|]); [now left|].
    destruct (decide (h = length (handlers s))) as [->|Hne].
    + right. rewrite lookup_app_r by lia. rewrite Nat.sub_diag. simpl. eauto.
    + left. apply lookup_ge_None. rewrite length_app. simpl. lia.
  - unfold handoff.
    destruct (handlers s !! h0) as [kd|]; [|split; [mute|now left]].
    destruct (runs s !! i) as [r|]; [|split; [mute|now left]].
    destruct (h_at kd); try (split; [mute|now left]).
    destruct (at_pc r); try (split; [mute|now left]).
    destruct (mem (req_ch s) (closed s)); simpl; (split; [mute|left]); auto.
  - destruct (runs s !! i) as [r|]; [|split; [mute|now left]]. unfold work.
    destruct (at_pc r);
      repeat match goal with
      | |- context [if ?b then _ else _] => destruct b
      end; simpl; (split; [mute|now left]).
  - destruct (runs s !! i) as [r|]; [|split; [mute|now left]]. unfold take.
    destruct (at_pc r); simpl; (split; [mute|now left]).
  - destruct (handlers s !! h0) as [kd|]; [|split; [mute|now left]].
    unfold serve.
    destruct (h_at kd);
      repeat match goal with
      | |- context [if ?b then _ else _] => destruct b
      end; simpl; (split; [mute|left]); auto.
  - unfold Done. destruct (done x) as [d|]; [|split; [mute|now left]].
    destruct (mem d (closed s)); simpl; [split; [mute|now left]|].
    destruct (waiting_on d (handlers s)) as [k|] eqn:Hw;
      [|split; [mute|now left]].
    destruct (waiting_on_spec _ _ _ Hw) as (kd & Hk & _).
    rewrite Hk. simpl. split; [|left; auto].
    assert (h <> k) by congruence. mute.
Qed.

(** Each receive of a handler on its done channel is met by one Done. *)
Lemma step_unblock_ledger inp s s' ev h :
  wf s -> step inp s = (s', ev) ->
  count (is_unblock h) ev + unblocked_of s h = unblocked_of s' h.
Proof.
  intros Hwf H. unfold unblocked_of.
  destruct (handlers s !! h) as [hd|] eqn:Hh.
  - destruct (step_handler_rel _ _ _ _ _ _ H Hh) as (hd' & -> & Hst).
    assert (Hopen : done_closed (h_at hd) = false ->
                    mem (h_done hd) (closed s) = false)
      by (now apply not_closed_done with (h := h)).
    destruct Hst as [hd ev Hev|hd Hp Hm|hd Hp Hm|hd Hp Hm|hd Hp Hm
                    |hd Hp Hm|hd Hp Hm];
      simpl; rewrite ?Hp; simpl; rewrite ?Nat.eqb_refl; auto.
    + now rewrite (count_none _ _ Hev).
    + rewrite Hp in Hopen. simpl in Hopen.
      rewrite Hopen in Hm by reflexivity. discriminate.
    + rewrite Hp in Hopen. simpl in Hopen.
      rewrite Hopen in Hm by reflexivity. discriminate.
  - destruct (step_handler_absent _ _ _ _ _ H Hh) as (Hev & Hs').
    rewrite (count_none _ _ Hev).
    destruct Hs' as [->|(hd' & -> & ->)]; reflexivity.
Qed.

Lemma exec_unblock_ledger h sched :
  forall s, wf s ->
    count (is_unblock h) (snd (exec sched s)) + unblocked_of s h
    = unblocked_of (fst (exec sched s)) h.
Proof.
  induction sched as [|inp sched IH]; intros s Hwf; simpl; auto.
  destruct (step inp s) as [s1 e1] eqn:E.
  pose proof (step_unblock_ledger _ _ _ _ h Hwf E) as H1.
  pose proof (IH s1 (http_step_wf _ _ _ _ Hwf E)) as H2.
  destruct (exec sched s1) as [s2 e2]. simpl in *.
  rewrite count_app. lia.
Qed.

(** X10.  ServeHTTP gets past its receive on the done channel only through
    a call of Done: under every schedule of the program around an Http
    value, the number of Done calls that have met handler h is 1 when the
    handler has passed its receive (it is about to run its deferred close,
    or has returned) and 0 otherwise.  So no handler is met by a second
    Done, and none returns without one. *)
Theorem ServeHTTP_returns_after_one_Done :
  forall (ht : Http.Http) (sched : list Http.input) (h : nat),
    count (is_unblock h) (snd (Http.exec sched (Http.boot ht)))
    = HttpObs.unblocked_of (fst (Http.exec sched (Http.boot ht))) h.
Proof.
  intros ht sched h.
  pose proof (exec_unblock_ledger h sched (boot ht) (http_boot_wf ht)) as H.
  unfold unblocked_of at 1 in H. simpl in H. lia.
Qed.

(** Once ht.ch is closed no send on it completes. *)
Lemma step_not_handed inp s s' ev h :
  step inp s = (s', ev) ->
  mem (req_ch s) (closed s) = true -> handed_of s h = 0 ->
  handed_of s' h = 0 /\ count (is_unblock h) ev = 0.
Proof.
  intros H Hm H0. unfold handed_of in *.
  destruct (handlers s !! h) as [hd|] eqn:Hh.
  - destruct (step_handler_rel _ _ _ _ _ _ H Hh) as (hd' & -> & Hst).
    destruct Hst as [hd ev Hev|hd Hp Hm'|hd Hp Hm'|hd Hp Hm'|hd Hp Hm'
                    |hd Hp Hm'|hd Hp Hm'];
      simpl; try (rewrite Hp in H0; discriminate); auto.
    + split; auto. now apply count_none.
    + congruence.
  - destruct (step_handler_absent _ _ _ _ _ H Hh) as (Hev & Hs').
    rewrite (count_none _ _ Hev).
    destruct Hs' as [->|(hd' & -> & ->)]; auto.
Qed.

(** X11.  A request that has not been handed over when ht.ch is closed is
    never delivered: from a state in which ht.ch is closed, under every
    schedule, a handler that had not completed its send on ht.ch (its
    request arrived earlier and is still waiting, or arrives later) never
    completes it, and no Done meets it. *)
Theorem no_request_taken_after_close :
  forall (sched : list Http.input) (s : Http.state) (h : nat),
    mem (Http.req_ch s) (Http.closed s) = true ->
    HttpObs.handed_of s h = 0 ->
    HttpObs.handed_of (fst (Http.exec sched s)) h = 0 /\
    count (is_unblock h) (snd (Http.exec sched s)) = 0.
Proof.
  induction sched as [|inp sched IH]; intros s h Hm H0; simpl; auto.
  destruct (step inp s) as [s1 e1] eqn:E.
  destruct (step_not_handed _ _ _ _ h E Hm H0) as (H1 & Hc1).
  destruct (step_keeps _ _ _ _ E) as (Hr & _ & _ & Hmono).
  assert (Hm1 : mem (req_ch s1) (closed s1) = true)
    by (rewrite Hr; now apply Hmono).
  destruct (IH s1 h Hm1 H1) as (H2 & Hc2).
  destruct (exec sched s1) as [s2 e2]. simpl in *.
  rewrite count_app. split; [assumption|lia].
Qed.

Lemma no_request_taken_after_close_witness :
  HttpObs.handed_of
    (fst (Http.exec [Http.Handoff 0 1; Http.Serve 0; Http.Incoming 6]
            (fst (Http.exec
                    [Http.Invoke 7; Http.Invoke 8; Http.Incoming 5;
                     Http.Cancel 7; Http.Work 0; Http.Work 0; Http.Work 1;
                     Http.Work 1]
                    (Http.boot {| Http.Http_ch := 0 |}))))) 0 = 0.
Proof.
  exact (proj1 (no_request_taken_after_close
    [Http.Handoff 0 1; Http.Serve 0; Http.Incoming 6]
    (fst (Http.exec
            [Http.Invoke 7; Http.Invoke 8; Http.Incoming 5;
             Http.Cancel 7; Http.Work 0; Http.Work 0; Http.Work 1;
             Http.Work 1]
            (Http.boot {| Http.Http_ch := 0 |})))
    0 eq_refl eq_refl)).
Defined.

(** *** What the runs emit *)

Lemma wrap_same hd hd' :
  h_done hd' = h_done hd -> h_req hd' = h_req hd -> wrap hd' = wrap hd.
Proof. unfold wrap. now intros -> ->. Qed.

Lemma step_from_ht_ch inp s s' ev x :
  step inp s = (s', ev) -> from_ht_ch s x -> from_ht_ch s' x.
Proof.
  intros H [(-> & Hm)|(h & hd & Hh & ->)].
  - left. split; auto.
    destruct (step_keeps _ _ _ _ H) as (Hr & _ & _ & Hmono).
    rewrite Hr. now apply Hmono.
  - right. destruct (step_handler _ _ _ _ _ _ H Hh) as (hd' & Hh' & Hd & Hr).
    exists h, hd'. split; auto. symmetry. now apply wrap_same.
Qed.

Lemma exec_from_ht_ch sched :
  forall s x, from_ht_ch s x -> from_ht_ch (fst (exec sched s)) x.
Proof.
  induction sched as [|inp sched IH]; intros s x Hx; simpl; auto.
  destruct (step inp s) as [s1 e1] eqn:E.
  specialize (IH s1 x (step_from_ht_ch _ _ _ _ _ E Hx)).
  now destruct (exec sched s1).
Qed.

Lemma step_held inp s s' ev :
  held s -> step inp s = (s', ev) -> held s'.
Proof.
  intros Hheld H i r' x Hi' Hp'.
  destruct (runs s !! i) as [r|] eqn:Hi.
  2: { destruct (http_step_absent _ _ _ _ _ H Hi)
         as (_ & [Hn|(r0 & Hr0 & Hsel)]); congruence. }
  assert (Hlt : i < length (runs s)) by (eapply lookup_lt_Some; eauto).
  assert (Hold : r' = r -> from_ht_ch s' x).
  { intros ->. eapply step_from_ht_ch; eauto. }
  destruct (run_moves_by _ _ _ _ _ _ _ H Hi Hi')
    as [?|[->|[(-> & x0 & Hx0)|(h & -> & Hrecv)]]]; auto;
    unfold step in H;
    (destruct (crashed s);
     [inversion H; subst; apply Hold; congruence|]);
    simpl in H.
  - rewrite Hi in H. unfold work in H.
    destruct (at_pc r) eqn:Hp;
      repeat match type of H with
      | context [if ?b then _ else _] => destruct b eqn:?
      end;
      inversion H; subst; clear H; simpl in Hi';
      try (apply Hold; congruence);
      rewrite list_lookup_insert_eq in Hi' by auto;
      inversion Hi'; subst; simpl in Hp'; try discriminate.
    inversion Hp'; subst. left. split; auto.
  - rewrite Hi in H. unfold take in H. rewrite Hx0 in H.
    inversion H; subst; clear H. simpl in Hi'.
    rewrite list_lookup_insert_eq in Hi' by auto.
    inversion Hi'; subst. discriminate.
  - unfold handoff in H.
    destruct (handlers s !! h) as [hd|] eqn:Hh;
      [|inversion H; subst; apply Hold; congruence].
    rewrite Hi in H.
    destruct (h_at hd); rewrite ?Hrecv in H;
      try (inversion H; subst; apply Hold; congruence).
    destruct (mem (req_ch s) (closed s));
      [inversion H; subst; apply Hold; congruence|].
    inversion H; subst; clear H. simpl in Hi'.
    rewrite list_lookup_insert_eq in Hi' by auto.
    inversion Hi'; subst. simpl in Hp'. inversion Hp'; subst.
    right. exists h, (hgoto HWait hd). split; [|reflexivity].
    simpl. apply list_lookup_insert_eq. eapply lookup_lt_Some; eauto.
Qed.

Lemma exec_held sched : forall s, held s -> held (fst (exec sched s)).
Proof.
  induction sched as [|inp sched IH]; intros s Hs; simpl; auto.
  destruct (step inp s) as [s1 e1] eqn:E.
  specialize (IH s1 (step_held _ _ _ _ Hs E)).
  now destruct (exec sched s1).
Qed.

Lemma boot_held ht : held (boot ht).
Proof. intros i r x Hi. discriminate. Qed.

(** The Outcome a step shows of run i is the value the run held. *)
Lemma step_emits_held inp s s' ev i o :
  step inp s = (s', ev) -> o ∈ emitted i ev ->
  exists r x, runs s !! i = Some r /\ at_pc r = Send x /\
              o = Ok (ctx r) x.
Proof.
  intros H Ho.
  destruct (runs s !! i) as [r|] eqn:Hi.
  - destruct (http_step_run _ _ _ _ _ _ H Hi) as (r' & Hi' & Hst).
    destruct Hst
      as [r ev Hev|r Hp|r Hp Hm|r x Hp|r x Hp|r Hp|r Hp|r Hp|r Hp Hm|r Hp];
      simpl in Ho; try (now apply elem_of_nil in Ho).
    + rewrite (emitted_absent i ev Hev) in Ho. now apply elem_of_nil in Ho.
    + rewrite Nat.eqb_refl in Ho. apply list_elem_of_singleton in Ho.
      exists r, x. auto.
  - destruct (http_step_absent _ _ _ _ _ H Hi) as (Hev & _).
    rewrite (emitted_absent i ev Hev) in Ho. now apply elem_of_nil in Ho.
Qed.

Lemma exec_emits_from_ht_ch sched :
  forall s i o,
    held s -> o ∈ emitted i (snd (exec sched s)) ->
    exists r x, runs (fst (exec sched s)) !! i = Some r /\
                o = Ok (ctx r) x /\ from_ht_ch (fst (exec sched s)) x.
Proof.
  induction sched as [|inp sched IH]; intros s i o Hs Ho; simpl in *.
  - now apply elem_of_nil in Ho.
  - destruct (step inp s) as [s1 e1] eqn:E.
    specialize (IH s1 i o (step_held _ _ _ _ Hs E)).
    pose proof (http_exec_run_same sched s1 i) as Hsame.
    pose proof (exec_from_ht_ch sched s1) as Hfrom.
    destruct (exec sched s1) as [s2 e2]. simpl in *.
    rewrite emitted_app in Ho. apply elem_of_app in Ho.
    destruct Ho as [Ho|Ho]; [|now apply IH].
    destruct (step_emits_held _ _ _ _ _ _ E Ho) as (r & x & Hi & Hp & ->).
    destruct (http_step_run _ _ _ _ _ _ E Hi) as (r1 & Hi1 & Hst).
    destruct (http_run_step_same _ _ _ _ _ Hst) as (Hc1 & _).
    destruct (Hsame r1 Hi1) as (r2 & Hi2 & Hc2 & _).
    exists r2, x. split; auto. split; [congruence|].
    apply Hfrom. eapply step_from_ht_ch; eauto.
Qed.

(** X12.  What the HTTP trigger emits: under every schedule of the program
    around an Http value, with any number of runs, every Outcome on the
    channel of run i is Ok, carries the context that run was made with, and
    its value is the wrapper some handler built for its request (Writer,
    Request and the handler's own done channel), or else the zero
    HttpContext, and that only when ht.ch has been closed. *)
Theorem http_outcomes_are_requests :
  forall (ht : Http.Http) (sched : list Http.input) (i : nat)
         (o : conduit.Result Http.HttpContext),
    o ∈ emitted i (snd (Http.exec sched (Http.boot ht))) ->
    exists r x,
      Http.runs (fst (Http.exec sched (Http.boot ht))) !! i = Some r /\
      o = conduit.Ok (Http.ctx r) x /\
      HttpObs.from_ht_ch (fst (Http.exec sched (Http.boot ht))) x.
Proof.
  intros ht sched i o Ho.
  now apply exec_emits_from_ht_ch; [apply boot_held|].
Qed.

Lemma http_outcomes_are_requests_witness :
  exists r x,
    Http.runs (fst (Http.exec
        [Http.Invoke 7; Http.Incoming 5; Http.Work 0; Http.Handoff 0 0;
         Http.Take 0] (Http.boot {| Http.Http_ch := 0 |}))) !! 0 = Some r /\
    conduit.Ok 7 {| Http.Writer := 5; Http.Request := 5;
                    Http.done := Some 2 |} = conduit.Ok (Http.ctx r) x /\
    HttpObs.from_ht_ch (fst (Http.exec
        [Http.Invoke 7; Http.Incoming 5; Http.Work 0; Http.Handoff 0 0;
         Http.Take 0] (Http.boot {| Http.Http_ch := 0 |}))) x.
Proof.
  apply (http_outcomes_are_requests {| Http.Http_ch := 0 |}
           [Http.Invoke 7; Http.Incoming 5; Http.Work 0; Http.Handoff 0 0;
            Http.Take 0] 0).
  simpl. apply elem_of_cons. now left.
Defined.

Lemma step_calm_bound inp sched s s1 e1 :
  wf s -> calm s ->
  length (runs s) + count is_invoke (inp :: sched) <= 1 ->
  step inp s = (s1, e1) ->
  calm s1 /\ length (runs s1) + count is_invoke sched <= 1.
Proof.
  intros Hwf Hcalm Hk E. simpl in Hk.
  destruct (is_invoke inp) eqn:Ei.
  - destruct inp; try discriminate.
    assert (Hnil : runs s = []) by (destruct (runs s); simpl in *; [auto|lia]).
    destruct (invoke_calm _ _ _ _ Hcalm Hnil E) as (? & _).
    split; [assumption|].
    unfold step in E. destruct (crashed s).
    + inversion E; subst. rewrite Hnil. simpl. lia.
    + simpl in E. unfold Stage in E. inversion E; subst. simpl.
      rewrite Hnil. simpl. lia.
  - destruct (step_calm _ _ _ _ Hwf Hcalm Ei E) as (Hcalm1 & _).
    split; [assumption|].
    rewrite (step_runs_length _ _ _ _ Ei E). lia.
Qed.

Lemma exec_emits_wrapped sched :
  forall s i o,
    wf s -> calm s -> held s ->
    length (runs s) + count is_invoke sched <= 1 ->
    o ∈ emitted i (snd (exec sched s)) ->
    exists r h hd,
      runs (fst (exec sched s)) !! i = Some r /\
      handlers (fst (exec sched s)) !! h = Some hd /\
      o = Ok (ctx r) (wrap hd).
Proof.
  induction sched as [|inp sched IH]; intros s i o Hwf Hcalm Hs Hk Ho.
  - now apply elem_of_nil in Ho.
  - simpl in Ho |- *. destruct (step inp s) as [s1 e1] eqn:E.
    destruct (step_calm_bound _ _ _ _ _ Hwf Hcalm Hk E) as (Hcalm1 & Hk1).
    specialize (IH s1 i o (http_step_wf _ _ _ _ Hwf E) Hcalm1
                  (step_held _ _ _ _ Hs E) Hk1).
    pose proof (http_exec_run_same sched s1 i) as Hsame.
    pose proof (exec_handler sched s1) as Hhand.
    destruct (exec sched s1) as [s2 e2]. simpl in *.
    rewrite emitted_app in Ho. apply elem_of_app in Ho.
    destruct Ho as [Ho|Ho]; [|now apply IH].
    destruct (step_emits_held _ _ _ _ _ _ E Ho) as (r & x & Hi & Hp & ->).
    destruct (http_step_run _ _ _ _ _ _ E Hi) as (r1 & Hi1 & Hst).
    destruct (http_run_step_same _ _ _ _ _ Hst) as (Hc1 & _).
    destruct (Hsame r1 Hi1) as (r2 & Hi2 & Hc2 & _).
    destruct (Hs i r x Hi Hp) as [(_ & Hm)|(h & hd & Hh & ->)].
    + destruct (proj1 (proj2 Hcalm) i r Hi) as (_ & Hreq).
      apply Hreq in Hm. rewrite Hp in Hm. discriminate.
    + destruct (step_handler _ _ _ _ _ _ E Hh) as (hd1 & Hh1 & Hd1 & Hr1).
      destruct (Hhand h hd1 Hh1) as (hd2 & Hh2 & Hd2 & Hr2).
      exists r2, h, hd2. split; auto. split; auto.
      replace (ctx r2) with (ctx r) by congruence.
      f_equal. symmetry. apply wrap_same; congruence.
Qed.

(** X13.  As long as the Stage factory of an Http value is invoked at most
    once, the zero HttpContext is never emitted: every Outcome on the
    channel of the run carries the wrapper of a handler, with that handler's
    done channel, so Done on it is a send on a channel that exists. *)
Theorem single_run_emits_only_requests :
  forall (ht : Http.Http) (sched : list Http.input) (i : nat)
         (o : conduit.Result Http.HttpContext),
    count HttpInv.is_invoke sched <= 1 ->
    o ∈ emitted i (snd (Http.exec sched (Http.boot ht))) ->
    exists r h hd,
      Http.runs (fst (Http.exec sched (Http.boot ht))) !! i = Some r /\
      Http.handlers (fst (Http.exec sched (Http.boot ht))) !! h = Some hd /\
      o = conduit.Ok (Http.ctx r) (HttpObs.wrap hd).
Proof.
  intros ht sched i o Hk Ho.
  apply exec_emits_wrapped; auto using http_boot_wf, boot_calm, boot_held.
Qed.

Lemma single_run_emits_only_requests_witness :
  exists r h hd,
    Http.runs (fst (Http.exec
        [Http.Invoke 7; Http.Incoming 5; Http.Work 0; Http.Handoff 0 0;
         Http.Take 0] (Http.boot {| Http.Http_ch := 0 |}))) !! 0 = Some r /\
    Http.handlers (fst (Http.exec
        [Http.Invoke 7; Http.Incoming 5; Http.Work 0; Http.Handoff 0 0;
         Http.Take 0] (Http.boot {| Http.Http_ch := 0 |}))) !! h = Some hd /\
    conduit.Ok 7 {| Http.Writer := 5; Http.Request := 5;
                    Http.done := Some 2 |}
    = conduit.Ok (Http.ctx r) (HttpObs.wrap hd).
Proof.
  apply (single_run_emits_only_requests {| Http.Http_ch := 0 |}
           [Http.Invoke 7; Http.Incoming 5; Http.Work 0; Http.Handoff 0 0;
            Http.Take 0] 0).
  - simpl. lia.
  - simpl. apply elem_of_cons. now left.
Defined.

(** One round of the loop of a run whose ht.ch is closed. *)
Lemma with_run_same s i r :
  runs s !! i = Some r -> with_run i r s = s.
Proof.
  intros Hi. unfold with_run. rewrite list_insert_id by exact Hi.
  now destruct s.
Qed.

Lemma poll_round s i r :
  crashed s = false -> runs s !! i = Some r -> at_pc r = Select ->
  mem (ctx r) (cancelled s) = false ->
  mem (req_ch s) (closed s) = true ->
  exec [Work i; Work i; Take i] s = (s, [EEmit i (Ok (ctx r) zero)]).
Proof.
  intros Hc Hi Hp Hm Hr.
  assert (Hlt : i < length (runs s)) by (eapply lookup_lt_Some; eauto).
  assert (H1 : step (Work i) s = (with_run i (goto RecvReq r) s, [])).
  { unfold step. rewrite Hc. simpl. rewrite Hi. unfold work.
    now rewrite Hp, Hm. }
  assert (H2 : step (Work i) (with_run i (goto RecvReq r) s)
               = (with_run i (goto (Send zero) r) s, [])).
  { unfold step. simpl. rewrite Hc. simpl.
    rewrite list_lookup_insert_eq by auto. unfold work. simpl. rewrite Hr.
    unfold with_run. simpl. now rewrite list_insert_insert_eq. }
  assert (H3 : step (Take i) (with_run i (goto (Send zero) r) s)
               = (s, [EEmit i (Ok (ctx r) zero)])).
  { unfold step. simpl. rewrite Hc. simpl.
    rewrite list_lookup_insert_eq by auto. unfold take. simpl.
    f_equal. unfold with_run. simpl. rewrite list_insert_insert_eq.
    replace (goto Select (goto (Send zero) r)) with r
      by (destruct r; simpl in *; now subst).
    now apply with_run_same. }
  simpl. now rewrite H1, H2, H3.
Qed.

(** X14.  A run that outlives the closing of ht.ch spins on the zero value:
    when another run has closed ht.ch and the context of run i is not
    cancelled, every round of its loop receives the zero HttpContext from
    the closed channel and emits it, for as long as the consumer receives;
    the program is left as it was after each round. *)
Theorem run_on_closed_ht_ch_emits_zero_values :
  forall (n : nat) (s : Http.state) (i : nat) (r : Http.run),
    Http.crashed s = false ->
    Http.runs s !! i = Some r ->
    Http.at_pc r = Http.Select ->
    mem (Http.ctx r) (Http.cancelled s) = false ->
    mem (Http.req_ch s) (Http.closed s) = true ->
    Http.exec (HttpObs.poll i n) s
    = (s, replicate n (EEmit i (conduit.Ok (Http.ctx r) Http.zero))).
Proof.
  induction n as [|n IH]; intros s i r Hc Hi Hp Hm Hr; [reflexivity|].
  change (poll i (S n)) with ([Work i; Work i; Take i] ++ poll i n).
  rewrite http_exec_app, (poll_round s i r Hc Hi Hp Hm Hr).
  now rewrite (IH s i r Hc Hi Hp Hm Hr).
Qed.

Lemma run_on_closed_ht_ch_emits_zero_values_witness :
  snd (Http.exec (HttpObs.poll 1 2)
         (fst (Http.exec
                 [Http.Invoke 7; Http.Invoke 8; Http.Cancel 7; Http.Work 0;
                  Http.Work 0] (Http.boot {| Http.Http_ch := 0 |}))))
  = [EEmit 1 (conduit.Ok 8 Http.zero); EEmit 1 (conduit.Ok 8 Http.zero)].
Proof.
  exact (f_equal snd
    (run_on_closed_ht_ch_emits_zero_values 2
       (fst (Http.exec
               [Http.Invoke 7; Http.Invoke 8; Http.Cancel 7; Http.Work 0;
                Http.Work 0] (Http.boot {| Http.Http_ch := 0 |})))
       1
       {| Http.ctx := 8; Http.out := 2; Http.at_pc := Http.Select;
          Http.panicking := false |}
       eq_refl eq_refl eq_refl eq_refl eq_refl)).
Defined.

(** *** No request is delivered twice *)

Lemma holding_app d a b : holding d (a ++ b) = holding d a + holding d b.
Proof. induction a as [|x a IH]; simpl; [reflexivity|]. rewrite IH. lia. Qed.

Lemma holding_insert d rs :
  forall j rj r', rs !! j = Some rj ->
    holding d (<[j := r']> rs) + holds d rj = holding d rs + holds d r'.
Proof.
  induction rs as [|x rs IH]; intros [|j] rj r' Hj; simpl in *;
    try discriminate.
  - inversion Hj; subst. lia.
  - specialize (IH j rj r' Hj). lia.
Qed.

Lemma handed_app d a b : handed d (a ++ b) = handed d a + handed d b.
Proof. induction a as [|x a IH]; simpl; [reflexivity|]. rewrite IH. lia. Qed.

Lemma handed_insert d hs :
  forall k kd kd', hs !! k = Some kd ->
    handed d (<[k := kd']> hs) + handed1 d kd = handed d hs + handed1 d kd'.
Proof.
  induction hs as [|x hs IH]; intros [|k] kd kd' Hk; simpl in *;
    try discriminate.
  - inversion Hk; subst. lia.
  - specialize (IH k kd kd' Hk). lia.
Qed.

Lemma handed_other d hs : d ∉ (h_done <$> hs) -> handed d hs = 0.
Proof.
  induction hs as [|x hs IH]; intros Hd; simpl; [reflexivity|].
  simpl in Hd. apply not_elem_of_cons in Hd. destruct Hd as (Hx & Hd).
  rewrite (IH Hd). unfold handed1.
  destruct (Nat.eqb_spec d (h_done x)); [contradiction|reflexivity].
Qed.

Lemma handed_once d hs : NoDup (h_done <$> hs) -> handed d hs <= 1.
Proof.
  induction hs as [|x hs IH]; intros Hnd; simpl; [lia|].
  simpl in Hnd. apply NoDup_cons in Hnd. destruct Hnd as (Hx & Hnd).
  unfold handed1. destruct (Nat.eqb_spec d (h_done x)) as [->|Hne].
  - rewrite (handed_other _ _ Hx). destruct (h_at x); simpl; lia.
  - specialize (IH Hnd). lia.
Qed.

(** A wrapper a run emits is one it held, and a wrapper a run holds is one
    a handler handed over. *)
Lemma step_delivery inp s s' ev d :
  wf s -> step inp s = (s', ev) ->
  count (is_emit_of d) ev + holding d (runs s') + handed d (handlers s)
  = holding d (runs s) + handed d (handlers s').
Proof.
  intros Hwf H. unfold step in H.
  destruct (crashed s); [inversion H; subst; simpl; lia|].
  replace s' with (fst (move inp s)) by now rewrite H.
  replace ev with (snd (move inp s)) by now rewrite H.
  clear H.
  assert (Hrun : forall j rj r', runs s !! j = Some rj ->
            holds d rj = 0 -> holds d r' = 0 ->
            holding d (<[j := r']> (runs s)) = holding d (runs s)).
  { intros j rj r' Hj H0 H1.
    pose proof (holding_insert d (runs s) j rj r' Hj). lia. }
  assert (Hhd : forall k kd p, handlers s !! k = Some kd ->
            handed_over p = handed_over (h_at kd) ->
            handed d (<[k := hgoto p kd]> (handlers s))
            = handed d (handlers s)).
  { intros k kd p Hk Hp.
    pose proof (handed_insert d (handlers s) k kd (hgoto p kd) Hk) as Hh.
    unfold handed1 in Hh. simpl in Hh. rewrite Hp in Hh. lia. }
  destruct inp; simpl; try lia.
  - rewrite holding_app. simpl. unfold holds. simpl. lia.
  - unfold ServeHTTP. destruct (srv_closed s); simpl; [lia|].
    rewrite handed_app. simpl. unfold handed1. simpl.
    destruct (d =? next_chan s); lia.
  - unfold handoff.
    destruct (handlers s !! h) as [hd|] eqn:Hh; [|simpl; lia].
    destruct (runs s !! i) as [r|] eqn:Hi; [|simpl; lia].
    destruct (h_at hd) eqn:Hhp; try (simpl; lia).
    destruct (at_pc r) eqn:Hp; try (simpl; lia).
    destruct (mem (req_ch s) (closed s)); simpl; [lia|].
    pose proof (holding_insert d (runs s) i r
                  (goto (Send {| Writer := h_req hd; Request := h_req hd;
                                 done := Some (h_done hd) |}) r) Hi) as H1.
    pose proof (handed_insert d (handlers s) h hd (hgoto HWait hd) Hh) as H2.
    unfold holds in H1. unfold handed1 in H2. simpl in H1, H2.
    rewrite Hp in H1. rewrite Hhp in H2. unfold carries in H1. simpl in H1.
    destruct (d =? h_done hd); simpl in *; lia.
  - destruct (runs s !! i) as [r|] eqn:Hi; [|simpl; lia]. unfold work.
    destruct (at_pc r) eqn:Hp;
      repeat match goal with
      | |- context [if ?b then _ else _] => destruct b
      end; simpl; try lia;
      rewrite (Hrun i r) by (auto; unfold holds; simpl; now rewrite ?Hp);
      lia.
  - destruct (runs s !! i) as [r|] eqn:Hi; [|simpl; lia]. unfold take.
    destruct (at_pc r) eqn:Hp; simpl; try lia.
    pose proof (holding_insert d (runs s) i r (goto Select r) Hi) as H1.
    unfold holds in H1. simpl in H1. rewrite Hp in H1.
    destruct (carries d x); lia.
  - destruct (handlers s !! h) as [hd|] eqn:Hh; [|simpl; lia]. unfold serve.
    destruct (h_at hd) eqn:Hhp; simpl; try lia.
    + destruct (mem (req_ch s) (closed s)); simpl; [|lia].
      rewrite (Hhd h hd) by (auto; now rewrite Hhp). lia.
    + destruct (mem (h_done hd) (closed s)); simpl; [|lia].
      rewrite (Hhd h hd) by (auto; now rewrite Hhp). lia.
    + rewrite (not_closed_done s h hd Hwf Hh) by now rewrite Hhp.
      simpl. rewrite (Hhd h hd) by (auto; now rewrite Hhp). lia.
  - unfold Done. destruct (done x) as [c|]; [|simpl; lia].
    destruct (mem c (closed s)); simpl; [lia|].
    destruct (waiting_on c (handlers s)) as [k|] eqn:Hw; [|simpl; lia].
    destruct (waiting_on_spec _ _ _ Hw) as (kd & Hk & Hkp & _).
    rewrite Hk. simpl. rewrite (Hhd k kd) by (auto; now rewrite Hkp). lia.
Qed.

Lemma exec_delivery d sched :
  forall s, wf s ->
    count (is_emit_of d) (snd (exec sched s))
    + holding d (runs (fst (exec sched s))) + handed d (handlers s)
    = holding d (runs s) + handed d (handlers (fst (exec sched s))).
Proof.
  induction sched as [|inp sched IH]; intros s Hwf; simpl; [lia|].
  destruct (step inp s) as [s1 e1] eqn:E.
  pose proof (step_delivery _ _ _ _ d Hwf E) as H1.
  pose proof (IH s1 (http_step_wf _ _ _ _ Hwf E)) as H2.
  destruct (exec sched s1) as [s2 e2]. simpl in *.
  rewrite count_app. lia.
Qed.

(** X15.  No request is delivered twice: under every schedule of the
    program around an Http value, whatever the number of runs that receive
    from ht.ch, the wrapper with a given done channel is emitted at most
    once over all output channels together. *)
Theorem each_request_emitted_at_most_once :
  forall (ht : Http.Http) (sched : list Http.input) (d : chan),
    count (HttpObs.is_emit_of d) (snd (Http.exec sched (Http.boot ht))) <= 1.
Proof.
  intros ht sched d.
  pose proof (exec_delivery d sched (boot ht) (http_boot_wf ht)) as H.
  pose proof (handed_once d _
    (dones_nodup _ (http_exec_wf sched _ (http_boot_wf ht)))) as H1.
  simpl in H. lia.
Qed.

End HandlerMore.

(** ** Several triggers on one server *)

(** X16.  Two triggers registered on one server share its mux: when
    NewHttp has returned for a server and is called again for the same
    server and returns, the server's Handler is still the mux the first call
    left, that mux holds the registrations it had before the first call
    followed by the two patterns in the order of the calls, each with the
    channel of its own Http value, the two channels differ, and no mux is
    made by the second call. *)
Theorem NewHttp_twice_shares_the_mux :
  forall (accepts : http.ServeMux -> string -> bool)
         (s : http.Server) (p1 p2 : string) (hp : http.heap)
         (ht1 ht2 : Http.Http) (s1 s2 : http.Server) (hp1 hp2 : http.heap),
    Http.NewHttp accepts s p1 hp = Some (ht1, s1, hp1) ->
    Http.NewHttp accepts s1 p2 hp1 = Some (ht2, s2, hp2) ->
    exists (m : nat) (earlier : http.ServeMux),
      registered_before s hp = Some earlier /\
      http.Server_Handler s1 = Some (http.Mux m) /\
      http.Server_Handler s2 = Some (http.Mux m) /\
      http.muxes hp2 !! m
      = Some (earlier ++ [(p1, http.Trigger (Http.Http_ch ht1));
                          (p2, http.Trigger (Http.Http_ch ht2))]) /\
      Http.Http_ch ht1 <> Http.Http_ch ht2 /\
      length (http.muxes hp2) = length (http.muxes hp1).
Proof.
  intros accepts s p1 p2 hp ht1 ht2 s1 s2 hp1 hp2 E1 E2.
  destruct (NewHttp_post _ _ _ _ _ _ _ E1)
    as (m & earlier & Hb & Hs1 & Hm1 & Hc1 & Hn1 & _ & _).
  destruct (NewHttp_post _ _ _ _ _ _ _ E2)
    as (m' & earlier' & Hb' & Hs2 & Hm2 & Hc2 & Hn2 & Hcase & _).
  unfold registered_before in Hb'. rewrite Hs1 in Hb', Hcase.
  destruct Hcase as (-> & Hlen).
  pose proof (eq_trans (eq_sym Hb') Hm1) as Heq.
  inversion Heq; subst earlier'; clear Heq. exists m, earlier.
  split; [assumption|]. split; [assumption|]. split; [assumption|].
  split; [now rewrite Hm2, <- app_assoc|].
  split; [lia|assumption].
Qed.

Lemma NewHttp_twice_shares_the_mux_witness :
  exists m earlier,
    registered_before {| http.Server_Handler := None |}
      {| http.muxes := []; http.next_chan := 0 |} = Some earlier /\
    http.Server_Handler {| http.Server_Handler := Some (http.Mux 0) |}
    = Some (http.Mux m) /\
    http.Server_Handler {| http.Server_Handler := Some (http.Mux 0) |}
    = Some (http.Mux m) /\
    http.muxes
      {| http.muxes := [[("/a"%string, http.Trigger 0);
                         ("/b"%string, http.Trigger 1)]];
         http.next_chan := 2 |} !! m
    = Some (earlier ++ [("/a"%string, http.Trigger 0);
                        ("/b"%string, http.Trigger 1)]) /\
    0 <> 1 /\
    length [[("/a"%string, http.Trigger 0); ("/b"%string, http.Trigger 1)]]
    = length [[("/a"%string, http.Trigger 0)]].
Proof.
  exact (NewHttp_twice_shares_the_mux accepts_new
           {| http.Server_Handler := None |} "/a" "/b"
           {| http.muxes := []; http.next_chan := 0 |}
           {| Http.Http_ch := 0 |} {| Http.Http_ch := 1 |}
           {| http.Server_Handler := Some (http.Mux 0) |}
           {| http.Server_Handler := Some (http.Mux 0) |}
           {| http.muxes := [[("/a"%string, http.Trigger 0)]];
              http.next_chan := 1 |}
           {| http.muxes := [[("/a"%string, http.Trigger 0);
                              ("/b"%string, http.Trigger 1)]];
              http.next_chan := 2 |}
           eq_refl eq_refl).
Defined.

(** X17.  When a second trigger is refused: after NewHttp has returned for
    a server, a further call for the same server panics exactly when the
    Handle method of the mux, which now holds the earlier registrations and
    the first trigger's, rejects the new pattern. *)
Theorem second_NewHttp_panics_iff_rejected :
  forall (accepts : http.ServeMux -> string -> bool)
         (s : http.Server) (p1 p2 : string) (hp : http.heap)
         (ht1 : Http.Http) (s1 : http.Server) (hp1 : http.heap)
         (earlier : http.ServeMux),
    Http.NewHttp accepts s p1 hp = Some (ht1, s1, hp1) ->
    registered_before s hp = Some earlier ->
    (Http.NewHttp accepts s1 p2 hp1 = None <->
     accepts (earlier ++ [(p1, http.Trigger (Http.Http_ch ht1))]) p2
     = false).
Proof.
  intros accepts s p1 p2 hp ht1 s1 hp1 earlier E1 Hb0.
  destruct (NewHttp_post _ _ _ _ _ _ _ E1)
    as (m & earlier' & Hb & Hs1 & Hm1 & _).
  pose proof (eq_trans (eq_sym Hb) Hb0) as Heq.
  inversion Heq; subst earlier'; clear Heq.
  unfold Http.NewHttp. rewrite Hs1.
  match goal with
  | |- context [match ?t with Some _ => _ | None => _ end] =>
      replace t with (Some (earlier ++
                        [(p1, http.Trigger (Http.Http_ch ht1))]))
        by (symmetry; exact Hm1)
  end.
  unfold Http.Handle.
  destruct (accepts _ p2); split; intros H; congruence.
Qed.

Lemma second_NewHttp_panics_iff_rejected_witness :
  Http.NewHttp accepts_new {| http.Server_Handler := Some (http.Mux 0) |}
    "/a" {| http.muxes := [[("/a"%string, http.Trigger 0)]];
            http.next_chan := 1 |} = None.
Proof.
  exact (proj2 (second_NewHttp_panics_iff_rejected accepts_new
           {| http.Server_Handler := None |} "/a" "/a"
           {| http.muxes := []; http.next_chan := 0 |}
           {| Http.Http_ch := 0 |}
           {| http.Server_Handler := Some (http.Mux 0) |}
           {| http.muxes := [[("/a"%string, http.Trigger 0)]];
              http.next_chan := 1 |}
           [] eq_refl eq_refl) eq_refl).
Defined.

(** ** Shutting the HTTP trigger down more than once *)

Module ShutdownMore.
Import conduit Http HttpInv HttpObs HttpFacts HttpMore.

(** A step moves at most one goroutine. *)
Lemma one_run_moves inp s s' ev i j ri rj ri' rj' :
  step inp s = (s', ev) -> i <> j ->
  runs s !! i = Some ri -> runs s !! j = Some rj ->
  runs s' !! i = Some ri' -> runs s' !! j = Some rj' ->
  ri' = ri \/ rj' = rj.
Proof.
  intros H Hne Hi Hj Hi' Hj'.
  destruct (run_moves_by _ _ _ _ _ _ _ H Hi Hi')
    as [?|[Ei|[(Ei & _)|(h & Ei & _)]]]; auto;
    destruct (run_moves_by _ _ _ _ _ _ _ H Hj Hj')
      as [?|[Ej|[(Ej & _)|(k & Ej & _)]]]; auto;
    rewrite Ei in Ej; inversion Ej; contradiction.
Qed.

(** A run that is in the program after a step and past its select was
    there before. *)
Lemma run_was_there inp s s' ev i r' :
  step inp s = (s', ev) -> runs s' !! i = Some r' ->
  at_pc r' <> Select ->
  exists r, runs s !! i = Some r /\ run_step i s r r' ev.
Proof.
  intros H Hi' Hp.
  destruct (runs s !! i) as [r|] eqn:Hi.
  - destruct (http_step_run _ _ _ _ _ _ H Hi) as (r1 & Hi1 & Hst).
    exists r. split; auto. congruence.
  - destruct (http_step_absent _ _ _ _ _ H Hi)
      as (_ & [Hn|(r0 & Hr0 & Hsel)]); congruence.
Qed.

(** The step that changes the position of run i is its goroutine's own,
    when the run stands at a deferred call. *)
Lemma own_step inp s s' ev i r r' :
  step inp s = (s', ev) -> crashed s = false ->
  runs s !! i = Some r -> runs s' !! i = Some r' ->
  quiet (at_pc r) = true -> at_pc r' <> at_pc r ->
  s' = fst (work i r s).
Proof.
  intros H Hc Hi Hi' Hq Hne.
  destruct (run_moves_by _ _ _ _ _ _ _ H Hi Hi')
    as [->|[->|[(_ & x & Hx)|(h & _ & Hx)]]];
    try contradiction; try (rewrite Hx in Hq; discriminate).
  unfold step in H. rewrite Hc in H. simpl in H. rewrite Hi in H.
  now rewrite H.
Qed.

Lemma moved_past_req i s ri ri' rj ev :
  run_step i s ri ri' ev ->
  (past_req (at_pc rj) = true -> mem (req_ch s) (closed s) = true) ->
  (past_req (at_pc ri) = true -> past_req (at_pc rj) = true ->
   panicking ri = true \/ panicking rj = true) ->
  past_req (at_pc ri') = true -> past_req (at_pc rj) = true ->
  panicking ri' = true \/ panicking rj = true.
Proof.
  intros Hst HA HB Hpi Hpj.
  destruct Hst
    as [r ev Hev|r Hp|r Hp Hm|r x Hp|r x Hp|r Hp Hm|r Hp Hm|r Hp Hm
       |r Hp Hm|r Hp];
    simpl in *; try discriminate; auto.
  - rewrite HA in Hm by assumption. discriminate.
  - apply HB; auto. now rewrite Hp.
  - apply HB; auto. now rewrite Hp.
Qed.

Lemma step_shut_once inp s s' ev :
  shut_once s -> step inp s = (s', ev) -> shut_once s'.
Proof.
  intros (HA & HB & HC) H.
  destruct (crashed s) eqn:Hc.
  { unfold step in H. rewrite Hc in H. inversion H; subst.
    split; [|split]; auto. }
  destruct (step_keeps _ _ _ _ H) as (Hr & _ & _ & Hmono).
  assert (Hthere : forall i r', runs s' !! i = Some r' ->
            past_req (at_pc r') = true ->
            exists r, runs s !! i = Some r /\ run_step i s r r' ev).
  { intros i r' Hi' Hp. eapply run_was_there; eauto.
    intros E. rewrite E in Hp. discriminate. }
  split; [|split].
  - intros i r' Hi' Hp. rewrite Hr.
    destruct (Hthere i r' Hi' Hp) as (r & Hi & Hst).
    destruct Hst
      as [r ev Hev|r Hp0|r Hp0 Hm|r x Hp0|r x Hp0|r Hp0 Hm|r Hp0 Hm
         |r Hp0 Hm|r Hp0 Hm|r Hp0];
      simpl in Hp; try discriminate;
      try (apply Hmono; apply (HA i r Hi); now rewrite ?Hp0).
    + assert (Hs' : s' = fst (work i r s)).
      { eapply own_step; eauto; simpl; rewrite Hp0; [reflexivity|discriminate]. }
      rewrite Hs'. unfold work. rewrite Hp0, Hm. simpl.
      now rewrite Nat.eqb_refl.
    + now apply Hmono.
  - intros i j ri' rj' Hne Hi' Hj' Hpi Hpj.
    destruct (Hthere i ri' Hi' Hpi) as (ri & Hi & Hsti).
    destruct (Hthere j rj' Hj' Hpj) as (rj & Hj & Hstj).
    destruct (one_run_moves _ _ _ _ _ _ _ _ _ _ H Hne Hi Hj Hi' Hj')
      as [->| ->].
    + assert (panicking rj' = true \/ panicking ri = true) as [?|?]; auto.
      apply (moved_past_req j s rj rj' ri ev); auto.
      * apply (HA i ri Hi).
      * intros Pj Pi. destruct (HB i j ri rj Hne Hi Hj Pi Pj); auto.
    + apply (moved_past_req i s ri ri' rj ev); auto.
      * apply (HA j rj Hj).
      * apply (HB i j ri rj Hne Hi Hj).
  - intros i r' Hi' He Hpan.
    assert (Hp : past_req (at_pc r') = true) by now rewrite He.
    destruct (Hthere i r' Hi' Hp) as (r & Hi & Hst).
    destruct Hst
      as [r ev Hev|r Hp0|r Hp0 Hm|r x Hp0|r x Hp0|r Hp0 Hm|r Hp0 Hm
         |r Hp0 Hm|r Hp0 Hm|r Hp0];
      simpl in He; try discriminate.
    + pose proof (HC i r Hi He Hpan). discriminate.
    + assert (Hs' : s' = fst (work i r s)).
      { eapply own_step; eauto; simpl; rewrite Hp0; [reflexivity|discriminate]. }
      rewrite Hs'. unfold work. rewrite Hp0. simpl. exact Hpan.
Qed.

Lemma exec_shut_once sched :
  forall s, shut_once s -> shut_once (fst (exec sched s)).
Proof.
  induction sched as [|inp sched IH]; intros s Hs; simpl; auto.
  destruct (step inp s) as [s1 e1] eqn:E.
  specialize (IH s1 (step_shut_once _ _ _ _ Hs E)).
  now destruct (exec sched s1).
Qed.

Lemma boot_shut_once ht : shut_once (boot ht).
Proof. split; [|split]; intros; discriminate. Qed.

(** X18.  An Http value can be shut down once only: under every schedule
    of the program around it, of any two runs that have got past their
    deferred close(ht.ch) one is panicking (it found the channel closed by
    the other), and when two runs have both exited, the panic of one of
    them has ended the process. *)
Theorem second_shutdown_ends_the_process :
  forall (ht : Http.Http) (sched : list Http.input) (i j : nat)
         (ri rj : Http.run),
    i <> j ->
    Http.runs (fst (Http.exec sched (Http.boot ht))) !! i = Some ri ->
    Http.runs (fst (Http.exec sched (Http.boot ht))) !! j = Some rj ->
    (HttpInv.past_req (Http.at_pc ri) = true ->
     HttpInv.past_req (Http.at_pc rj) = true ->
     Http.panicking ri = true \/ Http.panicking rj = true) /\
    (Http.at_pc ri = Http.Exited -> Http.at_pc rj = Http.Exited ->
     Http.crashed (fst (Http.exec sched (Http.boot ht))) = true).
Proof.
  intros ht sched i j ri rj Hne Hi Hj.
  destruct (exec_shut_once sched (boot ht) (boot_shut_once ht))
    as (HA & HB & HC).
  split; [now apply (HB i j)|].
  intros Ei Ej.
  destruct (HB i j ri rj Hne Hi Hj) as [P|P];
    try (now rewrite ?Ei, ?Ej); eauto.
Qed.

Lemma second_shutdown_ends_the_process_witness :
  Http.crashed
    (fst (Http.exec
            [Http.Invoke 7; Http.Invoke 8; Http.Cancel 7; Http.Cancel 8;
             Http.Work 0; Http.Work 0; Http.Work 0; Http.Work 0;
             Http.Work 1; Http.Work 1; Http.Work 1; Http.Work 1]
            (Http.boot {| Http.Http_ch := 0 |}))) = true.
Proof.
  exact (proj2 (second_shutdown_ends_the_process {| Http.Http_ch := 0 |}
    [Http.Invoke 7; Http.Invoke 8; Http.Cancel 7; Http.Cancel 8;
     Http.Work 0; Http.Work 0; Http.Work 0; Http.Work 0;
     Http.Work 1; Http.Work 1; Http.Work 1; Http.Work 1]
    0 1
    {| Http.ctx := 7; Http.out := 1; Http.at_pc := Http.Exited;
       Http.panicking := false |}
    {| Http.ctx := 8; Http.out := 2; Http.at_pc := Http.Exited;
       Http.panicking := true |}
    ltac:(discriminate) eq_refl eq_refl) eq_refl eq_refl).
Defined.

End ShutdownMore.
